(** * Reporting core of the Beancount web front-end

    A shallow embedding of the reporting engine of
    [lib/python/beancount2/web/web.py]: the balance iterator
    ([iterate_with_balance]), the table of balances ([is_account_active],
    [table_of_balances], [tree_table]), the lazily populated view cache
    ([handle_view]), the identifier allocation ([compute_ids]), the tables
    of entries ([entries_table_with_balance], [entries_table] and the
    conversions page), the links to accounts ([account_link] and the
    [account] page) and the views ([View] and its subclasses, [openbal],
    [get_all_tags], [get_all_payees]). *)

From Stdlib Require Import ZArith Ascii String.
From stdpp Require Import gmap strings list sorting.


(** ** Exceptions raised by the modelled code *)

Inductive exception :=
| AttributeError   (* a method looked up on None *)
| ValueError       (* list.remove(x): x not in list *)
| RuntimeError     (* raised by compute_ids *)
| ViewError.       (* whatever a view factory raises *)

#[global] Instance exception_eq_dec : EqDecision exception.
Proof. solve_decision. Defined.

(** ** Data model: dates, lots, positions *)

(** [datetime.date]. *)
Record date := Date { year : Z; month : Z; day : Z }.

#[global] Instance date_eq_dec : EqDecision date.
Proof. solve_decision. Defined.

#[global] Instance date_countable : Countable date.
Proof.
  refine (inj_countable' (fun d => (year d, month d, day d))
                         (fun t => Date t.1.1 t.1.2 t.2) _).
  by intros [].
Defined.

(** An amount: a number of units of a currency.  Quantities are decimal
    numbers in the source; they are counted here in the smallest unit. *)
Record Amount := mkAmount { amount_number : Z; amount_currency : string }.

#[global] Instance Amount_eq_dec : EqDecision Amount.
Proof. solve_decision. Defined.

#[global] Instance Amount_countable : Countable Amount.
Proof.
  refine (inj_countable' (fun a => (amount_number a, amount_currency a))
                         (fun t => mkAmount t.1 t.2) _).
  by intros [].
Defined.

(** [Lot(currency, cost, lot_date)]. *)
Record Lot := mkLot { currency : string; cost : option Amount; lot_date : option date }.

#[global] Instance Lot_eq_dec : EqDecision Lot.
Proof. solve_decision. Defined.

#[global] Instance Lot_countable : Countable Lot.
Proof.
  refine (inj_countable' (fun l => (currency l, cost l, lot_date l))
                         (fun t => mkLot t.1.1 t.1.2 t.2) _).
  by intros [].
Defined.

(** A position: a signed quantity held in a lot. *)
Record Position := mkPosition { lot : Lot; number : Z }.

#[global] Instance Position_eq_dec : EqDecision Position.
Proof. solve_decision. Defined.

(** ** Inventory

    Modelled from the spec: the class [Inventory] lives in
    [beancount2.inventory], which is not part of the sources at hand.  The
    specification describes it as a collection of positions keyed by lot
    (positions with different lots never merge) that supports addition,
    lookup by lot and enumeration; [add_position] with merging adds the
    quantity to the position already held for the same lot. *)
Abbreviation Inventory := (gmap Lot Z).

Definition Inventory_new : Inventory := ∅.

(** [inventory.add_position(position, True)]: both call sites of the
    iterator pass [True]. *)
Definition add_position (position : Position) (inv : Inventory) : Inventory :=
  <[lot position := (default 0 (inv !! lot position) + number position)%Z]> inv.

(** [inventory.get_position(lot)]: the position held for [lot], or None. *)
Definition get_position (inv : Inventory) (l : Lot) : option Position :=
  mkPosition l <$> inv !! l.

(** [inventory.get_positions()]. *)
Definition get_positions (inv : Inventory) : list Position :=
  (fun kv => mkPosition kv.1 kv.2) <$> map_to_list inv.

(** Adding a list of positions one after the other, and the sum of a list of
    positions in a fresh inventory. *)
Definition add_positions (ps : list Position) (inv : Inventory) : Inventory :=
  foldl (fun acc p => add_position p acc) inv ps.

Definition sum_positions (ps : list Position) : Inventory :=
  add_positions ps Inventory_new.

(** ** Entries and postings *)

(** One leg of a transaction as the transaction owns it.  In the source a
    [Posting] points back to its [Transaction], whose [postings] list holds
    that same [Posting]; the cycle is cut here: the transaction owns legs,
    and a standalone [Posting] carries its parent. *)
Record Leg := mkLeg {
  leg_account : string;
  leg_position : Position;
  leg_price : option Amount;
  leg_flag : option ascii
}.

#[global] Instance Leg_eq_dec : EqDecision Leg.
Proof. solve_decision. Defined.

Record Transaction := mkTransaction {
  txn_date : date;
  txn_flag : ascii;
  txn_payee : option string;
  txn_narration : string;
  txn_tags : list string;
  txn_postings : list Leg
}.

#[global] Instance Transaction_eq_dec : EqDecision Transaction.
Proof. solve_decision. Defined.

(** The directives of a ledger.  Only the date and, for the pages modelled
    here, the account and the checked position are kept. *)
Inductive Entry :=
| Open (d : date) (account : string)
| Close (d : date) (account : string)
| Pad (d : date) (account : string)
| Check (d : date) (account : string) (position : Position) (success : bool)
| Txn (t : Transaction)
| Event (d : date)
| Note (d : date) (account : string)
| Price (d : date).

#[global] Instance Entry_eq_dec : EqDecision Entry.
Proof. solve_decision. Defined.

(** [entry.date]. *)
Definition entry_date (e : Entry) : date :=
  match e with
  | Open d _ | Close d _ | Pad d _ | Check d _ _ _ | Event d | Note d _ | Price d => d
  | Txn t => txn_date t
  end.

(** [isinstance(entry, Transaction)] and [isinstance(entry, Open)]. *)
Definition is_Transaction (e : Entry) : bool :=
  match e with Txn _ => true | _ => false end.

Definition is_Open (e : Entry) : bool :=
  match e with Open _ _ => true | _ => false end.

(** A standalone [Posting]: [posting.entry] is its parent transaction. *)
Record Posting := mkPosting {
  entry : Transaction;
  account : string;
  position : Position;
  price : option Amount;
  posting_flag : option ascii
}.

#[global] Instance Posting_eq_dec : EqDecision Posting.
Proof. solve_decision. Defined.

(** The lists walked by the iterator and stored on tree nodes hold entries
    and standalone postings side by side; the code tells them apart with
    [isinstance(entry, Posting)]. *)
Inductive Item :=
| IEntry (e : Entry)
| IPosting (p : Posting).

#[global] Instance Item_eq_dec : EqDecision Item.
Proof. solve_decision. Defined.

(** ** The balance iterator: [iterate_with_balance]

    The generator yields tuples [(date_entry, date_postings, change, balance)].
    The yielded [balance] is every time the one [Inventory] object the loop
    keeps updating; [rec_balance] is the content of that object when the
    record is yielded, which is what the consumers read before asking for the
    next record. *)
Record record := mkRecord {
  rec_entry : Entry;
  rec_postings : option (list Posting);
  rec_change : option Inventory;
  rec_balance : Inventory
}.

(** The local variables of the loop: the running [balance], [prev_date] and
    the buffer [date_entries] of the entries at the current date. *)
Record state := mkState {
  balance : Inventory;
  prev_date : option date;
  date_entries : list (Entry * option (list Posting))
}.

Definition initial_state : state := mkState Inventory_new None [].

(** Modelled from the spec: [utils.index_key(sequence, value, key)] is not
    part of the sources at hand; the buffer is searched for the first element
    whose key is the given value (the de-dup key is the parent transaction),
    and None is returned when there is none.  Entries are values here: two
    transactions are the same when all their fields agree. *)
Fixpoint index_key {A B : Type} `{EqDecision B}
    (sequence : list A) (value : B) (key : A -> B) : option nat :=
  match sequence with
  | [] => None
  | element :: rest =>
      if decide (key element = value) then Some 0
      else S <$> index_key rest value key
  end.

(** The body of a flushing loop for one buffered pair: the change due to the
    entry and the updated balance.  [if date_postings:] is false for None
    and for an empty list. *)
Definition flush_one (date_postings : option (list Posting)) (balance : Inventory)
    : option Inventory * Inventory :=
  match date_postings with
  | Some ((_ :: _) as postings) =>
      (Some (add_positions (position <$> postings) Inventory_new),
       add_positions (position <$> postings) balance)
  | _ => (None, balance)
  end.

(** [for date_entry, date_postings in date_entries: ... yield ...]: the
    records yielded and the balance after the loop. *)
Fixpoint flush (balance : Inventory) (date_entries : list (Entry * option (list Posting)))
    : list record * Inventory :=
  match date_entries with
  | [] => ([], balance)
  | (date_entry, date_postings) :: rest =>
      let (change, balance1) := flush_one date_postings balance in
      let (records, balance2) := flush balance1 rest in
      (mkRecord date_entry date_postings change balance1 :: records, balance2)
  end.

(** Lines 559-571: the entry, or the posting under its parent transaction,
    goes to the buffer.  [postings.append(posting)] on the None of a pair
    buffered for a directly listed entry raises AttributeError. *)
Definition buffer_item (date_entries : list (Entry * option (list Posting)))
    (e : Entry) (posting : option Posting)
    : exception + list (Entry * option (list Posting)) :=
  match posting with
  | Some p =>
      match index_key date_entries e fst with
      | None => inr (date_entries ++ [(e, Some [p])])
      | Some index =>
          match date_entries !! index with
          | Some (e', Some postings) =>
              inr (<[index := (e', Some (postings ++ [p]))]> date_entries)
          | _ => inl AttributeError
          end
      end
  | None => inr (date_entries ++ [(e, None)])
  end.

(** Lines 534-538: a posting stands for its parent transaction. *)
Definition resolve (it : Item) : Entry * option Posting :=
  match it with
  | IPosting p => (Txn (entry p), Some p)
  | IEntry e => (e, None)
  end.

(** Lines 540-557: when the date changes the buffer is flushed and cleared. *)
Definition flush_on_date_change (st : state) (e : Entry) : list record * state :=
  if decide (Some (entry_date e) = prev_date st) then ([], st)
  else
    let (records, balance1) := flush (balance st) (date_entries st) in
    (records, mkState balance1 (Some (entry_date e)) []).

(** One turn of the [for entry in entries] loop: the records yielded during
    the turn, and the state after it or the exception that ended the
    generator. *)
Definition step (st : state) (it : Item) : list record * (exception + state) :=
  let (e, posting) := resolve it in
  let (records, st1) := flush_on_date_change st e in
  match buffer_item (date_entries st1) e posting with
  | inl exn => (records, inl exn)
  | inr buffered => (records, inr (mkState (balance st1) (prev_date st1) buffered))
  end.

Fixpoint run (st : state) (entries : list Item) : list record * (exception + state) :=
  match entries with
  | [] => ([], inr st)
  | it :: rest =>
      match step st it with
      | (records, inl exn) => (records, inl exn)
      | (records, inr st1) =>
          let (records', r) := run st1 rest in (records ++ records', r)
      end
  end.

(** The whole generator: the records yielded, in order, and the exception
    that ended the iteration, if any.  After the loop the final buffer is
    flushed (lines 573-583). *)
Definition iterate_with_balance (entries : list Item) : list record * option exception :=
  match run initial_state entries with
  | (records, inl exn) => (records, Some exn)
  | (records, inr st) => (records ++ (flush (balance st) (date_entries st)).1, None)
  end.

(** The content of the shared [balance] object once the generator is
    exhausted (or has raised). *)
Definition balance_after (entries : list Item) : Inventory :=
  match run initial_state entries with
  | (records, inl _) => default Inventory_new (rec_balance <$> last records)
  | (_, inr st) => (flush (balance st) (date_entries st)).2
  end.

(** The positions of the standalone postings of a list, in list order. *)
Definition item_positions (entries : list Item) : list Position :=
  omap (fun it => match it with IPosting p => Some (position p) | IEntry _ => None end) entries.

(** The pair a record was flushed from, the positions waiting in a buffer,
    and the balance the consumer saw just before the [i]-th record. *)
Definition rec_pair (r : record) : Entry * option (list Posting) :=
  (rec_entry r, rec_postings r).

Definition buffer_positions (date_entries : list (Entry * option (list Posting)))
    : list Position :=
  date_entries ≫= (fun pr => position <$> default [] pr.2).

Definition balance_before (records : list record) (i : nat) : Inventory :=
  default Inventory_new (rec_balance <$> last (take i records)).

(** The positions carried by the records, in the order of emission. *)
Definition emitted_positions (records : list record) : list Position :=
  buffer_positions (rec_pair <$> records).

(** The entries listed directly (not through a standalone posting). *)
Definition direct_entries (entries : list Item) : list Entry :=
  omap (fun it => match it with IEntry e => Some e | IPosting _ => None end) entries.

(** First-seen order, following the specification: walking the input, every
    directly listed entry is recorded, and a posting records its parent
    transaction unless that transaction has already been seen at the current
    date; [seen] restarts whenever the date of the scanned item differs from
    the date before it. *)
Fixpoint first_seen (prev : option date) (seen : list Entry) (entries : list Item)
    : list Entry :=
  match entries with
  | [] => []
  | it :: rest =>
      let e := (resolve it).1 in
      let seen1 := if decide (Some (entry_date e) = prev) then seen else [] in
      if decide (is_Some (resolve it).2 /\ e ∈ seen1)
      then first_seen (Some (entry_date e)) seen1 rest
      else e :: first_seen (Some (entry_date e)) (seen1 ++ [e]) rest
  end.

Definition first_seen_order (entries : list Item) : list Entry :=
  first_seen None [] entries.

(** ** Predicates on buffers and records, used below *)

(** Records follow one another: each record's change and balance are those
    of [flush_one] at the balance of the record before it; and the balance
    of the last record of a list, or [b] when there is none. *)
Fixpoint chained (b : Inventory) (records : list record) : Prop :=
  match records with
  | [] => True
  | r :: rest =>
      rec_change r = (flush_one (rec_postings r) b).1 /\
      rec_balance r = (flush_one (rec_postings r) b).2 /\
      chained (rec_balance r) rest
  end.

Definition last_balance (b : Inventory) (records : list record) : Inventory :=
  default b (rec_balance <$> last records).

(** What a successful call leaves in the buffer: a new pair at the end, or
    one more posting on the first pair buffered for the same entry. *)
Inductive buffered (des : list (Entry * option (list Posting))) (e : Entry)
    : option Posting -> list (Entry * option (list Posting)) -> Prop :=
| buffered_entry :
    buffered des e None (des ++ [(e, None)])
| buffered_new p :
    e ∉ des.*1 ->
    buffered des e (Some p) (des ++ [(e, Some [p])])
| buffered_more p pre l post :
    des = pre ++ (e, Some l) :: post -> e ∉ pre.*1 ->
    buffered des e (Some p) (pre ++ (e, Some (l ++ [p])) :: post).

(** Only transactions are buffered with a posting list. *)
Definition pair_ok (pr : Entry * option (list Posting)) : Prop :=
  is_Some pr.2 -> is_Transaction pr.1 = true.

(** The pairs buffered without a posting list, and the pairs buffered for a
    given entry. *)
Definition null_pair (pr : Entry * option (list Posting)) : Prop := pr.2 = None.

#[global] Instance null_pair_dec pr : Decision (null_pair pr).
Proof. unfold null_pair. apply _. Defined.

Definition about (e : Entry) (pr : Entry * option (list Posting)) : Prop := pr.1 = e.

#[global] Instance about_dec e pr : Decision (about e pr).
Proof. unfold about. apply _. Defined.

(** A list as a journal page walks it: postings, and entries that are not
    transactions; and the buffers such a walk builds, where no transaction
    is buffered without a posting list. *)
Definition journal_like (entries : list Item) : Prop :=
  Forall (fun it => match it with
                    | IEntry e => is_Transaction e = false
                    | IPosting _ => True
                    end) entries.

Definition null_ok (pr : Entry * option (list Posting)) : Prop :=
  pr.2 = None -> is_Transaction pr.1 = false.

(** A transaction is blocked in a buffer when the first pair buffered for it
    has no posting list: it was listed directly. *)
Definition blocked (t : Transaction) (des : list (Entry * option (list Posting))) : Prop :=
  head (filter (about (Txn t)) des) = Some (Txn t, None).

(** The postings buffered for an entry are postings of this entry, and
    there is at least one. *)
Definition owned (pr : Entry * option (list Posting)) : Prop :=
  match pr.2 with
  | Some postings => postings ≠ [] /\ Forall (fun p => Txn (entry p) = pr.1) postings
  | None => True
  end.

(** ** The table of balances: [is_account_active], [tree_table],
       [table_of_balances] *)

(** Modelled from the spec: [RealAccount] is built by
    [beancount2.realization], which is not part of the sources at hand.  A
    node carries its full account name, the account if there is one (None on
    a pure parent node), the balance aggregated over its subtree, its own
    direct postings (entries and postings side by side) and its children. *)
Unset Elimination Schemes.
Inductive RealAccount :=
  mkRealAccount (name : string) (account : option string) (balance : Inventory)
                (postings : list Item) (children : list RealAccount).
Set Elimination Schemes.

Definition ra_name (ra : RealAccount) : string :=
  match ra with mkRealAccount name _ _ _ _ => name end.
Definition ra_account (ra : RealAccount) : option string :=
  match ra with mkRealAccount _ account _ _ _ => account end.
Definition ra_balance (ra : RealAccount) : Inventory :=
  match ra with mkRealAccount _ _ balance _ _ => balance end.
Definition ra_postings (ra : RealAccount) : list Item :=
  match ra with mkRealAccount _ _ _ postings _ => postings end.
Definition ra_children (ra : RealAccount) : list RealAccount :=
  match ra with mkRealAccount _ _ _ _ children => children end.

(** The nodes of a tree, depth first, parents before children. *)
Fixpoint nodes (ra : RealAccount) : list RealAccount :=
  match ra with
  | mkRealAccount _ _ _ _ children => ra :: flat_map nodes children
  end.

(** Induction over a tree, with the property available on every child. *)
Fixpoint RealAccount_ind (P : RealAccount -> Prop)
    (step : forall name account balance postings children,
        Forall P children -> P (mkRealAccount name account balance postings children))
    (ra : RealAccount) : P ra :=
  match ra with
  | mkRealAccount name account balance postings children =>
      step name account balance postings children
        ((fix all (l : list RealAccount) : Forall P l :=
            match l with
            | [] => Forall_nil_2 P
            | c :: l' => Forall_cons_2 P c l' (RealAccount_ind P step c) (all l')
            end) children)
  end.

(** [isinstance(entry, Open)] on an element of [real_account.postings]. *)
Definition item_is_Open (it : Item) : bool :=
  match it with IEntry e => is_Open e | IPosting _ => false end.

(** Lines 322-330. *)
Fixpoint is_account_active_loop (postings : list Item) : bool :=
  match postings with
  | [] => false
  | entry :: rest =>
      if item_is_Open entry then is_account_active_loop rest else true
  end.

Definition is_account_active (real_account : RealAccount) : bool :=
  is_account_active_loop (ra_postings real_account).

(** Modelled from the spec: [tree.mark_from_leaves(predicate)] is not part
    of the sources at hand.  Activity is computed bottom-up over the whole
    tree: a node is marked if the predicate holds of it or if one of its
    children is marked; the marked nodes are returned. *)
Fixpoint marked (predicate : RealAccount -> bool) (ra : RealAccount) : bool :=
  match ra with
  | mkRealAccount _ _ _ _ children => predicate ra || existsb (marked predicate) children
  end.

Definition mark_from_leaves (predicate : RealAccount -> bool) (tree : RealAccount)
    : list RealAccount :=
  filter (fun ra => marked predicate ra = true) (nodes tree).

(** Modelled from the spec: [data.is_account_root] is not part of the
    sources at hand; the designated category roots are Assets, Liabilities,
    Equity, Income and Expenses. *)
Definition is_account_root (account_name : string) : bool :=
  bool_decide (account_name ∈ ["Assets"; "Liabilities"; "Equity"; "Income"; "Expenses"]).

(** Modelled from the spec: [start_node_name in tree] and
    [tree.render_lines(start_node_name)] are not part of the sources at
    hand.  The subtree rooted at the node of the given name is rendered, one
    line per node, depth first, parents before children.  The strings that
    draw the indentation of a line are left out. *)
Definition find_node (tree : RealAccount) (node_name : string) : option RealAccount :=
  head (filter (fun ra => ra_name ra = node_name) (nodes tree)).

Definition render_lines (tree : RealAccount) (start_node_name : string)
    : list RealAccount :=
  match find_node tree start_node_name with
  | Some start => nodes start
  | None => []
  end.

(** The cells of a row.  In the source they are strings: a formatted
    number, the empty string, and the remaining positions joined for
    display. *)
Inductive cell :=
| NumCell (n : Z)
| BlankCell
| RestCell (positions : list Position).

(** A rendered row: the node, the classes of the row and its cells. *)
Record row := mkRow {
  row_account : RealAccount;
  row_classes : list string;
  row_cells : list cell
}.

(** Lines 292-317.  [tree_table] yields, for each line, the node and two
    fresh lists which its caller fills in before asking for the next line; a
    line whose [cells] are left empty is skipped.  The caller's loop body is
    the argument [fill]; an exception raised in it ends the rendering. *)
Fixpoint tree_table_rows (fill : RealAccount -> exception + list cell * list string)
    (lines : list RealAccount) : exception + list row :=
  match lines with
  | [] => inr []
  | real_account :: rest =>
      match fill real_account with
      | inl exn => inl exn
      | inr (cells, row_classes) =>
          match tree_table_rows fill rest with
          | inl exn => inl exn
          | inr rows =>
              inr (match cells with
                   | [] => rows
                   | _ :: _ => mkRow real_account row_classes cells :: rows
                   end)
          end
      end
  end.

Definition tree_table (tree : RealAccount) (start_node_name : string)
    (fill : RealAccount -> exception + list cell * list string) : exception + list row :=
  match find_node tree start_node_name with
  | None => inr []
  | Some _ => tree_table_rows fill (render_lines tree start_node_name)
  end.

(** [positions.remove(position)]: the first equal element is removed;
    ValueError when there is none. *)
Fixpoint list_remove_first {A} `{EqDecision A} (x : A) (l : list A) : option (list A) :=
  match l with
  | [] => None
  | y :: l' => if decide (y = x) then Some l' else (y ::.) <$> list_remove_first x l'
  end.

(** Lines 360-366: one cell per operating currency; the position found is
    taken out of [positions].  [if position:] holds of every position
    found, and fails on the None of a lot that is not held. *)
Fixpoint currency_cells (balance_cost : Inventory) (currencies : list string)
    (positions : list Position) : exception + list cell * list Position :=
  match currencies with
  | [] => inr ([], positions)
  | currency :: rest =>
      match get_position balance_cost (mkLot currency None None) with
      | Some position =>
          match list_remove_first position positions with
          | None => inl ValueError
          | Some positions1 =>
              match currency_cells balance_cost rest positions1 with
              | inl exn => inl exn
              | inr (cells, positions2) => inr (NumCell (number position) :: cells, positions2)
              end
          end
      | None =>
          match currency_cells balance_cost rest positions with
          | inl exn => inl exn
          | inr (cells, positions2) => inr (BlankCell :: cells, positions2)
          end
      end
  end.

Section TableOfBalances.

(** [inventory.get_cost()] belongs to the inventory class, which is not part
    of the sources at hand, and the specification does not say how the cost
    basis is computed: it is a parameter. *)
Variable get_cost : Inventory -> Inventory.

(** Lines 346-369: the body of the loop of [table_of_balances] for one
    line. *)
Definition balance_cells (active_set : list string) (currencies : list string)
    (real_account : RealAccount) : exception + list cell * list string :=
  if bool_decide (ra_name real_account ∉ active_set)
     && negb (is_account_root (ra_name real_account))
  then inr ([], [])
  else
    let row_classes :=
      match ra_account real_account with None => ["parent-node"] | Some _ => [] end in
    let balance_cost := get_cost (ra_balance real_account) in
    match currency_cells balance_cost currencies (get_positions balance_cost) with
    | inl exn => inl exn
    | inr (cells, positions) => inr (cells ++ [RestCell positions], row_classes)
    end.

(** Lines 333-371.  The HTML text is not modelled: the result is the list of
    the rows written, in order. *)
Definition table_of_balances (tree : RealAccount) (start_node_name : string)
    (currencies : list string) : exception + list row :=
  let active_accounts := mark_from_leaves is_account_active tree in
  let active_set := ra_name <$> active_accounts in
  tree_table tree start_node_name (balance_cells active_set currencies).

End TableOfBalances.

(** The cell the specification gives an operating currency, and the
    positions that go to operating-currency cells. *)
Definition currency_cell (balance_cost : Inventory) (currency : string) : cell :=
  match get_position balance_cost (mkLot currency None None) with
  | Some position => NumCell (number position)
  | None => BlankCell
  end.

Definition matched_positions (balance_cost : Inventory) (currencies : list string)
    : list Position :=
  omap (fun currency => get_position balance_cost (mkLot currency None None)) currencies.

(** A node has activity of its own when one of its direct postings is not
    an Open directive; a node is active when it or one of its descendants
    has. *)
Definition has_activity (ra : RealAccount) : Prop :=
  exists it, it ∈ ra_postings ra /\ item_is_Open it = false.

Definition active (ra : RealAccount) : Prop :=
  exists d, d ∈ nodes ra /\ has_activity d.

(** A node is written as a row when its name is in the active set or is the
    name of a category root. *)
Definition rendered (active_set : list string) (ra : RealAccount) : Prop :=
  ra_name ra ∈ active_set \/ is_account_root (ra_name ra) = true.

#[global] Instance rendered_dec active_set ra : Decision (rendered active_set ra).
Proof. unfold rendered. apply _. Defined.

(** ** The view cache: [handle_view] and [app.views] *)

Section ViewCache.

(** The views, and the handler a route decorates with [handle_view]: the
    factory of the view.  It is applied to the request (its path
    components); what it returns or raises may also depend on what happened
    before, which is summed up by the number of invocations made so far. *)
Context {View : Type}.
Variable callback : nat -> list string -> exception + View.

(** The application object: the cache [app.views], and, as instrumentation,
    the log of the invocations of the factory, each with the key it was
    invoked for and whether it returned normally. *)
Record application := mkApp {
  views : gmap string View;
  invocations : list (string * bool)
}.

Definition initial_app : application := mkApp ∅ [].

(** Lines 181-182: [components] is [request.path.split('/')]. *)
Definition view_id (path_depth : nat) (components : list string) : string :=
  String.concat "/" (take (path_depth + 1) components).

(** Lines 183-188: the lookup, and on KeyError the construction and the
    store.  When the factory raises nothing is stored and the exception
    leaves the wrapper.  The redirect into the view application that
    follows is left out: the result is the view handed over to it. *)
Definition wrapper (path_depth : nat) (components : list string) (a : application)
    : application * (exception + View) :=
  let viewid := view_id path_depth components in
  match views a !! viewid with
  | Some view => (a, inr view)
  | None =>
      match callback (length (invocations a)) components with
      | inl exn => (mkApp (views a) (invocations a ++ [(viewid, false)]), inl exn)
      | inr view =>
          (mkApp (<[viewid := view]> (views a)) (invocations a ++ [(viewid, true)]),
           inr view)
      end
  end.

(** Requests served one after the other. *)
Fixpoint serve (path_depth : nat) (requests : list (list string)) (a : application)
    : application * list (exception + View) :=
  match requests with
  | [] => (a, [])
  | components :: rest =>
      let (a1, result) := wrapper path_depth components a in
      let (a2, results) := serve path_depth rest a1 in
      (a2, result :: results)
  end.

(** Requests served by threads that take turns.  A handler is in one of
    four stages: before the lookup, after a KeyError, after the factory has
    returned and before the store, and finished.  Nothing in the wrapper
    keeps another thread from running between two stages. *)
Inductive stage :=
| Started
| Missed
| Built (view : View)
| Finished (result : exception + View).

Definition thread_step (path_depth : nat) (components : list string)
    (a : application) (s : stage) : application * stage :=
  let viewid := view_id path_depth components in
  match s with
  | Started =>
      match views a !! viewid with
      | Some view => (a, Finished (inr view))
      | None => (a, Missed)
      end
  | Missed =>
      match callback (length (invocations a)) components with
      | inl exn => (mkApp (views a) (invocations a ++ [(viewid, false)]), Finished (inl exn))
      | inr view => (mkApp (views a) (invocations a ++ [(viewid, true)]), Built view)
      end
  | Built view => (mkApp (<[viewid := view]> (views a)) (invocations a), Finished (inr view))
  | Finished result => (a, Finished result)
  end.

(** A schedule names, turn by turn, the thread that runs its next stage. *)
Fixpoint interleave (path_depth : nat) (schedule : list nat)
    (a : application) (threads : list (list string * stage)) : application * list (list string * stage) :=
  match schedule with
  | [] => (a, threads)
  | i :: rest =>
      match threads !! i with
      | Some (components, s) =>
          let (a1, s1) := thread_step path_depth components a s in
          interleave path_depth rest a1 (<[i := (components, s1)]> threads)
      | None => interleave path_depth rest a threads
      end
  end.

(** How often the factory returned normally for a key. *)
Definition constructions (key : string) (a : application) : nat :=
  length (filter (fun c => c = (key, true)) (invocations a)).

End ViewCache.

(** Served one after the other from an empty cache, no key is constructed
    twice. *)
Definition cache_inv {View : Type} (a : @application View) : Prop :=
  forall key, constructions key a ≤ 1 /\ (views a !! key = None -> constructions key a = 0).


(** ** Identifiers: [compute_ids] *)

(** The character classes of the two regular expressions. *)
Definition is_alnum (c : ascii) : bool :=
  let n := N_of_ascii c in
  ((48 <=? n) && (n <=? 57) || (65 <=? n) && (n <=? 90) || (97 <=? n) && (n <=? 122))%N.

(** [A-Za-z0-9-.]: letters, digits, the hyphen and the dot. *)
Definition is_simple (c : ascii) : bool :=
  is_alnum c || bool_decide (c = "-"%char) || bool_decide (c = "."%char).

(** [re.sub('[^...]', replacement, string)] for a negated character class:
    every character outside the class [keep] gives way to [replacement]. *)
Fixpoint re_sub (keep : ascii -> bool) (replacement : string) (s : string) : string :=
  match s with
  | EmptyString => EmptyString
  | String c rest =>
      if keep c then String c (re_sub keep replacement rest)
      else String.append replacement (re_sub keep replacement rest)
  end.

Definition sub_simple : string -> string := re_sub is_simple "_".
Definition sub_strict : string -> string := re_sub is_alnum "".

(** Lines 1285-1286: the methods, in the order they are tried. *)
Definition methods : list (string -> string) := [sub_simple; sub_strict].

(** Lines 1289-1292: [idmap], a [defaultdict(list)], filled while walking
    the set in its iteration order. *)
Definition build_idmap (method : string -> string) (order : list string)
    : gmap string (list string) :=
  foldl (fun idmap s => <[method s := default [] (idmap !! method s) ++ [s]]> idmap)
        ∅ order.

(** Line 1295: [all(len(stringlist) == 1 for stringlist in idmap.values())]. *)
Definition no_collision (idmap : gmap string (list string)) : bool :=
  bool_decide (map_Forall (fun _ stringlist => length stringlist = 1) idmap).

(** The [for ... else]: the first method without a collision gives the map;
    when the list is used up, RuntimeError is raised. *)
Fixpoint try_methods (ms : list (string -> string)) (order : list string)
    : exception + gmap string (list string) :=
  match ms with
  | [] => inl RuntimeError
  | method :: rest =>
      let idmap := build_idmap method order in
      if no_collision idmap then inr idmap else try_methods rest order
  end.

(** The order of Python on strings and on pairs of strings: lexicographic,
    character by character, and component by component. *)
Definition string_le (s1 s2 : string) : Prop := String.leb s1 s2 = true.

Definition pair_le (p q : string * string) : Prop :=
  p.1 ≠ q.1 /\ string_le p.1 q.1 \/ p.1 = q.1 /\ string_le p.2 q.2.

#[global] Instance string_le_dec s1 s2 : Decision (string_le s1 s2).
Proof. unfold string_le. apply _. Defined.

#[global] Instance pair_le_dec p q : Decision (pair_le p q).
Proof. unfold pair_le. apply _. Defined.

(** Line 1300: [(id, stringlist[0]) for id, stringlist in idmap.items()]. *)
Definition id_pairs (idmap : gmap string (list string)) : list (string * string) :=
  omap (fun kv => pair kv.1 <$> head kv.2) (map_to_list idmap).

(** The function once [string_set] is built, walking the set in the
    iteration order [order]. *)
Definition compute_ids_over (order : list string) : exception + list (string * string) :=
  match try_methods methods order with
  | inl exn => inl exn
  | inr idmap => inr (merge_sort pair_le (id_pairs idmap))
  end.

(** Lines 1277-1300.  [set(strings)] is a finite set; Python does not fix
    the order in which a set is walked, here it is the order of
    [elements]. *)
Definition compute_ids (strings : list string) : exception + list (string * string) :=
  compute_ids_over (elements (list_to_set strings : gset string)).

(** [order] is a way to walk [set(strings)]: every string of the input
    once. *)
Definition iteration_order (strings order : list string) : Prop :=
  NoDup order /\ forall s, s ∈ order <-> s ∈ strings.

(** Two different strings of the input get the same id under a method. *)
Definition collides (method : string -> string) (strings : list string) : Prop :=
  exists s1 s2, s1 ∈ strings /\ s2 ∈ strings /\ s1 ≠ s2 /\ method s1 = method s2.

(** ** The tables of entries: [entries_table_with_balance], [entries_table] *)

(** [entry.__class__.__name__]. *)
Definition class_name (e : Entry) : string :=
  match e with
  | Open _ _ => "Open"
  | Close _ _ => "Close"
  | Pad _ _ => "Pad"
  | Check _ _ _ _ => "Check"
  | Txn _ => "Transaction"
  | Event _ => "Event"
  | Note _ _ => "Note"
  | Price _ => "Price"
  end.

(** What ends the rendering of a table: the TypeError of [posting in None],
    or the exception that ended the generator. *)
Inductive table_error :=
| TypeError
| Raised (exn : exception).

(** The Change cell of an entry row: [balance_html(change)], the checked
    position, or the empty string. *)
Inductive change_cell :=
| ChangeOf (change : option Inventory)
| PositionOf (position : Position)
| EmptyChange.

(** The rows written.  An entry row keeps the row type, the extra class, the
    flag, the entry (its date and what its description is made of) and, in
    the table with balance, the Change and Balance cells; a posting row keeps
    its classes and the leg.  The anchors and the HTML text are left out. *)
Inductive table_row :=
| EntryRow (rowtype extra_class : string) (flag : option ascii) (e : Entry)
           (columns : option (change_cell * Inventory))
| PostingRow (classes : list string) (t : Transaction) (leg : Leg).

(** The Balance cell of a row, if it has one. *)
Definition row_balance (r : table_row) : option Inventory :=
  match r with
  | EntryRow _ _ _ _ (Some (_, balance)) => Some balance
  | _ => None
  end.

(** The entry of an entry row. *)
Definition row_entry (r : table_row) : option Entry :=
  match r with
  | EntryRow _ _ _ e _ => Some e
  | PostingRow _ _ _ => None
  end.

(** The leg of a transaction as the [Posting] the transaction holds. *)
Definition leg_posting (t : Transaction) (leg : Leg) : Posting :=
  mkPosting t (leg_account leg) (leg_position leg) (leg_price leg) (leg_flag leg).

(** The flag characters are constants of [beancount2.data], which is not
    part of the sources at hand: they are parameters. *)
Record data_flags := mkFlags {
  FLAG_PADDING : ascii;
  FLAG_SUMMARIZE : ascii;
  FLAG_TRANSFER : ascii;
  FLAG_WARNING : ascii
}.

Section EntriesTable.

Variable data : data_flags.

(** Lines 592-596. *)
Definition FLAG_ROWTYPES : gmap ascii string :=
  <[FLAG_TRANSFER data := "Transfer"]>
    (<[FLAG_SUMMARIZE data := "Summarize"]> (<[FLAG_PADDING data := "Padding"]> ∅)).

(** Lines 630-657: the row type, the extra class, the flag and the Change
    cell of an entry row. *)
Definition rowtype (e : Entry) : string :=
  match e with
  | Txn t => default "Transaction" (FLAG_ROWTYPES !! txn_flag t)
  | Check _ _ _ success => if success then "Check" else "CheckFail"
  | _ => class_name e
  end.

Definition extra_class (e : Entry) : string :=
  match e with
  | Txn t => if decide (txn_flag t = FLAG_WARNING data) then "warning" else ""
  | _ => ""
  end.

Definition flag_cell (e : Entry) : option ascii :=
  match e with
  | Txn t => Some (txn_flag t)
  | _ => None
  end.

Definition change_str (e : Entry) (change : option Inventory) : change_cell :=
  match e with
  | Txn _ => ChangeOf change
  | Check _ _ position _ => PositionOf position
  | _ => EmptyChange
  end.

(** Lines 674-676: the classes every posting row has. *)
Definition posting_classes (leg : Leg) : list string :=
  "Posting" :: if decide (leg_flag leg = Some (FLAG_WARNING data)) then ["warning"] else [].

(** Lines 672-696: the rows of the legs of a transaction, in the table with
    balance.  [posting in leg_postings] raises TypeError when [leg_postings]
    is None. *)
Fixpoint posting_rows (leg_postings : option (list Posting)) (t : Transaction)
    (legs : list Leg) : list table_row * option table_error :=
  match legs with
  | [] => ([], None)
  | leg :: rest =>
      match leg_postings with
      | None => ([], Some TypeError)
      | Some postings =>
          let classes :=
            posting_classes leg
              ++ if decide (leg_posting t leg ∈ postings) then ["leg"] else [] in
          let (rows, err) := posting_rows leg_postings t rest in
          (PostingRow classes t leg :: rows, err)
      end
  end.

(** Lines 624-696: the body of the loop of [entries_table_with_balance] for
    one record. *)
Definition record_rows (render_postings : bool) (r : record)
    : list table_row * option table_error :=
  let e := rec_entry r in
  let entry_row :=
    EntryRow (rowtype e) (extra_class e) (flag_cell e) e
      (Some (change_str e (rec_change r), rec_balance r)) in
  match e with
  | Txn t =>
      if render_postings then
        let (rows, err) := posting_rows (rec_postings r) t (txn_postings t) in
        (entry_row :: rows, err)
      else ([entry_row], None)
  | _ => ([entry_row], None)
  end.

(** The loop over the records: the rows written, and the error that ended
    the loop, if any. *)
Fixpoint table_rows (render : record -> list table_row * option table_error)
    (records : list record) : list table_row * option table_error :=
  match records with
  | [] => ([], None)
  | r :: rest =>
      match render r with
      | (rows, Some err) => (rows, Some err)
      | (rows, None) =>
          let (rows', err) := table_rows render rest in (rows ++ rows', err)
      end
  end.

(** Lines 603-698.  The generator is consumed record by record: the rows of
    the records yielded are written before the exception that ends the
    generator, if any, leaves the function. *)
Definition entries_table_with_balance (account_postings : list Item)
    (render_postings : bool) : list table_row * option table_error :=
  let (records, exn) := iterate_with_balance account_postings in
  match table_rows (record_rows render_postings) records with
  | (rows, Some err) => (rows, Some err)
  | (rows, None) => (rows, Raised <$> exn)
  end.

(** Lines 721-784: the body of the loop of [entries_table] for one record.
    There is no Change or Balance cell, and [leg_postings] is not used. *)
Definition plain_record_rows (render_postings : bool) (r : record)
    : list table_row * option table_error :=
  let e := rec_entry r in
  let entry_row := EntryRow (rowtype e) (extra_class e) (flag_cell e) e None in
  match e with
  | Txn t =>
      if render_postings then
        (entry_row :: ((fun leg => PostingRow (posting_classes leg) t leg) <$> txn_postings t),
         None)
      else ([entry_row], None)
  | _ => ([entry_row], None)
  end.

(** Lines 701-786. *)
Definition entries_table (account_postings : list Item) (render_postings : bool)
    : list table_row * option table_error :=
  let (records, exn) := iterate_with_balance account_postings in
  match table_rows (plain_record_rows render_postings) records with
  | (rows, Some err) => (rows, Some err)
  | (rows, None) => (rows, Raised <$> exn)
  end.

End EntriesTable.

(** Modelled from the spec: [utils.filter_type] is not part of the sources at
    hand.  Tags, payees and conversions are read from Transaction entries
    only: the entries of the given type are kept, in order. *)
Definition filter_type_Transaction (entries : list Entry) : list Transaction :=
  omap (fun e => match e with Txn t => Some t | _ => None end) entries.

Section Conversions.

Variable data : data_flags.

(** [data.transaction_has_conversion] is not part of the sources at hand and
    the specification does not describe it: it is a parameter. *)
Variable transaction_has_conversion : Transaction -> bool.

(** Lines 817-821. *)
Definition get_conversion_entries (entries : list Entry) : list Entry :=
  Txn <$> filter (fun t => transaction_has_conversion t = true)
            (filter_type_Transaction entries).

(** Lines 830-832: the table of the conversions page.  The total and the
    page around the table are left out. *)
Definition conversions (entries : list Entry) : list table_row * option table_error :=
  entries_table data (IEntry <$> get_conversion_entries entries) true.

End Conversions.

(** A record can be written with its posting rows: a transaction with legs
    was yielded with a posting list. *)
Definition renderable (r : record) : Prop :=
  forall t, rec_entry r = Txn t -> txn_postings t ≠ [] -> is_Some (rec_postings r).

(** ** Strings: [str.split], [str.replace], [str.strip] for one character *)

(** [s.split(sep)]: the pieces of [s] between the occurrences of [sep]; there
    is always at least one piece. *)
Fixpoint str_split (sep : ascii) (s : string) : list string :=
  match s with
  | EmptyString => [EmptyString]
  | String c rest =>
      if decide (c = sep) then EmptyString :: str_split sep rest
      else match str_split sep rest with
           | component :: components => String c component :: components
           | [] => [String c EmptyString]
           end
  end.

(** [c in s]. *)
Fixpoint str_contains (c : ascii) (s : string) : bool :=
  match s with
  | EmptyString => false
  | String c' rest => bool_decide (c' = c) || str_contains c rest
  end.

(** [s.replace(old, new)] for single characters. *)
Fixpoint str_replace (old new : ascii) (s : string) : string :=
  match s with
  | EmptyString => EmptyString
  | String c rest => String (if decide (c = old) then new else c) (str_replace old new rest)
  end.

(** [s.lstrip(c)], [s.rstrip(c)] and [s.strip(c)] for a single character. *)
Fixpoint str_lstrip (c : ascii) (s : string) : string :=
  match s with
  | EmptyString => EmptyString
  | String c' rest => if decide (c' = c) then str_lstrip c rest else s
  end.

Fixpoint str_rstrip (c : ascii) (s : string) : string :=
  match s with
  | EmptyString => EmptyString
  | String c' rest =>
      match str_rstrip c rest with
      | EmptyString => if decide (c' = c) then EmptyString else String c' EmptyString
      | stripped => String c' stripped
      end
  end.

Definition str_strip (c : ascii) (s : string) : string := str_rstrip c (str_lstrip c s).


(** ** The key of a request *)

(** Lines 181-182 of [handle_view]: the key of the request whose path is
    [path]. *)
Definition request_view_id (path_depth : nat) (path : string) : string :=
  view_id path_depth (str_split "/" path).

(** ** Links to accounts: [account_link] and the [account] page *)

(** The two [bottle.Bottle()] applications of the module, [app] and
    [viewapp]; [request.app] is one of them. *)
Inductive bottle := App | ViewApp.

#[global] Instance bottle_eq_dec : EqDecision bottle.
Proof. solve_decision. Defined.

#[global] Instance bottle_countable : Countable bottle.
Proof.
  refine (inj_countable' (fun b => match b with App => true | ViewApp => false end)
                         (fun b : bool => if b then App else ViewApp) _).
  by intros [].
Defined.

(** The keys of [_account_link_cache]: the lookup uses the tuple
    [(request.app, account_name)], the store the string [account_name]. *)
Inductive cache_key :=
| AppAndName (request_app : bottle) (account_name : string)
| NameOnly (account_name : string).

#[global] Instance cache_key_eq_dec : EqDecision cache_key.
Proof. solve_decision. Defined.

#[global] Instance cache_key_countable : Countable cache_key.
Proof.
  refine (inj_countable'
            (fun k => match k with
                      | AppAndName a n => inl (a, n)
                      | NameOnly n => inr n
                      end)
            (fun s => match s with
                      | inl (a, n) => AppAndName a n
                      | inr n => NameOnly n
                      end) _).
  by intros [].
Defined.

(** An anchor: the address it points to and the text shown. *)
Record anchor := mkAnchor { href : string; anchor_text : string }.

(** The module-level cache, and, as instrumentation, the log of the slashed
    names a URL was built for. *)
Record link_state := mkLinks {
  _account_link_cache : gmap cache_key anchor;
  urls_built : list string
}.

Definition no_links : link_state := mkLinks ∅ [].

Section AccountLink.

(** [request.app.get_url('account', slashed_account_name=...)] belongs to
    Bottle and [account_leaf_name] to [beancount2.data]; neither is part of
    the sources at hand and the specification does not describe them: they
    are parameters.  Building the URL may raise. *)
Variable get_url : bottle -> string -> exception + string.
Variable account_leaf_name : string -> string.

(** Lines 248-264, for an account given by its name. *)
Definition account_link (request_app : bottle) (account_name : string) (leafonly : bool)
    (st : link_state) : link_state * (exception + anchor) :=
  match _account_link_cache st !! AppAndName request_app account_name with
  | Some link => (st, inr link)
  | None =>
      let slashed_name := str_replace ":" "/" account_name in
      let account_name := if leafonly then account_leaf_name account_name else account_name in
      let st1 := mkLinks (_account_link_cache st) (urls_built st ++ [slashed_name]) in
      match get_url request_app slashed_name with
      | inl exn => (st1, inl exn)
      | inr url =>
          let link := mkAnchor url account_name in
          (mkLinks (<[NameOnly account_name := link]> (_account_link_cache st1))
             (urls_built st1),
           inr link)
      end
  end.

(** What lines 255-262 compute on a miss: the link built anew. *)
Definition built_link (request_app : bottle) (account_name : string) (leafonly : bool)
    : exception + anchor :=
  match get_url request_app (str_replace ":" "/" account_name) with
  | inl exn => inl exn
  | inr url =>
      inr (mkAnchor url (if leafonly then account_leaf_name account_name else account_name))
  end.

(** Links rendered one after the other. *)
Fixpoint account_links (calls : list (bottle * string * bool)) (st : link_state)
    : link_state * list (exception + anchor) :=
  match calls with
  | [] => (st, [])
  | (request_app, account_name, leafonly) :: rest =>
      let (st1, link) := account_link request_app account_name leafonly st in
      let (st2, links) := account_links rest st1 in
      (st2, link :: links)
  end.

End AccountLink.

(** Line 801 of [account]: the account name of the requested page. *)
Definition page_account_name (slashed_account_name : string) : string :=
  str_replace "/" ":" (str_strip "/" slashed_account_name).

(** The cache holds no key the lookup could find. *)
Definition only_names (st : link_state) : Prop :=
  forall request_app account_name,
    _account_link_cache st !! AppAndName request_app account_name = None.

(** ** Views: [View], [AllView], [YearView], [TagView], [PayeeView] *)

(** The subclasses of [View], each with what its constructor keeps: the
    year, the tags, the payee. *)
Inductive view_class :=
| AllView
| YearView (year : Z)
| TagView (tags : gset string)
| PayeeView (payee : string).

(** The conditions of the two comprehensions, lines 1084 and 1110.  The
    intersection [entry.tags & tags] is true when it is not empty. *)
Definition is_tagged (tags : gset string) (e : Entry) : Prop :=
  match e with
  | Txn t => Exists (fun tag => tag ∈ tags) (txn_tags t)
  | _ => False
  end.

Definition has_payee (payee : string) (e : Entry) : Prop :=
  match e with
  | Txn t => txn_payee t = Some payee
  | _ => False
  end.

#[global] Instance is_tagged_dec tags e : Decision (is_tagged tags e).
Proof. destruct e; cbn; apply _. Defined.

#[global] Instance has_payee_dec payee e : Decision (has_payee payee e).
Proof. destruct e; cbn; apply _. Defined.

(** The attributes of a [View] once [_realize] has run. *)
Record View := mkView {
  view_all_entries : list Entry;
  view_entries : list Entry;
  view_begin_index : option nat;
  view_opening_entries : option (list Entry);
  view_closing_entries : list Entry;
  view_real_accounts : RealAccount;
  view_opening_real_accounts : option RealAccount;
  view_closing_real_accounts : RealAccount
}.

(** The options read by the pages of a view.  In the source [options] is a
    dict filled by the parser. *)
Record Options := mkOptions {
  operating_currency : list string;
  name_assets : string;
  name_liabilities : string;
  name_equity : string;
  name_income : string;
  name_expenses : string
}.

(** The contents of the page of the opening balances: the text N/A, or the
    three tables of a balance sheet. *)
Inductive sheet :=
| NotAvailable
| BalanceSheet (assets liabilities equity : list row).

Section Views.

(** Modelled from the spec: [realization.realize], [summarize.clamp] and
    [summarize.transfer] are not part of the sources at hand.  They are the
    external collaborators [realize(entries, ...)], which builds the account
    tree or fails with a structural error,
    [clamp(entries, begin_date, end_date, ...)], which returns the clamped
    entries and the boundary index, and [transfer(entries, ...)], which
    returns the entries with the transfer appended: they are parameters. *)
Variable realize : list Entry -> exception + RealAccount.
Variable clamp : list Entry -> date -> date -> list Entry * option nat.
Variable transfer : list Entry -> list Entry.
Variable get_cost : Inventory -> Inventory.

(** [apply_filter] of the four subclasses: lines 1020-1022, 1037-1059,
    1078-1086 and 1104-1112. *)
Definition apply_filter (self : view_class) (entries : list Entry)
    : list Entry * option nat :=
  match self with
  | AllView => (entries, None)
  | YearView year => clamp entries (Date year 1 1) (Date (year + 1) 1 1)
  | TagView tags => (filter (is_tagged tags) entries, None)
  | PayeeView payee => (filter (has_payee payee) entries, None)
  end.

(** Lines 971-1010: [_realize], called by the constructor.  The opening
    entries are realized only when there are some: [if self.opening_entries]
    fails on None and on the empty list. *)
Definition View_realize (self : view_class) (all_entries : list Entry)
    : exception + View :=
  let (entries, begin_index) := apply_filter self all_entries in
  let opening_entries := (fun index => take index entries) <$> begin_index in
  let closing_entries := transfer entries in
  let opening :=
    match opening_entries with
    | Some ((_ :: _) as opening_entries) =>
        match realize opening_entries with
        | inl exn => inl exn
        | inr real_accounts => inr (Some real_accounts)
        end
    | _ => inr None
    end in
  match opening with
  | inl exn => inl exn
  | inr opening_real_accounts =>
      match realize entries with
      | inl exn => inl exn
      | inr real_accounts =>
          match realize closing_entries with
          | inl exn => inl exn
          | inr closing_real_accounts =>
              inr (mkView all_entries entries begin_index opening_entries closing_entries
                     real_accounts opening_real_accounts closing_real_accounts)
          end
      end
  end.

(** Lines 400-426: the three tables of a balance sheet. *)
Definition balance_sheet_table (real_accounts : RealAccount) (options : Options)
    : exception + sheet :=
  match table_of_balances get_cost real_accounts (name_assets options)
          (operating_currency options) with
  | inl exn => inl exn
  | inr assets =>
      match table_of_balances get_cost real_accounts (name_liabilities options)
              (operating_currency options) with
      | inl exn => inl exn
      | inr liabilities =>
          match table_of_balances get_cost real_accounts (name_equity options)
                  (operating_currency options) with
          | inl exn => inl exn
          | inr equity => inr (BalanceSheet assets liabilities equity)
          end
      end
  end.

(** Lines 441-453: the contents of the page of the opening balances. *)
Definition openbal (view : View) (options : Options) : exception + sheet :=
  match view_opening_real_accounts view with
  | None => inr NotAvailable
  | Some real_accounts => balance_sheet_table real_accounts options
  end.

End Views.

(** Lines 1260-1265. *)
Definition get_all_tags (entries : list Entry) : gset string :=
  foldl (fun all_tags t => all_tags ∪ list_to_set (txn_tags t)) ∅
    (filter_type_Transaction entries).

(** Lines 1268-1274.  The payee of a transaction may be None; it is taken
    out of the set at the end. *)
Definition get_all_payees (entries : list Entry) : gset (option string) :=
  foldl (fun all_payees t => all_payees ∪ {[txn_payee t]}) ∅
    (filter_type_Transaction entries) ∖ {[None]}.

(** ** The characters of the identifiers *)

(** Every character of [s] satisfies [keep]. *)
Fixpoint str_all (keep : ascii -> bool) (s : string) : bool :=
  match s with
  | EmptyString => true
  | String c rest => keep c && str_all keep rest
  end.

(** The characters an id is made of: letters, digits, the hyphen, the dot
    and the underscore that stands for any other character. *)
Definition is_id_char (c : ascii) : bool := is_simple c || bool_decide (c = "_"%char).

(** ** A small ledger, used to run the definitions *)

Definition USD : Lot := mkLot "USD" None None.
Definition CAD : Lot := mkLot "CAD" None None.
Definition jan1 : date := Date 2020 1 1.
Definition jan5 : date := Date 2020 1 5.

Definition salary : Transaction :=
  mkTransaction jan5 "*" None "salary" []
    [mkLeg "Assets:Bank" (mkPosition USD 100) None None;
     mkLeg "Assets:Bank" (mkPosition CAD 20) None None;
     mkLeg "Income:Salary" (mkPosition USD (-100)) None None].

Definition groceries : Transaction :=
  mkTransaction jan5 "*" (Some "Grocer") "food" []
    [mkLeg "Assets:Bank" (mkPosition USD (-30)) None None;
     mkLeg "Expenses:Food" (mkPosition USD 30) None None].

Definition salary_usd : Posting := mkPosting salary "Assets:Bank" (mkPosition USD 100) None None.
Definition salary_cad : Posting := mkPosting salary "Assets:Bank" (mkPosition CAD 20) None None.
Definition groceries_usd : Posting :=
  mkPosting groceries "Assets:Bank" (mkPosition USD (-30)) None None.

(** The postings of the account Assets:Bank, as a journal page walks them. *)
Definition bank_journal : list Item :=
  [IEntry (Open jan1 "Assets:Bank"); IPosting salary_usd; IPosting salary_cad;
   IPosting groceries_usd].

(** The same postings with those of the salary split by the groceries. *)
Definition bank_journal_split : list Item :=
  [IEntry (Open jan1 "Assets:Bank"); IPosting salary_usd; IPosting groceries_usd;
   IPosting salary_cad].

(** A list of transactions, as the conversions page walks them. *)
Definition direct_listing : list Item :=
  [IEntry (Txn groceries); IEntry (Txn salary)].

Definition bank_account : RealAccount :=
  mkRealAccount "Assets:Bank" (Some "Assets:Bank") (<[USD := 70%Z]> (<[CAD := 20%Z]> ∅))
    bank_journal [].

Definition cash_account : RealAccount :=
  mkRealAccount "Assets:Cash" (Some "Assets:Cash") ∅ [IEntry (Open jan1 "Assets:Cash")] [].

Definition assets_account : RealAccount :=
  mkRealAccount "Assets" None (<[USD := 70%Z]> (<[CAD := 20%Z]> ∅)) []
    [bank_account; cash_account].

Definition equity_account : RealAccount := mkRealAccount "Equity" None ∅ [] [].

Definition ledger_tree : RealAccount :=
  mkRealAccount "" None (<[USD := 70%Z]> (<[CAD := 20%Z]> ∅)) []
    [assets_account; equity_account].

Definition bank_row : row :=
  mkRow bank_account [] [NumCell 70; RestCell [mkPosition CAD 20]].

(** The rows of the table of the Assets subtree with USD as the only
    operating currency. *)
Definition assets_rows : list row :=
  [mkRow assets_account ["parent-node"] [NumCell 70; RestCell [mkPosition CAD 20]];
   bank_row].

(** The path [/view/all/trial], split at the slashes. *)
Definition trial_request : list string := [""; "view"; "all"; "trial"].

(** A factory that builds a new view at every invocation, and one whose
    first invocation raises. *)
Definition fresh_view (n : nat) (components : list string) : exception + nat := inr n.

Definition flaky_view (n : nat) (components : list string) : exception + nat :=
  match n with 0 => inl ViewError | S _ => inr n end.

(** The flag characters of the examples, a ledger of three entries, and the
    view of all its entries when every realization gives the tree above. *)
Definition example_flags : data_flags := mkFlags "P" "S" "T" "!".

Definition small_ledger : list Entry :=
  [Open jan1 "Assets:Bank"; Txn salary; Txn groceries].

Definition realize_ledger (entries : list Entry) : exception + RealAccount :=
  inr ledger_tree.

Definition clamp_nothing (entries : list Entry) (begin_date end_date : date)
    : list Entry * option nat :=
  (entries, Some 0).

Definition all_view : View :=
  mkView small_ledger small_ledger None None small_ledger ledger_tree None ledger_tree.

(** The record of the salary in the journal of the bank account. *)
Definition salary_record : record :=
  mkRecord (Txn salary) (Some [salary_usd; salary_cad])
    (Some (sum_positions [mkPosition USD 100; mkPosition CAD 20]))
    (sum_positions [mkPosition USD 100; mkPosition CAD 20]).

(* ====================================================================== *)
(** * Properties *)
(* ====================================================================== *)

(** ** Inventory addition *)

Lemma add_position_comm p q (inv : Inventory) :
  add_position p (add_position q inv) = add_position q (add_position p inv).
Proof.
  unfold add_position. apply map_eq. intros k.
  destruct (decide (lot p = lot q)) as [Heq|Hne].
  - rewrite Heq, !lookup_insert_eq. cbn.
    destruct (decide (k = lot q)) as [->|Hk].
    + rewrite !lookup_insert_eq. f_equal. lia.
    + rewrite !lookup_insert_ne by done. done.
  - rewrite (lookup_insert_ne _ (lot q) (lot p)) by done.
    rewrite (lookup_insert_ne _ (lot p) (lot q)) by done.
    destruct (decide (k = lot p)) as [->|Hk1].
    + rewrite lookup_insert_eq, lookup_insert_ne, lookup_insert_eq by done. done.
    + rewrite (lookup_insert_ne _ (lot p) k) by done.
      destruct (decide (k = lot q)) as [->|Hk2].
      * rewrite !lookup_insert_eq. done.
      * rewrite !lookup_insert_ne by done. done.
Qed.

Lemma add_positions_app ps qs (inv : Inventory) :
  add_positions (ps ++ qs) inv = add_positions qs (add_positions ps inv).
Proof. unfold add_positions. apply foldl_app. Qed.

Lemma add_positions_perm ps qs :
  ps ≡ₚ qs -> forall inv : Inventory, add_positions ps inv = add_positions qs inv.
Proof.
  induction 1 as [|x l l' _ IH|x y l|l l' l'' _ IH1 _ IH2]; intros inv; cbn.
  - done.
  - apply IH.
  - by rewrite add_position_comm.
  - by rewrite IH1, IH2.
Qed.

(** ** Flushing a date bucket *)

Lemma flush_one_balance dp (b : Inventory) :
  (flush_one dp b).2 = add_positions (position <$> default [] dp) b.
Proof. by destruct dp as [[|]|]. Qed.

Lemma flush_one_None (b : Inventory) : flush_one None b = (None, b).
Proof. done. Qed.

Lemma flush_one_cons p ps (b : Inventory) :
  flush_one (Some (p :: ps)) b =
    (Some (sum_positions (position <$> p :: ps)),
     add_positions (position <$> p :: ps) b).
Proof. done. Qed.

Lemma flush_cons b e dp rest :
  flush b ((e, dp) :: rest) =
    (mkRecord e dp (flush_one dp b).1 (flush_one dp b).2
       :: (flush (flush_one dp b).2 rest).1,
     (flush (flush_one dp b).2 rest).2).
Proof.
  cbn [flush]. destruct (flush_one dp b) as [c b1]. cbn.
  by destruct (flush b1 rest).
Qed.

Lemma flush_pairs b des : rec_pair <$> (flush b des).1 = des.
Proof.
  revert b. induction des as [|[e dp] rest IH]; intros b; [done|].
  rewrite flush_cons. cbn. by rewrite IH.
Qed.

Lemma flush_balance b des :
  (flush b des).2 = add_positions (buffer_positions des) b.
Proof.
  revert b. induction des as [|[e dp] rest IH]; intros b; [done|].
  rewrite flush_cons. cbn [snd]. rewrite IH, flush_one_balance.
  unfold buffer_positions. by rewrite bind_cons, add_positions_app.
Qed.

(** ** Records follow one another: each record's change and balance are
    those of [flush_one] at the balance of the record before it. *)

Lemma last_balance_app b l1 l2 :
  last_balance b (l1 ++ l2) = last_balance (last_balance b l1) l2.
Proof.
  unfold last_balance. destruct l2 as [|r l2] using rev_ind.
  - by rewrite app_nil_r.
  - by rewrite app_assoc, !last_snoc.
Qed.

Lemma last_balance_cons b r l :
  last_balance b (r :: l) = last_balance (rec_balance r) l.
Proof.
  unfold last_balance. destruct l as [|r' l]; [done|]. rewrite last_cons_cons.
  destruct (last (r' :: l)) eqn:E; [done|]. by apply last_None in E.
Qed.

Lemma chained_app b l1 l2 :
  chained b (l1 ++ l2) <-> chained b l1 /\ chained (last_balance b l1) l2.
Proof.
  revert b. induction l1 as [|r l1 IH]; intros b.
  - unfold last_balance. cbn. tauto.
  - rewrite last_balance_cons. cbn [app chained]. rewrite IH. tauto.
Qed.

Lemma flush_chained b des :
  chained b (flush b des).1 /\ last_balance b (flush b des).1 = (flush b des).2.
Proof.
  revert b. induction des as [|[e dp] rest IH]; intros b; [done|].
  rewrite flush_cons. cbn [fst snd chained rec_change rec_postings rec_balance].
  destruct (IH (flush_one dp b).2) as [IH1 IH2]. split; [done|].
  by rewrite last_balance_cons.
Qed.

Lemma chained_lookup b records i r :
  chained b records -> records !! i = Some r ->
  rec_change r = (flush_one (rec_postings r) (last_balance b (take i records))).1 /\
  rec_balance r = (flush_one (rec_postings r) (last_balance b (take i records))).2.
Proof.
  intros Hc Hi. rewrite <- (take_drop_middle records i r Hi) in Hc.
  apply chained_app in Hc as [_ Hc]. cbn in Hc. tauto.
Qed.

(** ** Buffering an item *)

Lemma index_key_None {A B} `{EqDecision B} (l : list A) (v : B) (key : A -> B) :
  index_key l v key = None <-> v ∉ key <$> l.
Proof.
  induction l as [|x l IH]; cbn.
  - split; [intros _; apply not_elem_of_nil | done].
  - rewrite not_elem_of_cons. destruct (decide (key x = v)) as [Hx|Hx].
    + split; [done | intros [? _]; congruence].
    + rewrite fmap_None, IH. split; [intros ?; split; congruence | tauto].
Qed.

Lemma index_key_Some {A B} `{EqDecision B} (l : list A) (v : B) (key : A -> B) i :
  index_key l v key = Some i ->
  exists pre x post,
    l = pre ++ x :: post /\ length pre = i /\ key x = v /\ v ∉ key <$> pre.
Proof.
  revert i. induction l as [|x l IH]; intros i; cbn; [done|].
  destruct (decide (key x = v)) as [Hx|Hx].
  - intros [= <-]. exists [], x, l. repeat split; [done | apply not_elem_of_nil].
  - intros Hi. apply fmap_Some in Hi as (j & Hj & ->).
    destruct (IH j Hj) as (pre & y & post & -> & <- & Hy & Hpre).
    exists (x :: pre), y, post. repeat split; [done|].
    cbn. rewrite not_elem_of_cons. split; [congruence | done].
Qed.

Lemma buffer_item_spec des e posting des' :
  buffer_item des e posting = inr des' -> buffered des e posting des'.
Proof.
  unfold buffer_item. destruct posting as [p|]; [|intros [= <-]; constructor].
  destruct (index_key des e fst) as [i|] eqn:Hi.
  - apply index_key_Some in Hi as (pre & [e' dp] & post & -> & <- & He & Hpre).
    cbn in He. subst e'. rewrite list_lookup_middle by done.
    destruct dp as [l|]; [|done]. intros [= <-].
    rewrite insert_app_r_alt, Nat.sub_diag by done. cbn.
    by eapply buffered_more.
  - apply index_key_None in Hi. intros [= <-]. by constructor.
Qed.

Lemma buffer_item_raises des e posting exn :
  buffer_item des e posting = inl exn ->
  exists p pre post,
    posting = Some p /\ des = pre ++ (e, None) :: post /\ e ∉ pre.*1.
Proof.
  unfold buffer_item. destruct posting as [p|]; [|done].
  destruct (index_key des e fst) as [i|] eqn:Hi; [|done].
  apply index_key_Some in Hi as (pre & [e' dp] & post & -> & <- & He & Hpre).
  cbn in He. subst e'. rewrite list_lookup_middle by done.
  destruct dp as [l|]; [done|]. intros _. by exists p, pre, post.
Qed.

(** ** One turn of the loop, and runs *)

Lemma step_spec st it records st' :
  step st it = (records, inr st') ->
  exists des,
    (rec_pair <$> records) ++ des = date_entries st /\
    buffered des (resolve it).1 (resolve it).2 (date_entries st') /\
    prev_date st' = Some (entry_date (resolve it).1) /\
    chained (balance st) records /\
    balance st' = last_balance (balance st) records /\
    (Some (entry_date (resolve it).1) = prev_date st ->
       records = [] /\ des = date_entries st) /\
    (Some (entry_date (resolve it).1) ≠ prev_date st ->
       records = (flush (balance st) (date_entries st)).1 /\ des = []).
Proof.
  unfold step, flush_on_date_change. destruct (resolve it) as [e posting]. cbn [fst snd].
  destruct (decide (Some (entry_date e) = prev_date st)) as [Hd|Hd].
  - destruct (buffer_item (date_entries st) e posting) as [|des'] eqn:Hb; [done|].
    intros [= <- <-]. exists (date_entries st). cbn.
    repeat split; try done. by apply buffer_item_spec.
  - destruct (flush (balance st) (date_entries st)) as [recs b1] eqn:Hf. cbn.
    destruct (buffer_item [] e posting) as [|des'] eqn:Hb; [done|].
    intros [= <- <-]. exists []. cbn.
    pose proof (flush_pairs (balance st) (date_entries st)) as Hp.
    pose proof (flush_chained (balance st) (date_entries st)) as [Hc Hl].
    rewrite Hf in Hp, Hc, Hl. cbn in Hp, Hc, Hl.
    repeat split; try done.
    + by rewrite app_nil_r.
    + by apply buffer_item_spec.
Qed.

Lemma run_app st xs ys :
  run st (xs ++ ys) =
    match run st xs with
    | (records, inl exn) => (records, inl exn)
    | (records, inr st1) =>
        let (records', r) := run st1 ys in (records ++ records', r)
    end.
Proof.
  revert st. induction xs as [|x xs IH]; intros st; cbn.
  - by destruct (run st ys).
  - destruct (step st x) as [r1 [exn|st1]]; [done|].
    rewrite IH. destruct (run st1 xs) as [r2 [exn|st2]]; [done|].
    destruct (run st2 ys) as [r3 res]. by rewrite app_assoc.
Qed.

Lemma run_cons_inr st it rest records st' :
  run st (it :: rest) = (records, inr st') ->
  exists r1 st1 r2,
    step st it = (r1, inr st1) /\ run st1 rest = (r2, inr st') /\
    records = r1 ++ r2.
Proof.
  cbn. destruct (step st it) as [r1 [exn|st1]]; [done|].
  destruct (run st1 rest) as [r2 res] eqn:Hr. intros [= <- ->]. by exists r1, st1, r2.
Qed.

Lemma run_chained st entries records res :
  run st entries = (records, res) ->
  chained (balance st) records /\
  match res with
  | inr st' => balance st' = last_balance (balance st) records
  | inl _ => True
  end.
Proof.
  revert st records res. induction entries as [|it rest IH]; intros st records res; cbn.
  - by intros [= <- <-].
  - destruct (step st it) as [r1 [exn|st1]] eqn:Hs.
    + intros [= <- <-]. split; [|done].
      unfold step in Hs. destruct (resolve it) as [e posting].
      unfold flush_on_date_change in Hs.
      destruct (decide (Some (entry_date e) = prev_date st)).
      * destruct (buffer_item _ _ _); by inversion Hs.
      * pose proof (flush_chained (balance st) (date_entries st)) as [Hc _].
        destruct (flush (balance st) (date_entries st)) as [recs b1].
        cbn in Hs. destruct (buffer_item _ _ _); by inversion Hs; subst.
    + apply step_spec in Hs as (des & _ & _ & _ & Hc & Hb & _).
      destruct (run st1 rest) as [r2 res2] eqn:Hr. intros [= <- <-].
      destruct (IH _ _ _ Hr) as [Hc2 Hres]. rewrite Hb in Hc2. split.
      * apply chained_app. done.
      * destruct res2; [done|]. by rewrite last_balance_app, <- Hb.
Qed.

Lemma iterate_chained entries :
  chained Inventory_new (iterate_with_balance entries).1.
Proof.
  unfold iterate_with_balance.
  destruct (run initial_state entries) as [records [exn|st]] eqn:Hr;
    apply run_chained in Hr as [Hc Hb]; [done|]. cbn.
  apply chained_app. split; [done|]. cbn in Hb. rewrite <- Hb.
  apply flush_chained.
Qed.

(** ** Balance accumulation *)

Lemma buffer_positions_app des1 des2 :
  buffer_positions (des1 ++ des2) = buffer_positions des1 ++ buffer_positions des2.
Proof. unfold buffer_positions. apply bind_app. Qed.

Lemma item_positions_resolve it :
  item_positions [it] = position <$> option_list (resolve it).2.
Proof. by destruct it. Qed.

Lemma buffered_positions des e posting des' :
  buffered des e posting des' ->
  buffer_positions des' ≡ₚ buffer_positions des ++ (position <$> option_list posting).
Proof.
  destruct 1 as [|p Hp|p pre l post -> Hpre];
    rewrite ?buffer_positions_app; unfold buffer_positions;
    rewrite ?bind_cons; cbn; rewrite ?fmap_app; cbn.
  - done.
  - done.
  - rewrite <- !app_assoc. cbn. apply Permutation_app_head, Permutation_app_head.
    apply Permutation_cons_append.
Qed.

Lemma step_positions st it records st' :
  step st it = (records, inr st') ->
  buffer_positions ((rec_pair <$> records) ++ date_entries st')
    ≡ₚ buffer_positions (date_entries st) ++ item_positions [it].
Proof.
  intros Hs. apply step_spec in Hs as (des & <- & Hb & _).
  apply buffered_positions in Hb.
  rewrite !buffer_positions_app, Hb, item_positions_resolve.
  by rewrite app_assoc.
Qed.

Lemma run_positions st entries records st' :
  run st entries = (records, inr st') ->
  buffer_positions ((rec_pair <$> records) ++ date_entries st')
    ≡ₚ buffer_positions (date_entries st) ++ item_positions entries.
Proof.
  revert st records. induction entries as [|it rest IH]; intros st records.
  - intros [= <- <-]. cbn. by rewrite app_nil_r.
  - intros Hr. apply run_cons_inr in Hr as (r1 & st1 & r2 & Hs & Hr & ->).
    apply step_positions in Hs. apply IH in Hr.
    rewrite fmap_app, <- app_assoc, buffer_positions_app, Hr.
    rewrite app_assoc, <- buffer_positions_app, Hs.
    change (it :: rest) with ([it] ++ rest).
    unfold item_positions at 3. rewrite omap_app. by rewrite <- app_assoc.
Qed.

Lemma chained_last_balance b records :
  chained b records ->
  last_balance b records = add_positions (emitted_positions records) b.
Proof.
  revert b. induction records as [|r rest IH]; intros b; [done|].
  intros (_ & Hb & Hc). rewrite last_balance_cons, (IH _ Hc), Hb.
  rewrite flush_one_balance. unfold emitted_positions, buffer_positions.
  rewrite fmap_cons, bind_cons. by rewrite add_positions_app.
Qed.

Lemma iterate_completes_inv entries records :
  iterate_with_balance entries = (records, None) ->
  exists r1 st,
    run initial_state entries = (r1, inr st) /\
    records = r1 ++ (flush (balance st) (date_entries st)).1.
Proof.
  unfold iterate_with_balance.
  destruct (run initial_state entries) as [r1 [exn|st]]; [done|].
  intros [= <-]. by exists r1, st.
Qed.

Lemma item_positions_perm entries entries' :
  entries' ≡ₚ entries -> item_positions entries' ≡ₚ item_positions entries.
Proof. intros H. unfold item_positions. by rewrite H. Qed.

(** C1 (balance accumulation).  When the generator has been consumed to its
    end, the content of the running balance, which is also the balance of the
    last record yielded, is the sum of the positions of all the standalone
    postings of the input, merged by lot.  The records carry exactly these
    positions, regrouped; neither the regrouping nor any reordering of the
    input changes the total. *)
Theorem balance_accumulation entries records :
  iterate_with_balance entries = (records, None) ->
  balance_after entries = sum_positions (item_positions entries) /\
  (forall r, last records = Some r ->
     rec_balance r = sum_positions (item_positions entries)) /\
  emitted_positions records ≡ₚ item_positions entries /\
  sum_positions (emitted_positions records) = sum_positions (item_positions entries) /\
  (forall entries', entries' ≡ₚ entries ->
     sum_positions (item_positions entries') = sum_positions (item_positions entries)).
Proof.
  intros Hit. pose proof (iterate_chained entries) as Hc. rewrite Hit in Hc. cbn in Hc.
  destruct (iterate_completes_inv _ _ Hit) as (r1 & st & Hr & ->).
  assert (Hperm : emitted_positions (r1 ++ (flush (balance st) (date_entries st)).1)
                    ≡ₚ item_positions entries).
  { unfold emitted_positions. rewrite fmap_app, flush_pairs.
    by rewrite (run_positions _ _ _ _ Hr). }
  assert (Hlast : last_balance Inventory_new (r1 ++ (flush (balance st) (date_entries st)).1)
                    = sum_positions (item_positions entries)).
  { rewrite (chained_last_balance _ _ Hc). by apply add_positions_perm. }
  repeat split.
  - unfold balance_after. rewrite Hr, <- Hlast, last_balance_app.
    apply run_chained in Hr as [_ Hb]. cbn in Hb. rewrite <- Hb.
    symmetry. apply flush_chained.
  - intros r Hr'. rewrite <- Hlast. unfold last_balance. by rewrite Hr'.
  - done.
  - by apply add_positions_perm.
  - intros entries' Hp. by apply add_positions_perm, item_positions_perm.
Qed.

(** ** Records without postings *)

Lemma step_records st it :
  (step st it).1 =
    if decide (Some (entry_date (resolve it).1) = prev_date st) then []
    else (flush (balance st) (date_entries st)).1.
Proof.
  unfold step, flush_on_date_change. destruct (resolve it) as [e posting]. cbn [fst].
  destruct (decide (Some (entry_date e) = prev_date st)).
  - by destruct (buffer_item _ _ _).
  - destruct (flush (balance st) (date_entries st)) as [recs b1].
    by destruct (buffer_item _ _ _).
Qed.

Lemma buffered_ok it des des' :
  buffered des (resolve it).1 (resolve it).2 des' ->
  Forall pair_ok des -> Forall pair_ok des'.
Proof.
  intros Hb Hok. destruct it as [e|p]; cbn in Hb; inversion Hb; subst.
  - apply Forall_app. split; [done|]. apply Forall_singleton. by intros [? [=]].
  - apply Forall_app. split; [done|]. by apply Forall_singleton.
  - apply Forall_app in Hok as [Hpre Hpost]. apply Forall_app. split; [done|].
    apply Forall_cons in Hpost as [_ Hpost]. by apply Forall_cons.
Qed.

Lemma step_ok st it :
  Forall pair_ok (date_entries st) ->
  Forall pair_ok (rec_pair <$> (step st it).1) /\
  forall st', (step st it).2 = inr st' -> Forall pair_ok (date_entries st').
Proof.
  intros Hok. split.
  - rewrite step_records. case_decide; [by apply Forall_nil|].
    by rewrite flush_pairs.
  - intros st' Hs. destruct (step st it) as [recs res] eqn:Hstep. cbn in Hs. subst res.
    apply step_spec in Hstep as (des & Hdes & Hb & _).
    apply (buffered_ok _ _ _ Hb). rewrite <- Hdes in Hok.
    by apply Forall_app in Hok as [_ ?].
Qed.

Lemma run_ok st entries :
  Forall pair_ok (date_entries st) ->
  Forall pair_ok (rec_pair <$> (run st entries).1) /\
  forall st', (run st entries).2 = inr st' -> Forall pair_ok (date_entries st').
Proof.
  revert st. induction entries as [|it rest IH]; intros st Hok; cbn.
  - split; [by apply Forall_nil | by intros st' [= <-]].
  - destruct (step_ok st it Hok) as [H1 H2].
    destruct (step st it) as [r1 [exn|st1]]; cbn in *; [done|].
    destruct (IH st1 (H2 _ eq_refl)) as [H3 H4].
    destruct (run st1 rest) as [r2 res]. cbn in *. split; [|done].
    rewrite fmap_app. by apply Forall_app.
Qed.

Lemma iterate_ok entries :
  Forall pair_ok (rec_pair <$> (iterate_with_balance entries).1).
Proof.
  unfold iterate_with_balance.
  destruct (run_ok initial_state entries) as [H1 H2]; [by apply Forall_nil|].
  destruct (run initial_state entries) as [r1 [exn|st]]; cbn in *; [done|].
  rewrite fmap_app, flush_pairs. apply Forall_app. split; [done|]. by apply H2.
Qed.

Lemma balance_before_last records i :
  balance_before records i = last_balance Inventory_new (take i records).
Proof. done. Qed.

(** C6 (null-change invariant).  Take any record the generator yields.  If
    its entry is not a transaction, it was buffered without postings; and a
    record buffered without postings has no change and leaves the running
    balance as the record before it left it (empty for the first record).
    The balance component of a record is an inventory by construction: the
    loop never rebinds [balance], so [rec_balance] is not an optional
    field. *)
Theorem null_change_invariant entries i r :
  (iterate_with_balance entries).1 !! i = Some r ->
  (is_Transaction (rec_entry r) = false -> rec_postings r = None) /\
  (rec_postings r = None ->
     rec_change r = None /\
     rec_balance r = balance_before (iterate_with_balance entries).1 i).
Proof.
  intros Hi. split.
  - intros Hnt. pose proof (iterate_ok entries) as Hok.
    rewrite Forall_fmap, Forall_lookup in Hok. specialize (Hok _ _ Hi).
    unfold pair_ok in Hok. cbn in Hok.
    destruct (rec_postings r) as [l|]; [|done].
    rewrite Hok in Hnt; [done | by eexists].
  - intros Hnone.
    destruct (chained_lookup _ _ _ _ (iterate_chained entries) Hi) as [Hc Hb].
    rewrite Hnone in Hc, Hb. by rewrite balance_before_last.
Qed.

(** ** Directly listed entries *)

Lemma direct_entries_resolve it :
  direct_entries [it] = match (resolve it).2 with None => [(resolve it).1] | Some _ => [] end.
Proof. by destruct it. Qed.

Lemma buffered_null des e posting des' :
  buffered des e posting des' ->
  filter null_pair des' =
    filter null_pair des ++ match posting with None => [(e, None)] | Some _ => [] end.
Proof.
  destruct 1 as [|p Hp|p pre l post -> Hpre].
  - by rewrite filter_app, filter_cons_True, filter_nil.
  - rewrite filter_app, filter_cons_False, filter_nil by done.
    by rewrite !app_nil_r.
  - rewrite !filter_app, !filter_cons_False by done. by rewrite app_nil_r.
Qed.

Lemma run_null st entries records st' :
  run st entries = (records, inr st') ->
  filter null_pair ((rec_pair <$> records) ++ date_entries st') =
    filter null_pair (date_entries st) ++ ((fun e => (e, None)) <$> direct_entries entries).
Proof.
  revert st records. induction entries as [|it rest IH]; intros st records.
  - intros [= <- <-]. cbn. by rewrite app_nil_r.
  - intros Hr. apply run_cons_inr in Hr as (r1 & st1 & r2 & Hs & Hr & ->).
    apply step_spec in Hs as (des & <- & Hb & _). apply IH in Hr.
    apply buffered_null in Hb.
    rewrite fmap_app, <- app_assoc, filter_app, Hr, Hb.
    change (it :: rest) with ([it] ++ rest).
    unfold direct_entries at 2. rewrite omap_app.
    fold (direct_entries [it]) (direct_entries rest).
    rewrite direct_entries_resolve, fmap_app, !filter_app, <- !app_assoc.
    by destruct (resolve it).2.
Qed.

(** C10 (directly listed transactions).  A transaction listed directly is
    always buffered, with a null posting list, whatever legs it owns.  When
    the generator runs to its end, the records without a posting list are,
    in order, the directly listed entries; and the one yielded for the
    transaction has no change and leaves the running balance as the record
    before it left it. *)
Theorem direct_transaction_null_change pre t post records :
  iterate_with_balance (pre ++ IEntry (Txn t) :: post) = (records, None) ->
  (forall st, exists recs st',
     step st (IEntry (Txn t)) = (recs, inr st') /\
     last (date_entries st') = Some (Txn t, None)) /\
  filter null_pair (rec_pair <$> records) =
    (fun e => (e, None)) <$> direct_entries (pre ++ IEntry (Txn t) :: post) /\
  exists i r,
    records !! i = Some r /\ rec_entry r = Txn t /\ rec_postings r = None /\
    rec_change r = None /\ rec_balance r = balance_before records i.
Proof.
  intros Hit. split; [|split].
  - intros st. unfold step, flush_on_date_change, resolve, buffer_item.
    destruct (decide (Some (entry_date (Txn t)) = prev_date st)).
    + eexists _, _. split; [done|]. cbn. apply last_snoc.
    + destruct (flush (balance st) (date_entries st)) as [recs b1].
      eexists _, _. split; [done|]. done.
  - destruct (iterate_completes_inv _ _ Hit) as (r1 & st & Hr & ->).
    rewrite fmap_app, flush_pairs. by rewrite (run_null _ _ _ _ Hr).
  - assert (Hin : (Txn t, None) ∈ filter null_pair (rec_pair <$> records)).
    { destruct (iterate_completes_inv _ _ Hit) as (r1 & st & Hr & ->).
      rewrite fmap_app, flush_pairs, (run_null _ _ _ _ Hr). cbn.
      apply list_elem_of_fmap. exists (Txn t). split; [done|].
      unfold direct_entries. rewrite omap_app. cbn. set_solver. }
    apply list_elem_of_filter in Hin as [_ Hin].
    apply list_elem_of_fmap in Hin as (r & Hpair & Hin).
    apply list_elem_of_lookup in Hin as [i Hi]. exists i, r.
    injection Hpair as He Hp.
    pose proof (iterate_chained (pre ++ IEntry (Txn t) :: post)) as Hc.
    rewrite Hit in Hc. cbn in Hc.
    destruct (chained_lookup _ _ _ _ Hc Hi) as [Hc1 Hc2].
    rewrite <- Hp in Hc1, Hc2. by rewrite balance_before_last.
Qed.

(** ** Order of emission *)

Lemma rec_pair_fst records : (rec_pair <$> records).*1 = rec_entry <$> records.
Proof. rewrite <- list_fmap_compose. done. Qed.

Lemma buffered_fst des e posting des' :
  buffered des e posting des' ->
  des'.*1 = des.*1 ++ if decide (is_Some posting /\ e ∈ des.*1) then [] else [e].
Proof.
  destruct 1 as [|p Hp|p pre l post -> Hpre].
  - rewrite fmap_app. case_decide as H; [|done]. by destruct H as [[? [=]] _].
  - rewrite fmap_app. case_decide as H; [|done]. by destruct H as [_ ?].
  - rewrite !fmap_app, !fmap_cons. cbn. case_decide as H.
    + by rewrite app_nil_r.
    + exfalso. apply H. split; [by eexists|]. set_solver.
Qed.

Lemma run_first_seen st entries records st' :
  run st entries = (records, inr st') ->
  (rec_entry <$> records) ++ (date_entries st').*1 =
    (date_entries st).*1 ++ first_seen (prev_date st) (date_entries st).*1 entries.
Proof.
  revert st records. induction entries as [|it rest IH]; intros st records.
  - intros [= <- <-]. cbn. by rewrite app_nil_r.
  - intros Hr. apply run_cons_inr in Hr as (r1 & st1 & r2 & Hs & Hr & ->).
    apply step_spec in Hs as (des & Hdes & Hb & Hprev & _ & _ & Hsame & Hdiff).
    apply IH in Hr. apply buffered_fst in Hb.
    rewrite fmap_app, <- app_assoc, Hr, Hprev. cbn [first_seen].
    assert (Hseen : (if decide (Some (entry_date (resolve it).1) = prev_date st)
                     then (date_entries st).*1 else []) = des.*1).
    { destruct (decide (Some (entry_date (resolve it).1) = prev_date st)) as [Hd|Hd].
      - by destruct (Hsame Hd) as [_ ->].
      - by destruct (Hdiff Hd) as [_ ->]. }
    rewrite Hseen, <- Hdes, fmap_app, rec_pair_fst, Hb.
    destruct (decide (is_Some (resolve it).2 /\ (resolve it).1 ∈ des.*1));
      rewrite <- ?app_assoc; by rewrite ?app_nil_r.
Qed.

(** C7 (flush order).  On the empty input nothing is yielded.  A turn of the
    loop yields records only when the date of the scanned item differs from
    the buffered date, and then it is the whole buffer, in buffered order;
    the rest is flushed at the end of the input.  Over a run consumed to its
    end, the entries of the records are the first-seen order of the input. *)
Theorem flush_order :
  iterate_with_balance [] = ([], None) /\
  (forall st it,
     (Some (entry_date (resolve it).1) = prev_date st -> (step st it).1 = []) /\
     (Some (entry_date (resolve it).1) ≠ prev_date st ->
        rec_pair <$> (step st it).1 = date_entries st)) /\
  (forall entries records st,
     run initial_state entries = (records, inr st) ->
     (iterate_with_balance entries).1 = records ++ (flush (balance st) (date_entries st)).1 /\
     rec_pair <$> (flush (balance st) (date_entries st)).1 = date_entries st) /\
  (forall entries records,
     iterate_with_balance entries = (records, None) ->
     rec_entry <$> records = first_seen_order entries).
Proof.
  split; [done|]. split; [|split].
  - intros st it. rewrite step_records. split; intros Hd; case_decide; try done.
    apply flush_pairs.
  - intros entries records st Hr. unfold iterate_with_balance. rewrite Hr.
    split; [done | apply flush_pairs].
  - intros entries records Hit.
    destruct (iterate_completes_inv _ _ Hit) as (r1 & st & Hr & ->).
    apply run_first_seen in Hr. cbn in Hr.
    rewrite fmap_app, <- (rec_pair_fst (flush _ _).1), flush_pairs. done.
Qed.

(** ** De-duplication of the postings of one transaction *)

Lemma filter_about_notin e des : e ∉ des.*1 -> filter (about e) des = [].
Proof.
  induction des as [|pr des IH]; [done|]. rewrite fmap_cons, not_elem_of_cons.
  intros [Hne Hnotin]. rewrite filter_cons_False; [by apply IH|].
  unfold about. congruence.
Qed.

Lemma filter_about_fmap e (records : list record) :
  filter (about e) (rec_pair <$> records) =
    rec_pair <$> filter (fun r => rec_entry r = e) records.
Proof.
  induction records as [|r records IH]; [done|]. rewrite fmap_cons.
  destruct (decide (rec_entry r = e)) as [He|He].
  - rewrite !filter_cons_True by done. by rewrite fmap_cons, IH.
  - by rewrite !filter_cons_False by done.
Qed.

Lemma buffered_other des e posting des' e0 :
  buffered des e posting des' -> e ≠ e0 ->
  filter (about e0) des' = filter (about e0) des.
Proof.
  destruct 1 as [|p Hp|p pre l post -> Hpre]; intros Hne.
  - rewrite filter_app, filter_cons_False, filter_nil by done. by rewrite app_nil_r.
  - rewrite filter_app, filter_cons_False, filter_nil by done. by rewrite app_nil_r.
  - by rewrite !filter_app, !filter_cons_False by done.
Qed.

Lemma run_other e0 st entries records st' :
  Forall (fun it => (resolve it).1 ≠ e0) entries ->
  run st entries = (records, inr st') ->
  filter (about e0) ((rec_pair <$> records) ++ date_entries st') =
    filter (about e0) (date_entries st).
Proof.
  revert st records. induction entries as [|it rest IH]; intros st records Hall.
  - intros [= <- <-]. done.
  - apply Forall_cons in Hall as [Hit Hrest].
    intros Hr. apply run_cons_inr in Hr as (r1 & st1 & r2 & Hs & Hr & ->).
    apply step_spec in Hs as (des & <- & Hb & _).
    apply (IH _ _ Hrest) in Hr. apply (buffered_other _ _ _ _ e0) in Hb; [|done].
    rewrite fmap_app, <- app_assoc, filter_app, Hr, Hb. by rewrite filter_app.
Qed.

Lemma run_app_inr st xs ys records st' :
  run st (xs ++ ys) = (records, inr st') ->
  exists r1 st1 r2,
    run st xs = (r1, inr st1) /\ run st1 ys = (r2, inr st') /\ records = r1 ++ r2.
Proof.
  rewrite run_app. destruct (run st xs) as [r1 [exn|st1]]; [done|].
  destruct (run st1 ys) as [r2 res] eqn:Hr. intros [= <- ->]. by exists r1, st1, r2.
Qed.

(** The first posting of the transaction opens its pair. *)
Lemma step_first_posting t p st records st' :
  entry p = t ->
  filter (about (Txn t)) (date_entries st) = [] ->
  step st (IPosting p) = (records, inr st') ->
  filter (about (Txn t)) (rec_pair <$> records) = [] /\
  filter (about (Txn t)) (date_entries st') = [(Txn t, Some [p])] /\
  prev_date st' = Some (txn_date t).
Proof.
  intros <- Hnone Hs.
  apply step_spec in Hs as (des & Hdes & Hb & Hprev & _). cbn in Hb, Hprev.
  rewrite <- Hdes, filter_app in Hnone. apply app_eq_nil in Hnone as [Hr Hd].
  split; [done|]. split; [|done].
  inversion Hb as [|p' Hp|p' pre l post Hpre Hnotin]; subst.
  - rewrite filter_app, Hd. by rewrite filter_cons_True.
  - rewrite filter_app, filter_cons_True in Hd by done.
    by apply app_eq_nil in Hd as [_ ?].
Qed.

(** The postings that follow at once join it. *)
Lemma step_next_posting t p l st records st' :
  entry p = t ->
  prev_date st = Some (txn_date t) ->
  filter (about (Txn t)) (date_entries st) = [(Txn t, Some l)] ->
  step st (IPosting p) = (records, inr st') ->
  records = [] /\
  filter (about (Txn t)) (date_entries st') = [(Txn t, Some (l ++ [p]))] /\
  prev_date st' = Some (txn_date t).
Proof.
  intros <- Hdate Hone Hs.
  apply step_spec in Hs as (des & Hdes & Hb & Hprev & _ & _ & Hsame & _).
  cbn in Hb, Hprev, Hsame. destruct (Hsame (eq_sym Hdate)) as [-> ->].
  split; [done|]. split; [|done].
  inversion Hb as [|p' Hp|p' pre l' post Hpre Hnotin]; subst.
  - by rewrite filter_about_notin in Hone.
  - rewrite Hpre in Hone.
    rewrite filter_app, filter_cons_True, filter_about_notin in Hone by done.
    injection Hone as -> Hpost.
    rewrite filter_app, filter_cons_True, filter_about_notin by done.
    by rewrite Hpost.
Qed.

Lemma run_next_postings t ps l st records st' :
  Forall (fun p => entry p = t) ps ->
  prev_date st = Some (txn_date t) ->
  filter (about (Txn t)) (date_entries st) = [(Txn t, Some l)] ->
  run st (IPosting <$> ps) = (records, inr st') ->
  records = [] /\
  filter (about (Txn t)) (date_entries st') = [(Txn t, Some (l ++ ps))].
Proof.
  revert l st records. induction ps as [|p ps IH]; intros l st records Hall Hdate Hone.
  - intros [= <- <-]. by rewrite app_nil_r.
  - apply Forall_cons in Hall as [Hp Hps]. cbn [fmap list_fmap].
    intros Hr. apply run_cons_inr in Hr as (r1 & st1 & r2 & Hs & Hr & ->).
    destruct (step_next_posting _ _ _ _ _ _ Hp Hdate Hone Hs) as (-> & Hone1 & Hdate1).
    destruct (IH _ _ _ Hps Hdate1 Hone1 Hr) as [-> Hfin].
    split; [done|]. by rewrite <- app_assoc in Hfin.
Qed.

(** C2 (de-dup property).  Let the postings [ps] of one transaction stand
    next to one another in the input, as standalone postings, the
    transaction occurring nowhere else in it, and let the generator run to
    its end.  Then exactly one record is yielded for the transaction; it
    carries [ps], in order, and its change is the sum of their positions
    merged by lot. *)
Theorem dedup_property pre ps post t records :
  ps ≠ [] ->
  Forall (fun p => entry p = t) ps ->
  Forall (fun it => (resolve it).1 ≠ Txn t) (pre ++ post) ->
  iterate_with_balance (pre ++ (IPosting <$> ps) ++ post) = (records, None) ->
  exists r,
    filter (fun r => rec_entry r = Txn t) records = [r] /\
    rec_postings r = Some ps /\
    rec_change r = Some (sum_positions (position <$> ps)).
Proof.
  intros Hne Hps Hrest Hit.
  apply Forall_app in Hrest as [Hpre Hpost].
  pose proof (iterate_chained (pre ++ (IPosting <$> ps) ++ post)) as Hc.
  rewrite Hit in Hc. cbn in Hc.
  destruct (iterate_completes_inv _ _ Hit) as (r0 & st3 & Hr & ->).
  apply run_app_inr in Hr as (r1 & st1 & r23 & Hr1 & Hr & ->).
  apply run_app_inr in Hr as (r2 & st2 & r3 & Hr2 & Hr3 & ->).
  apply (run_other (Txn t)) in Hr1; [|done]. cbn in Hr1.
  rewrite filter_app in Hr1. apply app_eq_nil in Hr1 as [Hr1 Hst1].
  destruct ps as [|p ps]; [done|]. apply Forall_cons in Hps as [Hp Hps].
  cbn [fmap list_fmap] in Hr2.
  apply run_cons_inr in Hr2 as (r2a & st1a & r2b & Hs & Hr2 & ->).
  destruct (step_first_posting _ _ _ _ _ Hp Hst1 Hs) as (Hr2a & Hone & Hdate).
  destruct (run_next_postings _ _ _ _ _ _ Hps Hdate Hone Hr2) as [-> Hst2].
  apply (run_other (Txn t)) in Hr3; [|done]. rewrite Hst2 in Hr3.
  assert (Hpairs : filter (about (Txn t))
            (rec_pair <$> (r1 ++ (r2a ++ []) ++ r3) ++ (flush (balance st3) (date_entries st3)).1)
          = [(Txn t, Some (p :: ps))]).
  { rewrite fmap_app, flush_pairs, app_nil_r, !fmap_app, <- !app_assoc.
    rewrite filter_app, Hr1, filter_app, Hr2a. exact Hr3. }
  rewrite filter_about_fmap in Hpairs.
  destruct (filter (fun r => rec_entry r = Txn t) _) as [|r [|r' rs]] eqn:Hf in *;
    try done.
  cbn in Hpairs. injection Hpairs as He Hp'. exists r. split; [done|]. split; [done|].
  assert (Hin : r ∈ filter (fun r => rec_entry r = Txn t)
            ((r1 ++ (r2a ++ []) ++ r3) ++ (flush (balance st3) (date_entries st3)).1)).
  { rewrite Hf. set_solver. }
  apply list_elem_of_filter in Hin as [_ Hin].
  apply list_elem_of_lookup in Hin as [i Hi].
  destruct (chained_lookup _ _ _ _ Hc Hi) as [Hch _].
  by rewrite Hch, Hp'.
Qed.

(** ** Account trees *)

Lemma nodes_unfold ra : nodes ra = ra :: flat_map nodes (ra_children ra).
Proof. by destruct ra. Qed.

Lemma nodes_self ra : ra ∈ nodes ra.
Proof. rewrite nodes_unfold. apply list_elem_of_here. Qed.

Lemma elem_of_flat_map_nodes d (cs : list RealAccount) :
  d ∈ flat_map nodes cs <-> exists c, c ∈ cs /\ d ∈ nodes c.
Proof.
  rewrite list_elem_of_In, in_flat_map. setoid_rewrite list_elem_of_In. done.
Qed.

Lemma nodes_trans ra c d : c ∈ nodes ra -> d ∈ nodes c -> d ∈ nodes ra.
Proof.
  revert c d. induction ra as [name account balance postings children IH]
    using RealAccount_ind.
  intros c d Hc Hd. rewrite nodes_unfold in Hc |- *. cbn in *.
  apply elem_of_cons in Hc as [->|Hc]; [by rewrite nodes_unfold in Hd|].
  apply list_elem_of_further, elem_of_flat_map_nodes.
  apply elem_of_flat_map_nodes in Hc as (c0 & Hc0 & Hc).
  exists c0. split; [done|]. rewrite Forall_forall in IH. by eapply IH.
Qed.

Lemma is_account_active_spec ra : is_account_active ra = true <-> has_activity ra.
Proof.
  unfold is_account_active, has_activity.
  induction (ra_postings ra) as [|it rest IH]; cbn.
  - split; [done | intros (it & Hit & _); by apply elem_of_nil in Hit].
  - destruct (item_is_Open it) eqn:Hopen.
    + rewrite IH. split.
      * intros (it' & Hin & Hit'). exists it'. split; [by apply list_elem_of_further | done].
      * intros (it' & Hin & Hit'). apply elem_of_cons in Hin as [->|Hin]; [congruence|].
        by exists it'.
    + split; [|done]. intros _. exists it. split; [apply list_elem_of_here | done].
Qed.

Lemma marked_unfold predicate ra :
  marked predicate ra = predicate ra || existsb (marked predicate) (ra_children ra).
Proof. by destruct ra. Qed.

Lemma marked_spec ra : marked is_account_active ra = true <-> active ra.
Proof.
  induction ra as [name account balance postings children IH] using RealAccount_ind.
  rewrite marked_unfold, orb_true_iff, is_account_active_spec, existsb_exists.
  unfold active. rewrite nodes_unfold. cbn [ra_children].
  rewrite Forall_forall in IH. split.
  - intros [Hown|(c & Hc & Hm)].
    + eexists. split; [apply list_elem_of_here | done].
    + apply list_elem_of_In in Hc. apply (IH c Hc) in Hm as (d & Hd & Hact).
      exists d. split; [|done]. apply list_elem_of_further, elem_of_flat_map_nodes.
      by exists c.
  - intros (d & Hd & Hact). apply elem_of_cons in Hd as [->|Hd]; [by left|].
    apply elem_of_flat_map_nodes in Hd as (c & Hc & Hd). right.
    exists c. split; [by apply list_elem_of_In|]. apply (IH c Hc). by exists d.
Qed.

Lemma find_node_elem tree node_name start :
  find_node tree node_name = Some start -> start ∈ nodes tree.
Proof.
  unfold find_node. intros Hh. apply head_Some_elem_of in Hh.
  by apply list_elem_of_filter in Hh as [_ ?].
Qed.

Lemma render_lines_nodes tree start_node_name ra :
  ra ∈ render_lines tree start_node_name -> ra ∈ nodes tree.
Proof.
  unfold render_lines. destruct (find_node _ _) as [start|] eqn:Hf.
  - intros Hra. eapply nodes_trans; [by eapply find_node_elem | done].
  - intros H. by apply elem_of_nil in H.
Qed.

Lemma NoDup_fmap_eq {A B} (f : A -> B) (l : list A) x y :
  NoDup (f <$> l) -> x ∈ l -> y ∈ l -> f x = f y -> x = y.
Proof.
  induction l as [|z l IH]; [by intros _ ?%elem_of_nil|].
  rewrite fmap_cons, NoDup_cons. intros [Hz Hnd] Hx Hy Hxy.
  apply elem_of_cons in Hx as [->|Hx]; apply elem_of_cons in Hy as [->|Hy].
  - done.
  - exfalso. apply Hz. rewrite Hxy. by apply list_elem_of_fmap_2.
  - exfalso. apply Hz. rewrite <- Hxy. by apply list_elem_of_fmap_2.
  - by apply IH.
Qed.

(** The names in the active set are those of the active nodes. *)
Lemma active_set_spec tree ra :
  NoDup (ra_name <$> nodes tree) -> ra ∈ nodes tree ->
  ra_name ra ∈ ra_name <$> mark_from_leaves is_account_active tree <-> active ra.
Proof.
  intros Hnd Hra. unfold mark_from_leaves. rewrite list_elem_of_fmap. split.
  - intros (m & Hname & Hm). apply list_elem_of_filter in Hm as [Hm Hin].
    assert (m = ra) as -> by (eapply NoDup_fmap_eq; eauto).
    by apply marked_spec.
  - intros Hact. exists ra. split; [done|]. apply list_elem_of_filter.
    split; [by apply marked_spec | done].
Qed.

(** ** Rows *)

Lemma tree_table_rows_spec fill lines rows :
  tree_table_rows fill lines = inr rows ->
  (forall ra, ra ∈ lines -> exists cells classes, fill ra = inr (cells, classes)) /\
  (forall r, r ∈ rows ->
     row_account r ∈ lines /\ row_cells r ≠ [] /\
     fill (row_account r) = inr (row_cells r, row_classes r)) /\
  (forall ra cells classes,
     ra ∈ lines -> fill ra = inr (cells, classes) -> cells ≠ [] ->
     mkRow ra classes cells ∈ rows).
Proof.
  revert rows. induction lines as [|ra rest IH]; intros rows; cbn.
  - intros [= <-]. split; [|split].
    + by intros ra ?%elem_of_nil.
    + by intros r ?%elem_of_nil.
    + by intros ra cells classes ?%elem_of_nil.
  - destruct (fill ra) as [exn|[cells classes]] eqn:Hfill; [done|].
    destruct (tree_table_rows fill rest) as [exn|rows'] eqn:Hrest; [done|].
    intros [= <-]. destruct (IH _ eq_refl) as (IH1 & IH2 & IH3).
    split; [|split].
    + intros ra' [->|Hin]%elem_of_cons; [by eexists _, _ | by apply IH1].
    + intros r Hr.
      assert (r = mkRow ra classes cells /\ cells ≠ [] \/ r ∈ rows') as [[-> Hne]|Hr'].
      { destruct cells; [by right|]. apply elem_of_cons in Hr as [->|?]; [by left|by right]. }
      * split; [apply list_elem_of_here | done].
      * destruct (IH2 _ Hr') as (? & ? & ?). split; [by apply list_elem_of_further | done].
    + intros ra' cells' classes' [->|Hin]%elem_of_cons Hf Hne.
      * rewrite Hfill in Hf. injection Hf as <- <-.
        destruct cells; [done|]. apply list_elem_of_here.
      * specialize (IH3 _ _ _ Hin Hf Hne).
        destruct cells; [done|]. by apply list_elem_of_further.
Qed.

Lemma tree_table_spec tree start_node_name fill rows :
  tree_table tree start_node_name fill = inr rows ->
  tree_table_rows fill (render_lines tree start_node_name) = inr rows.
Proof.
  unfold tree_table, render_lines.
  destruct (find_node tree start_node_name); [done|]. by intros [= <-].
Qed.

(** ** Splitting a balance over the operating currencies *)

Lemma list_remove_first_perm {A} `{EqDecision A} (x : A) l l' :
  list_remove_first x l = Some l' -> l ≡ₚ x :: l'.
Proof.
  revert l'. induction l as [|y l IH]; intros l'; cbn; [done|].
  destruct (decide (y = x)) as [->|Hne]; [by intros [= ->]|].
  intros Hr. apply fmap_Some in Hr as (l0 & Hl0 & ->).
  rewrite (IH _ Hl0). apply Permutation_swap.
Qed.

Lemma list_remove_first_elem {A} `{EqDecision A} (x : A) l :
  x ∈ l -> is_Some (list_remove_first x l).
Proof.
  induction l as [|y l IH]; [by intros ?%elem_of_nil|]. cbn.
  destruct (decide (y = x)); [by eexists|].
  intros [->|Hin]%elem_of_cons; [done|].
  destruct (IH Hin) as [l' ->]. by eexists.
Qed.

Lemma get_positions_NoDup (inv : Inventory) : NoDup (get_positions inv).
Proof.
  unfold get_positions. apply NoDup_fmap_2; [|apply NoDup_map_to_list].
  intros [l1 n1] [l2 n2] [=]. by subst.
Qed.

Lemma get_position_elem (inv : Inventory) l p :
  get_position inv l = Some p -> p ∈ get_positions inv /\ lot p = l.
Proof.
  unfold get_position, get_positions. intros Hp.
  apply fmap_Some in Hp as (n & Hn & ->). split; [|done].
  apply list_elem_of_fmap. exists (l, n). split; [done|].
  by apply elem_of_map_to_list.
Qed.

Lemma matched_positions_cons balance_cost c cs :
  matched_positions balance_cost (c :: cs) =
    match get_position balance_cost (mkLot c None None) with
    | Some p => p :: matched_positions balance_cost cs
    | None => matched_positions balance_cost cs
    end.
Proof. unfold matched_positions. cbn. by destruct (get_position _ _). Qed.

Lemma currency_cells_spec balance_cost currencies positions cells rest :
  currency_cells balance_cost currencies positions = inr (cells, rest) ->
  cells = currency_cell balance_cost <$> currencies /\
  matched_positions balance_cost currencies ++ rest ≡ₚ positions.
Proof.
  revert positions cells. induction currencies as [|c cs IH]; intros positions cells.
  - by intros [= <- <-].
  - cbn [currency_cells]. rewrite matched_positions_cons, fmap_cons.
    unfold currency_cell at 1.
    destruct (get_position balance_cost (mkLot c None None)) as [p|] eqn:Hp.
    + destruct (list_remove_first p positions) as [positions1|] eqn:Hrm; [|done].
      destruct (currency_cells balance_cost cs positions1) as [|[cells' rest']] eqn:Hcs;
        [done|].
      intros [= <- <-]. destruct (IH _ _ Hcs) as [-> Hperm]. split; [done|].
      rewrite (list_remove_first_perm _ _ _ Hrm). cbn. by rewrite Hperm.
    + destruct (currency_cells balance_cost cs positions) as [|[cells' rest']] eqn:Hcs;
        [done|].
      intros [= <- <-]. destruct (IH _ _ Hcs) as [-> Hperm]. done.
Qed.

(** With pairwise different operating currencies no removal fails. *)
Lemma currency_cells_total balance_cost currencies positions :
  NoDup currencies ->
  (forall c p, c ∈ currencies ->
     get_position balance_cost (mkLot c None None) = Some p -> p ∈ positions) ->
  exists cells rest, currency_cells balance_cost currencies positions = inr (cells, rest).
Proof.
  revert positions. induction currencies as [|c cs IH]; intros positions Hnd Hin.
  - by eexists _, _.
  - apply NoDup_cons in Hnd as [Hc Hnd]. cbn [currency_cells].
    destruct (get_position balance_cost (mkLot c None None)) as [p|] eqn:Hp.
    + destruct (list_remove_first_elem p positions) as [positions1 Hrm].
      { eapply Hin; [apply list_elem_of_here | done]. }
      rewrite Hrm. destruct (IH positions1 Hnd) as (cells & rest & ->); [|by eexists _, _].
      intros c' p' Hc' Hp'. assert (p' ∈ positions) as Hp'in.
      { eapply Hin; [by apply list_elem_of_further | done]. }
      rewrite (list_remove_first_perm _ _ _ Hrm) in Hp'in.
      apply elem_of_cons in Hp'in as [->|?]; [|done].
      apply get_position_elem in Hp as [_ Hl], Hp' as [_ Hl'].
      rewrite Hl in Hl'. injection Hl' as ->. done.
    + destruct (IH positions Hnd) as (cells & rest & ->); [|by eexists _, _].
      intros c' p' Hc' Hp'. eapply Hin; [by apply list_elem_of_further | done].
Qed.

Section TableOfBalancesFacts.

Variable get_cost : Inventory -> Inventory.

Lemma balance_cells_skip active_set currencies ra cells classes :
  balance_cells get_cost active_set currencies ra = inr (cells, classes) ->
  (cells = [] <-> ((ra_name ra ∉ active_set) /\ is_account_root (ra_name ra) = false)).
Proof.
  unfold balance_cells.
  destruct (bool_decide (ra_name ra ∉ active_set) && negb (is_account_root (ra_name ra)))
    eqn:Hskip.
  - intros [= <- <-]. apply andb_true_iff in Hskip as [H1 H2].
    apply bool_decide_eq_true in H1. apply negb_true_iff in H2. done.
  - destruct (currency_cells _ _ _) as [|[cells' rest]]; [done|]. intros [= <- <-].
    split; [by intros [_ [=]]%app_eq_nil|]. intros [H1 H2].
    apply andb_false_iff in Hskip as [Hs|Hs].
    + by apply bool_decide_eq_false in Hs.
    + apply negb_false_iff in Hs. congruence.
Qed.

(** C4 (pruning rule).  Let the table be rendered for a tree whose nodes
    have pairwise different names.  A node among the lines of the subtree is
    written as a row if and only if it is active, that is, it or one of its
    descendants has a direct posting that is not an Open directive, or its
    name is one of the category roots; a category root is written even
    without any activity. *)
Theorem pruning_rule tree start_node_name currencies rows ra :
  table_of_balances get_cost tree start_node_name currencies = inr rows ->
  NoDup (ra_name <$> nodes tree) ->
  ra ∈ render_lines tree start_node_name ->
  (ra ∈ row_account <$> rows <-> (active ra \/ is_account_root (ra_name ra) = true)).
Proof.
  intros Htab Hnd Hline. unfold table_of_balances in Htab.
  apply tree_table_spec, tree_table_rows_spec in Htab as (Hall & Hrows & Hkeep).
  pose proof (render_lines_nodes _ _ _ Hline) as Hnode.
  destruct (Hall _ Hline) as (cells & classes & Hfill).
  pose proof (balance_cells_skip _ _ _ _ _ Hfill) as Hskip.
  rewrite <- (active_set_spec tree ra Hnd Hnode). split.
  - intros (r & -> & Hr)%list_elem_of_fmap.
    destruct (Hrows _ Hr) as (_ & Hne & Hfill').
    rewrite Hfill in Hfill'. injection Hfill' as -> ->.
    destruct (decide (ra_name (row_account r)
                ∈ ra_name <$> mark_from_leaves is_account_active tree)); [by left|].
    right. destruct (is_account_root _); [done|]. exfalso. by apply Hne, Hskip.
  - intros Hor. apply list_elem_of_fmap. exists (mkRow ra classes cells).
    split; [done|]. apply Hkeep; [done..|].
    intros Hnil. apply Hskip in Hnil as [Hna Hnr]. destruct Hor; [done | congruence].
Qed.

(** C5 (currency split).  Every row written carries one cell per operating
    currency, in order, holding the number of the position the cost-basis
    balance of the node has in that currency with no cost and no date, or
    blank, and then one cell with the remaining positions.  The positions
    shown in the currency cells together with the remaining ones are the
    positions of the balance, each exactly once. *)
Theorem currency_split tree start_node_name currencies rows r :
  table_of_balances get_cost tree start_node_name currencies = inr rows ->
  r ∈ rows ->
  exists rest,
    row_cells r =
      (currency_cell (get_cost (ra_balance (row_account r))) <$> currencies)
        ++ [RestCell rest] /\
    length (row_cells r) = S (length currencies) /\
    matched_positions (get_cost (ra_balance (row_account r))) currencies ++ rest
      ≡ₚ get_positions (get_cost (ra_balance (row_account r))) /\
    NoDup (matched_positions (get_cost (ra_balance (row_account r))) currencies ++ rest).
Proof.
  intros Htab Hr. unfold table_of_balances in Htab.
  apply tree_table_spec, tree_table_rows_spec in Htab as (_ & Hrows & _).
  destruct (Hrows _ Hr) as (_ & Hne & Hfill). unfold balance_cells in Hfill.
  destruct (bool_decide _ && negb _);
    [injection Hfill as Hc _; by rewrite <- Hc in Hne|].
  destruct (currency_cells _ _ _) as [|[cells rest]] eqn:Hcells; [done|].
  injection Hfill as Hc _. apply currency_cells_spec in Hcells as [-> Hperm].
  exists rest. split; [done|]. split; [|split].
  - rewrite <- Hc, length_app, length_fmap. cbn. lia.
  - done.
  - rewrite Hperm. apply get_positions_NoDup.
Qed.

(** With pairwise different operating currencies the table is rendered. *)
Lemma table_of_balances_total tree start_node_name currencies :
  NoDup currencies ->
  exists rows, table_of_balances get_cost tree start_node_name currencies = inr rows.
Proof.
  intros Hnd. unfold table_of_balances, tree_table.
  destruct (find_node tree start_node_name); [|by eexists].
  induction (render_lines tree start_node_name) as [|ra rest [rows IH]]; [by eexists|].
  cbn. rewrite IH.
  assert (exists cells classes,
    balance_cells get_cost (ra_name <$> mark_from_leaves is_account_active tree)
      currencies ra = inr (cells, classes)) as (cells & classes & ->).
  { unfold balance_cells. destruct (bool_decide _ && negb _); [by eexists _, _|].
    destruct (currency_cells_total (get_cost (ra_balance ra)) currencies
                (get_positions (get_cost (ra_balance ra))) Hnd) as (cells & rest' & ->).
    - intros c p _ Hp. by apply get_position_elem in Hp as [? _].
    - by eexists _, _. }
  by eexists.
Qed.

End TableOfBalancesFacts.

(** ** The view cache *)

Section ViewCacheFacts.

Context {View : Type}.
Variable callback : nat -> list string -> exception + View.

Lemma wrapper_hit path_depth components a view :
  views a !! view_id path_depth components = Some view ->
  wrapper callback path_depth components a = (a, inr view).
Proof. unfold wrapper. by intros ->. Qed.

Lemma wrapper_views_mono path_depth components a key view :
  views a !! key = Some view ->
  views (wrapper callback path_depth components a).1 !! key = Some view.
Proof.
  intros Hkey. unfold wrapper.
  destruct (views a !! view_id path_depth components) eqn:Hv; [done|].
  destruct (callback _ _); cbn; [done|].
  rewrite lookup_insert_ne; [done | congruence].
Qed.

Lemma wrapper_returns_stored path_depth components a view :
  (wrapper callback path_depth components a).2 = inr view ->
  views (wrapper callback path_depth components a).1 !! view_id path_depth components
    = Some view.
Proof.
  unfold wrapper. destruct (views a !! view_id path_depth components) eqn:Hv.
  - by intros [= <-].
  - destruct (callback _ _); cbn; [done|]. intros [= <-]. apply lookup_insert_eq.
Qed.

(** A thread that runs alone does what the wrapper does. *)
Lemma thread_steps_wrapper path_depth components a :
  let (a1, s1) := thread_step callback path_depth components a Started in
  let (a2, s2) := thread_step callback path_depth components a1 s1 in
  let (a3, s3) := thread_step callback path_depth components a2 s2 in
  (a3, s3) = ((wrapper callback path_depth components a).1,
              Finished (wrapper callback path_depth components a).2).
Proof.
  unfold wrapper. cbn.
  destruct (views a !! view_id path_depth components); cbn.
  - by destruct a.
  - by destruct (callback _ _).
Qed.

Lemma constructions_snoc key (a : @application View) (vs : gmap string View) k ok :
  constructions key (mkApp vs (invocations a ++ [(k, ok)])) =
    constructions key a + (if decide ((k, ok) = (key, true)) then 1 else 0).
Proof.
  unfold constructions. cbn. rewrite filter_app, length_app. f_equal.
  rewrite filter_cons, filter_nil. by case_decide.
Qed.

Lemma wrapper_inv path_depth components a :
  cache_inv a -> cache_inv (wrapper callback path_depth components a).1.
Proof.
  intros Hinv key. destruct (Hinv key) as [H1 H0]. unfold wrapper.
  destruct (views a !! view_id path_depth components) eqn:Hv; [done|].
  destruct (callback _ _); cbn [fst].
  - rewrite constructions_snoc. cbn. case_decide; [done|]. by rewrite Nat.add_0_r.
  - rewrite constructions_snoc. cbn [views]. case_decide as Hk.
    + injection Hk as Hk. rewrite <- Hk, (proj2 (Hinv _) Hv), lookup_insert_eq.
      split; [lia | done].
    + rewrite Nat.add_0_r. split; [done|]. intros Hnone. apply H0.
      destruct (decide (view_id path_depth components = key)) as [<-|Hne]; [done|].
      by rewrite lookup_insert_ne in Hnone.
Qed.

Lemma serve_cons path_depth components rest a :
  serve callback path_depth (components :: rest) a =
    ((serve callback path_depth rest (wrapper callback path_depth components a).1).1,
     (wrapper callback path_depth components a).2
       :: (serve callback path_depth rest (wrapper callback path_depth components a).1).2).
Proof.
  cbn. destruct (wrapper _ _ _ _) as [a1 r]. cbn. by destruct (serve _ _ _ _).
Qed.

Lemma serve_inv path_depth requests a :
  cache_inv a -> cache_inv (serve callback path_depth requests a).1.
Proof.
  revert a. induction requests as [|c rest IH]; intros a Hinv; [done|].
  rewrite serve_cons. cbn. by apply IH, wrapper_inv.
Qed.

Lemma serve_hit path_depth requests a key view :
  views a !! key = Some view ->
  views (serve callback path_depth requests a).1 !! key = Some view /\
  forall j cj, requests !! j = Some cj -> view_id path_depth cj = key ->
    (serve callback path_depth requests a).2 !! j = Some (inr view).
Proof.
  revert a. induction requests as [|c rest IH]; intros a Hkey.
  - split; [done|]. by intros j cj [=].
  - rewrite serve_cons. cbn [fst snd].
    destruct (IH _ (wrapper_views_mono path_depth c a key view Hkey)) as [IH1 IH2].
    split; [done|]. intros [|j] cj Hj Hid; cbn in Hj |- *.
    + injection Hj as ->. rewrite <- Hid in Hkey. by rewrite (wrapper_hit _ _ _ _ Hkey).
    + by eapply IH2.
Qed.

Lemma serve_later path_depth requests a i j ci cj view :
  i < j -> requests !! i = Some ci -> requests !! j = Some cj ->
  view_id path_depth cj = view_id path_depth ci ->
  (serve callback path_depth requests a).2 !! i = Some (inr view) ->
  (serve callback path_depth requests a).2 !! j = Some (inr view).
Proof.
  revert a i j. induction requests as [|c rest IH]; intros a i j Hij Hi Hj Hid; [done|].
  rewrite serve_cons. cbn [snd]. destruct j as [|j]; [lia|]. destruct i as [|i]; cbn in *.
  - injection Hi as ->. intros [= Hres]. apply wrapper_returns_stored in Hres.
    by eapply serve_hit.
  - apply IH; [lia | done..].
Qed.

(** C3, amended (single construction, lookups served in turn).  Starting from
    an empty cache and serving the lookups one after the other, the factory
    returns normally at most once for a scope key, and once a lookup for a
    key has got a view, every later lookup for that key gets this same
    view. *)
Theorem sequential_single_construction path_depth requests key :
  constructions key (serve callback path_depth requests initial_app).1 ≤ 1 /\
  forall i j ci cj view,
    i < j -> requests !! i = Some ci -> requests !! j = Some cj ->
    view_id path_depth ci = key -> view_id path_depth cj = key ->
    (serve callback path_depth requests initial_app).2 !! i = Some (inr view) ->
    (serve callback path_depth requests initial_app).2 !! j = Some (inr view).
Proof.
  split.
  - apply (serve_inv path_depth requests initial_app).
    intros k. unfold constructions. cbn. split; [lia | done].
  - intros i j ci cj view Hij Hi Hj Hci Hcj. eapply serve_later; eauto. congruence.
Qed.

(** C9 (construction errors are not cached).  When the factory raises on a
    miss, the exception leaves the wrapper, the cache is left as it was, still
    without an entry for the key, and the next lookup for the key invokes the
    factory again and gets what this new invocation returns or raises. *)
Theorem failed_construction_not_memoized path_depth components a exn :
  views a !! view_id path_depth components = None ->
  callback (length (invocations a)) components = inl exn ->
  (wrapper callback path_depth components a).2 = inl exn /\
  views (wrapper callback path_depth components a).1 = views a /\
  views (wrapper callback path_depth components a).1 !! view_id path_depth components = None /\
  (wrapper callback path_depth components
     (wrapper callback path_depth components a).1).2
    = callback (S (length (invocations a))) components /\
  length (invocations (wrapper callback path_depth components
                         (wrapper callback path_depth components a).1).1)
    = length (invocations a) + 2.
Proof.
  intros Hmiss Hraise.
  assert (Hw : wrapper callback path_depth components a =
                 (mkApp (views a)
                    (invocations a ++ [(view_id path_depth components, false)]),
                  inl exn)).
  { unfold wrapper. by rewrite Hmiss, Hraise. }
  rewrite !Hw. cbn [fst snd views]. repeat split; try done.
  - unfold wrapper. cbn [views invocations]. rewrite Hmiss, length_app. cbn [length].
    rewrite Nat.add_1_r.
    destruct (callback (S (length (invocations a))) components); reflexivity.
  - unfold wrapper. cbn [views invocations]. rewrite Hmiss.
    destruct (callback (length (invocations a ++ _)) components);
      cbn [fst invocations]; rewrite !length_app; cbn [length]; lia.
Qed.

End ViewCacheFacts.

(** ** The order on identifiers *)

Lemma ascii_compare_refl c : Ascii.compare c c = Eq.
Proof. unfold Ascii.compare. apply N.compare_refl. Qed.

Lemma ascii_compare_lt_trans a b c :
  Ascii.compare a b = Lt -> Ascii.compare b c = Lt -> Ascii.compare a c = Lt.
Proof.
  unfold Ascii.compare. rewrite !N.compare_lt_iff. lia.
Qed.

Lemma string_compare_refl s : String.compare s s = Eq.
Proof. induction s as [|c s IH]; [done|]. cbn. by rewrite ascii_compare_refl. Qed.

Lemma string_compare_lt_trans s1 s2 s3 :
  String.compare s1 s2 = Lt -> String.compare s2 s3 = Lt -> String.compare s1 s3 = Lt.
Proof.
  revert s2 s3. induction s1 as [|a s1 IH]; intros [|b s2] [|c s3]; cbn; try done.
  destruct (Ascii.compare a b) eqn:Hab; [|clear IH|done];
    destruct (Ascii.compare b c) eqn:Hbc; try done.
  - apply Ascii.compare_eq_iff in Hab, Hbc. subst. rewrite ascii_compare_refl. apply IH.
  - apply Ascii.compare_eq_iff in Hab. subst. by rewrite Hbc.
  - apply Ascii.compare_eq_iff in Hbc. subst. by rewrite Hab.
  - by rewrite (ascii_compare_lt_trans _ _ _ Hab Hbc).
Qed.

#[global] Instance string_le_trans : Transitive string_le.
Proof.
  intros s1 s2 s3. unfold string_le, String.leb.
  destruct (String.compare s1 s2) eqn:H12; [| |done].
  - apply String.compare_eq_iff in H12. by subst.
  - destruct (String.compare s2 s3) eqn:H23; [| |done]; intros _ _.
    + apply String.compare_eq_iff in H23. subst. by rewrite H12.
    + by rewrite (string_compare_lt_trans _ _ _ H12 H23).
Qed.

#[global] Instance string_le_total : Total string_le.
Proof. intros s1 s2. apply String.leb_total. Qed.

#[global] Instance string_le_antisym : AntiSymm (=) string_le.
Proof. intros s1 s2. apply String.leb_antisym. Qed.

#[global] Instance pair_le_total : Total pair_le.
Proof.
  intros [i1 s1] [i2 s2]. unfold pair_le. cbn.
  destruct (decide (i1 = i2)) as [->|Hne].
  - destruct (total string_le s1 s2); [left | right]; by right.
  - destruct (total string_le i1 i2); [left | right]; left; split; congruence.
Qed.

#[global] Instance pair_le_antisym : AntiSymm (=) pair_le.
Proof.
  intros [i1 s1] [i2 s2]. unfold pair_le. cbn. intros [[Hne H1]|[-> H1]] [[Hne' H2]|[Heq H2]].
  - exfalso. apply Hne. by apply (anti_symm string_le).
  - congruence.
  - done.
  - f_equal. by apply (anti_symm string_le).
Qed.

#[global] Instance pair_le_trans : Transitive pair_le.
Proof.
  intros [i1 s1] [i2 s2] [i3 s3]. unfold pair_le. cbn.
  intros [[Hne H1]|[-> H1]] [[Hne' H2]|[<- H2]].
  - left. split; [|by etrans]. intros ->. apply Hne. by apply (anti_symm string_le).
  - left. done.
  - left. done.
  - right. split; [done | by etrans].
Qed.

(** ** Identifier maps *)

Lemma build_idmap_snoc method order s :
  build_idmap method (order ++ [s]) =
    <[method s := default [] (build_idmap method order !! method s) ++ [s]]>
      (build_idmap method order).
Proof. unfold build_idmap. by rewrite foldl_app. Qed.

Lemma build_idmap_lookup method order id :
  build_idmap method order !! id =
    match filter (fun s => method s = id) order with
    | [] => None
    | l => Some l
    end.
Proof.
  induction order as [|s order IH] using rev_ind; [done|].
  rewrite build_idmap_snoc, filter_app.
  destruct (decide (method s = id)) as [<-|Hne].
  - rewrite lookup_insert_eq, IH, filter_cons_True, filter_nil by done.
    by destruct (filter _ order).
  - rewrite lookup_insert_ne, IH, filter_cons_False, filter_nil, app_nil_r by done.
    done.
Qed.

Lemma build_idmap_Some method order id l :
  build_idmap method order !! id = Some l <->
  l = filter (fun s => method s = id) order /\ l ≠ [].
Proof.
  rewrite build_idmap_lookup. destruct (filter _ order) as [|x l'].
  - split; [done | by intros [-> ?]].
  - split; [by intros [= <-] | by intros [-> _]].
Qed.

Lemma no_collision_inj method order :
  NoDup order ->
  no_collision (build_idmap method order) = true <->
  forall s1 s2, s1 ∈ order -> s2 ∈ order -> method s1 = method s2 -> s1 = s2.
Proof.
  intros Hnd. unfold no_collision. rewrite bool_decide_eq_true. split.
  - intros Hall s1 s2 H1 H2 Heq.
    set (l := filter (fun s => method s = method s1) order).
    assert (Hs1 : s1 ∈ l) by (by apply list_elem_of_filter).
    assert (Hs2 : s2 ∈ l) by (by apply list_elem_of_filter).
    assert (Hl : build_idmap method order !! method s1 = Some l).
    { apply build_idmap_Some. split; [done|]. intros Hnil. rewrite Hnil in Hs1.
      by apply elem_of_nil in Hs1. }
    apply Hall in Hl. destruct l as [|x [|y l]]; try done.
    apply list_elem_of_singleton in Hs1, Hs2. congruence.
  - intros Hinj id l Hl. apply build_idmap_Some in Hl as [-> Hne].
    assert (Hndl : NoDup (filter (fun s => method s = id) order)) by by apply NoDup_filter.
    destruct (filter _ order) as [|x [|y l]] eqn:Hf; [done..|]. exfalso.
    assert (Hx : x ∈ filter (fun s => method s = id) order) by (rewrite Hf; set_solver).
    assert (Hy : y ∈ filter (fun s => method s = id) order) by (rewrite Hf; set_solver).
    apply list_elem_of_filter in Hx as [Hx1 Hx2], Hy as [Hy1 Hy2].
    assert (x = y) as -> by (apply Hinj; congruence).
    apply NoDup_cons in Hndl as [Hndl _]. apply Hndl. set_solver.
Qed.

Lemma collision_collides method order :
  NoDup order ->
  no_collision (build_idmap method order) = false ->
  exists s1 s2, s1 ∈ order /\ s2 ∈ order /\ s1 ≠ s2 /\ method s1 = method s2.
Proof.
  intros Hnd. unfold no_collision. rewrite bool_decide_eq_false.
  intros Hnot. apply map_not_Forall in Hnot; [|apply _].
  destruct Hnot as (id & l & Hl & Hlen). apply build_idmap_Some in Hl as [-> Hne].
  assert (Hndl : NoDup (filter (fun s => method s = id) order)) by by apply NoDup_filter.
  destruct (filter _ order) as [|x [|y l]] eqn:Hf; [done..|].
  assert (Hx : x ∈ filter (fun s => method s = id) order) by (rewrite Hf; set_solver).
  assert (Hy : y ∈ filter (fun s => method s = id) order) by (rewrite Hf; set_solver).
  apply list_elem_of_filter in Hx as [Hx1 Hx2], Hy as [Hy1 Hy2].
  exists x, y. repeat split; [done..| |congruence].
  intros ->. apply NoDup_cons in Hndl as [Hndl _]. apply Hndl. set_solver.
Qed.

Lemma no_collision_perm method order1 order2 :
  NoDup order1 -> order1 ≡ₚ order2 ->
  no_collision (build_idmap method order1) = no_collision (build_idmap method order2).
Proof.
  intros Hnd Hperm. assert (Hnd2 : NoDup order2) by by rewrite <- Hperm.
  destruct (no_collision (build_idmap method order2)) eqn:H2.
  - apply (no_collision_inj _ _ Hnd).
    pose proof (proj1 (no_collision_inj method order2 Hnd2) H2) as Hinj.
    intros s1 s2. rewrite !Hperm. apply Hinj.
  - destruct (no_collision (build_idmap method order1)) eqn:H1; [|done].
    rewrite <- H2. symmetry. apply (no_collision_inj _ _ Hnd2).
    pose proof (proj1 (no_collision_inj method order1 Hnd) H1) as Hinj.
    intros s1 s2. rewrite <- !Hperm. apply Hinj.
Qed.

(** Without collision the pairs are those of the input strings with their
    ids. *)
Lemma id_pairs_elem method order id s :
  NoDup order -> no_collision (build_idmap method order) = true ->
  (id, s) ∈ id_pairs (build_idmap method order) <-> s ∈ order /\ id = method s.
Proof.
  intros Hnd Hok. pose proof (proj1 (no_collision_inj method order Hnd) Hok) as Hinj.
  unfold no_collision in Hok. rewrite bool_decide_eq_true in Hok.
  unfold id_pairs. rewrite list_elem_of_omap. split.
  - intros ([id' l] & Hin & Hhd). apply elem_of_map_to_list in Hin. cbn in Hhd.
    apply fmap_Some in Hhd as (s' & Hs' & [= -> ->]).
    apply build_idmap_Some in Hin as [-> _]. apply head_Some_elem_of in Hs'.
    by apply list_elem_of_filter in Hs' as [-> ?].
  - intros [Hs ->].
    set (l := filter (fun s' => method s' = method s) order).
    assert (Hsl : s ∈ l) by (by apply list_elem_of_filter).
    assert (Hl : build_idmap method order !! method s = Some l).
    { apply build_idmap_Some. split; [done|]. intros Hnil. rewrite Hnil in Hsl.
      by apply elem_of_nil in Hsl. }
    exists (method s, l). split; [by apply elem_of_map_to_list|].
    pose proof (Hok _ _ Hl) as Hlen. destruct l as [|x [|y l]]; try done.
    apply list_elem_of_singleton in Hsl. by subst.
Qed.

Lemma id_pairs_fst_NoDup (idmap : gmap string (list string)) :
  NoDup (id_pairs idmap).*1.
Proof.
  unfold id_pairs. pose proof (NoDup_fst_map_to_list idmap) as Hnd.
  induction (map_to_list idmap) as [|[id l] kvs IH]; [constructor|].
  rewrite fmap_cons in Hnd. apply NoDup_cons in Hnd as [Hid Hnd]. cbn.
  destruct (head l) as [s|]; cbn; [|by apply IH].
  apply NoDup_cons. split; [|by apply IH]. intros Hin. apply Hid.
  apply list_elem_of_fmap in Hin as ([id' s'] & Hfst & Hin). cbn in Hfst. subst id'.
  apply list_elem_of_omap in Hin as ([id'' l'] & Hin & Hhd).
  cbn in Hhd. apply fmap_Some in Hhd as (? & _ & [= <- _]).
  apply list_elem_of_fmap. by exists (id, l').
Qed.

Lemma id_pairs_NoDup (idmap : gmap string (list string)) : NoDup (id_pairs idmap).
Proof. eapply NoDup_fmap_1, id_pairs_fst_NoDup. Qed.

Lemma id_pairs_perm method order1 order2 :
  NoDup order1 -> order1 ≡ₚ order2 ->
  no_collision (build_idmap method order1) = true ->
  id_pairs (build_idmap method order1) ≡ₚ id_pairs (build_idmap method order2).
Proof.
  intros Hnd Hperm Hok. assert (Hnd2 : NoDup order2) by by rewrite <- Hperm.
  assert (Hok2 : no_collision (build_idmap method order2) = true).
  { by rewrite <- (no_collision_perm method order1 order2). }
  apply NoDup_Permutation; [apply id_pairs_NoDup..|].
  intros [id s]. rewrite !id_pairs_elem by done. by rewrite Hperm.
Qed.

Lemma try_methods_perm ms order1 order2 :
  NoDup order1 -> order1 ≡ₚ order2 ->
  match try_methods ms order1, try_methods ms order2 with
  | inl e1, inl e2 => e1 = e2
  | inr m1, inr m2 => id_pairs m1 ≡ₚ id_pairs m2
  | _, _ => False
  end.
Proof.
  intros Hnd Hperm. induction ms as [|method ms IH]; cbn; [done|].
  rewrite <- (no_collision_perm method order1 order2) by done.
  destruct (no_collision (build_idmap method order1)) eqn:Hok; [|done].
  by apply id_pairs_perm.
Qed.

(** The result does not depend on the order in which the set is walked. *)
Lemma compute_ids_over_perm order1 order2 :
  NoDup order1 -> order1 ≡ₚ order2 ->
  compute_ids_over order1 = compute_ids_over order2.
Proof.
  intros Hnd Hperm. unfold compute_ids_over.
  pose proof (try_methods_perm methods order1 order2 Hnd Hperm) as H.
  destruct (try_methods methods order1) as [e1|m1], (try_methods methods order2) as [e2|m2];
    try done; [by subst|].
  f_equal. apply (Sorted_unique pair_le).
  - apply Sorted_merge_sort, _.
  - apply Sorted_merge_sort, _.
  - by rewrite !merge_sort_Permutation.
Qed.

Lemma iteration_order_elements strings :
  iteration_order strings (elements (list_to_set strings : gset string)).
Proof.
  split; [apply NoDup_elements|]. intros s. by rewrite elem_of_elements, elem_of_list_to_set.
Qed.

Lemma iteration_order_perm strings order1 order2 :
  iteration_order strings order1 -> iteration_order strings order2 -> order1 ≡ₚ order2.
Proof.
  intros [Hnd1 H1] [Hnd2 H2]. apply NoDup_Permutation; [done..|].
  intros s. by rewrite H1, H2.
Qed.

Lemma id_pairs_perm_order method order :
  NoDup order -> no_collision (build_idmap method order) = true ->
  id_pairs (build_idmap method order) ≡ₚ (fun s => (method s, s)) <$> order.
Proof.
  intros Hnd Hok. apply NoDup_Permutation.
  - apply id_pairs_NoDup.
  - apply NoDup_fmap_2; [|done]. by intros s1 s2 [= _ ->].
  - intros [id s]. rewrite id_pairs_elem, list_elem_of_fmap by done. split.
    + intros [Hs ->]. by exists s.
    + by intros (s' & [= -> ->] & Hs).
Qed.

Lemma result_spec method order strings :
  iteration_order strings order ->
  no_collision (build_idmap method order) = true ->
  NoDup (merge_sort pair_le (id_pairs (build_idmap method order))).*1 /\
  NoDup (merge_sort pair_le (id_pairs (build_idmap method order))).*2 /\
  (forall s, s ∈ (merge_sort pair_le (id_pairs (build_idmap method order))).*2
             <-> s ∈ strings) /\
  Sorted pair_le (merge_sort pair_le (id_pairs (build_idmap method order))) /\
  (forall id s, (id, s) ∈ merge_sort pair_le (id_pairs (build_idmap method order))
                <-> s ∈ strings /\ id = method s).
Proof.
  intros [Hnd Hset] Hok.
  pose proof (id_pairs_perm_order method order Hnd Hok) as Hperm.
  rewrite <- (merge_sort_Permutation pair_le) in Hperm.
  assert (H2 : (merge_sort pair_le (id_pairs (build_idmap method order))).*2 ≡ₚ order).
  { rewrite Hperm, <- list_fmap_compose. by rewrite list_fmap_id. }
  split; [|split; [|split; [|split]]].
  - rewrite merge_sort_Permutation. apply id_pairs_fst_NoDup.
  - by rewrite H2.
  - intros s. by rewrite H2.
  - apply Sorted_merge_sort, _.
  - intros id s. rewrite merge_sort_Permutation, id_pairs_elem by done. by rewrite Hset.
Qed.

Lemma collides_order method strings order :
  iteration_order strings order ->
  no_collision (build_idmap method order) = false -> collides method strings.
Proof.
  intros [Hnd Hset] Hbad.
  destruct (collision_collides method order Hnd Hbad) as (s1 & s2 & H1 & H2 & Hne & Heq).
  exists s1, s2. by rewrite <- !Hset.
Qed.

(** C8 (id uniqueness).  In whatever order the set of the input strings is
    walked, the outcome is the same.  It is either the sorted list of the
    pairs (id, string) of a one-to-one assignment: every input string occurs
    in exactly one pair, no id occurs twice, and the ids are those of the
    simple substitution, or those of the strict substitution when the simple
    one collides; or RuntimeError, and then both substitutions collide. *)
Theorem id_uniqueness strings order :
  iteration_order strings order ->
  compute_ids_over order = compute_ids strings /\
  match compute_ids strings with
  | inr result =>
      NoDup result.*1 /\ NoDup result.*2 /\
      (forall s, s ∈ result.*2 <-> s ∈ strings) /\
      Sorted pair_le result /\
      exists method,
        (forall id s, (id, s) ∈ result <-> s ∈ strings /\ id = method s) /\
        (method = sub_simple \/ method = sub_strict /\ collides sub_simple strings)
  | inl exn =>
      exn = RuntimeError /\ collides sub_simple strings /\ collides sub_strict strings
  end.
Proof.
  intros Hord. pose proof (iteration_order_elements strings) as Hel. split.
  - destruct Hord as [Hnd ?]. apply compute_ids_over_perm; [done|].
    by eapply iteration_order_perm.
  - unfold compute_ids, compute_ids_over, methods. cbn [try_methods].
    destruct (no_collision (build_idmap sub_simple _)) eqn:H1.
    + destruct (result_spec _ _ _ Hel H1) as (R1 & R2 & R3 & R4 & R5).
      do 4 (split; [done|]). exists sub_simple. split; [done | by left].
    + pose proof (collides_order _ _ _ Hel H1) as Hc1.
      destruct (no_collision (build_idmap sub_strict _)) eqn:H2.
      * destruct (result_spec _ _ _ Hel H2) as (R1 & R2 & R3 & R4 & R5).
        do 4 (split; [done|]). exists sub_strict. split; [done | by right].
      * split; [done|]. split; [done|]. by eapply collides_order.
Qed.

(** ** Journal pages are walked to the end *)

Lemma buffer_item_journal des it :
  Forall null_ok des ->
  match it with IEntry e => is_Transaction e = false | IPosting _ => True end ->
  exists des',
    buffer_item des (resolve it).1 (resolve it).2 = inr des' /\ Forall null_ok des'.
Proof.
  intros Hok Hit. destruct it as [e|p]; cbn.
  - eexists. split; [done|]. apply Forall_app. split; [done|].
    apply Forall_singleton. by intros _.
  - destruct (index_key des (Txn (entry p)) fst) as [i|] eqn:Hi.
    + apply index_key_Some in Hi as (pre & [e' dp] & post & -> & <- & He & Hpre).
      cbn in He. subst e'. rewrite list_lookup_middle by done.
      apply Forall_app in Hok as [Hpre_ok Hpost_ok].
      apply Forall_cons in Hpost_ok as [Hpair Hpost_ok].
      destruct dp as [l|]; [|by specialize (Hpair eq_refl)].
      eexists. split; [done|].
      rewrite insert_app_r_alt, Nat.sub_diag by done. cbn.
      apply Forall_app. split; [done|]. apply Forall_cons. split; [|done].
      by intros [=].
    + eexists. split; [done|]. apply Forall_app. split; [done|].
      apply Forall_singleton. by intros [=].
Qed.

Lemma step_journal st it :
  Forall null_ok (date_entries st) ->
  match it with IEntry e => is_Transaction e = false | IPosting _ => True end ->
  exists records st',
    step st it = (records, inr st') /\ Forall null_ok (date_entries st').
Proof.
  intros Hok Hit. unfold step, flush_on_date_change.
  destruct (resolve it) as [e posting] eqn:Hres.
  destruct (decide (Some (entry_date e) = prev_date st)).
  - destruct (buffer_item_journal _ it Hok Hit) as (des' & Hb & Hok').
    rewrite Hres in Hb. cbn in Hb. rewrite Hb. by eexists _, _.
  - destruct (flush (balance st) (date_entries st)) as [recs b1]. cbn.
    destruct (buffer_item_journal [] it (Forall_nil_2 _) Hit) as (des' & Hb & Hok').
    rewrite Hres in Hb. cbn in Hb. rewrite Hb. by eexists _, _.
Qed.

Lemma run_journal st entries :
  Forall null_ok (date_entries st) -> journal_like entries ->
  exists records st', run st entries = (records, inr st').
Proof.
  revert st. induction entries as [|it rest IH]; intros st Hok Hj; cbn.
  - by eexists _, _.
  - apply Forall_cons in Hj as [Hit Hrest].
    destruct (step_journal st it Hok Hit) as (r1 & st1 & -> & Hok1).
    destruct (IH st1 Hok1 Hrest) as (r2 & st2 & ->). by eexists _, _.
Qed.

(** A journal page, which holds postings and entries that are not
    transactions, is walked to its end: the generator does not raise. *)
Lemma journal_iteration_completes entries :
  journal_like entries -> (iterate_with_balance entries).2 = None.
Proof.
  intros Hj. unfold iterate_with_balance.
  by destruct (run_journal initial_state entries (Forall_nil_2 _) Hj) as (r & st & ->).
Qed.

(** ** What ends the generator, and what it yields for plain listings *)

Lemma buffer_item_AttributeError des e posting exn :
  buffer_item des e posting = inl exn -> exn = AttributeError.
Proof.
  unfold buffer_item. destruct posting as [p|]; [|done].
  destruct (index_key des e fst) as [i|]; [|done].
  destruct (des !! i) as [[e' [l|]]|]; by intros [= <-].
Qed.

Lemma step_AttributeError st it records exn :
  step st it = (records, inl exn) -> exn = AttributeError.
Proof.
  unfold step. destruct (resolve it) as [e posting].
  destruct (flush_on_date_change st e) as [recs st1].
  destruct (buffer_item (date_entries st1) e posting) as [exn'|des] eqn:Hb; [|done].
  intros [= _ <-]. by eapply buffer_item_AttributeError.
Qed.

Lemma run_AttributeError st entries records exn :
  run st entries = (records, inl exn) -> exn = AttributeError.
Proof.
  revert st records. induction entries as [|it rest IH]; intros st records; cbn; [done|].
  destruct (step st it) as [r1 [exn'|st1]] eqn:Hs.
  - intros [= _ <-]. by eapply step_AttributeError.
  - destruct (run st1 rest) as [r2 res] eqn:Hr. intros [= _ ->]. by eapply IH.
Qed.

Lemma filter_about_nil e des : filter (about e) des = [] -> e ∉ des.*1.
Proof.
  induction des as [|pr des IH]; [intros _; apply not_elem_of_nil|].
  destruct (decide (about e pr)) as [Hpr|Hpr].
  - by rewrite filter_cons_True.
  - rewrite filter_cons_False by done. intros Hnil. rewrite fmap_cons.
    apply not_elem_of_cons. split; [|by apply IH]. unfold about in Hpr. congruence.
Qed.

Lemma buffered_blocked t des e posting des' :
  buffered des e posting des' -> blocked t des -> blocked t des'.
Proof.
  unfold blocked. intros Hb Hblk. destruct (decide (e = Txn t)) as [->|Hne].
  - destruct Hb as [|p Hp|p pre l post -> Hpre].
    + rewrite filter_app. by destruct (filter (about (Txn t)) des).
    + by rewrite filter_about_notin in Hblk.
    + by rewrite filter_app, filter_about_notin, filter_cons_True in Hblk.
  - by rewrite (buffered_other _ _ _ _ (Txn t) Hb Hne).
Qed.

Lemma blocked_raises t des p :
  entry p = t -> blocked t des ->
  buffer_item des (Txn t) (Some p) = inl AttributeError.
Proof.
  intros Hp Hblk. destruct (buffer_item des (Txn t) (Some p)) as [exn|des'] eqn:Hb.
  - by rewrite (buffer_item_AttributeError _ _ _ _ Hb).
  - exfalso. apply buffer_item_spec in Hb. unfold blocked in Hblk.
    inversion Hb as [|p' Hnotin|p' pre l post Hdes Hpre]; subst.
    + by rewrite filter_about_notin in Hblk.
    + by rewrite filter_app, filter_about_notin, filter_cons_True in Hblk.
Qed.

Lemma run_blocked t st mid records st' :
  Forall (fun it => entry_date (resolve it).1 = txn_date t) mid ->
  prev_date st = Some (txn_date t) -> blocked t (date_entries st) ->
  run st mid = (records, inr st') ->
  prev_date st' = Some (txn_date t) /\ blocked t (date_entries st').
Proof.
  revert st records. induction mid as [|it mid IH]; intros st records Hmid Hdate Hblk.
  - by intros [= _ <-].
  - apply Forall_cons in Hmid as [Hit Hmid]. intros Hr.
    apply run_cons_inr in Hr as (r1 & st1 & r2 & Hs & Hr & _).
    apply step_spec in Hs as (des & _ & Hb & Hprev & _ & _ & Hsame & _).
    rewrite Hit in Hprev, Hsame. destruct (Hsame (eq_sym Hdate)) as [_ ->].
    eapply IH; [done | done | | done]. by eapply buffered_blocked.
Qed.

(** A standalone posting that comes, within one date bucket, after the direct
    listing of its own transaction ends the generator with AttributeError:
    the pair of the transaction was buffered without a posting list, and the
    posting is appended to it. *)
Theorem posting_after_direct_listing pre t mid p rest :
  entry p = t ->
  Forall (fun it => (resolve it).1 ≠ Txn t) pre ->
  Forall (fun it => entry_date (resolve it).1 = txn_date t) mid ->
  (iterate_with_balance (pre ++ IEntry (Txn t) :: mid ++ IPosting p :: rest)).2
    = Some AttributeError.
Proof.
  intros Hp Hpre Hmid. unfold iterate_with_balance.
  destruct (run initial_state _) as [records [exn|st]] eqn:Hr.
  { by rewrite (run_AttributeError _ _ _ _ Hr). }
  exfalso.
  apply run_app_inr in Hr as (r1 & st1 & r2 & Hr1 & Hr & _).
  apply (run_other (Txn t)) in Hr1; [|done]. cbn in Hr1.
  rewrite filter_app in Hr1. apply app_eq_nil in Hr1 as [_ Hst1].
  apply run_cons_inr in Hr as (r3 & st2 & r4 & Hs & Hr & _).
  assert (prev_date st2 = Some (txn_date t) /\ blocked t (date_entries st2)) as [Hd2 Hb2].
  { apply step_spec in Hs as (des & Hdes & Hb & Hprev & _). cbn in Hb, Hprev.
    split; [done|]. inversion Hb as [Hst2| |]. unfold blocked.
    assert (filter (about (Txn t)) des = []) as Hnil.
    { rewrite <- Hdes, filter_app in Hst1. by apply app_eq_nil in Hst1 as [_ ?]. }
    by rewrite filter_app, Hnil, filter_cons_True. }
  apply run_app_inr in Hr as (r5 & st3 & r6 & Hr5 & Hr & _).
  destruct (run_blocked _ _ _ _ _ Hmid Hd2 Hb2 Hr5) as [Hd3 Hb3].
  apply run_cons_inr in Hr as (r7 & st4 & r8 & Hs4 & _).
  unfold step, flush_on_date_change in Hs4. cbn [resolve] in Hs4.
  rewrite Hp in Hs4. cbn [entry_date] in Hs4.
  destruct (decide (Some (txn_date t) = prev_date st3)) as [_|Hne]; [|by rewrite Hd3 in Hne].
  by rewrite (blocked_raises _ _ _ Hp Hb3) in Hs4.
Qed.

(** Flushing a bucket of directly listed entries. *)
Lemma flush_direct (b : Inventory) (es : list Entry) :
  flush b ((fun e => (e, None)) <$> es) = ((fun e => mkRecord e None None b) <$> es, b).
Proof.
  induction es as [|e es IH]; [done|]. rewrite fmap_cons, flush_cons. cbn.
  by rewrite IH.
Qed.

Lemma step_direct st e :
  step st (IEntry e) =
    if decide (Some (entry_date e) = prev_date st)
    then ([], inr (mkState (balance st) (prev_date st) (date_entries st ++ [(e, None)])))
    else ((flush (balance st) (date_entries st)).1,
          inr (mkState (flush (balance st) (date_entries st)).2 (Some (entry_date e))
                 [(e, None)])).
Proof.
  unfold step, flush_on_date_change. cbn [resolve buffer_item].
  destruct (decide (Some (entry_date e) = prev_date st)); [done|].
  by destruct (flush (balance st) (date_entries st)).
Qed.

Lemma run_direct (es : list Entry) st bucket :
  date_entries st = (fun e => (e, None)) <$> bucket ->
  exists records st' bucket',
    run st (IEntry <$> es) = (records, inr st') /\
    balance st' = balance st /\
    date_entries st' = (fun e => (e, None)) <$> bucket' /\
    records ++ ((fun e => mkRecord e None None (balance st)) <$> bucket')
      = (fun e => mkRecord e None None (balance st)) <$> (bucket ++ es).
Proof.
  revert st bucket. induction es as [|e es IH]; intros st bucket Hst.
  - exists [], st, bucket. by rewrite app_nil_r.
  - cbn [fmap list_fmap run]. rewrite step_direct.
    destruct (decide (Some (entry_date e) = prev_date st)) as [Hd|Hd].
    + destruct (IH (mkState (balance st) (prev_date st) (date_entries st ++ [(e, None)]))
                   (bucket ++ [e])) as (records & st' & bucket' & Hr & Hb & Hdes & Hrec).
      { cbn. by rewrite Hst, fmap_app. }
      rewrite Hr. exists records, st', bucket'. cbn in Hb, Hrec |- *.
      rewrite <- app_assoc in Hrec. done.
    + rewrite Hst, flush_direct. cbn [fst snd].
      destruct (IH (mkState (balance st) (Some (entry_date e)) [(e, None)]) [e])
        as (records & st' & bucket' & Hr & Hb & Hdes & Hrec); [done|].
      rewrite Hr. eexists _, st', bucket'. cbn in Hb, Hrec |- *.
      split; [done|]. split; [done|]. split; [done|].
      rewrite <- app_assoc, Hrec, fmap_app. done.
Qed.

(** A list of directly listed entries (what the conversions page passes) is
    walked to its end and yields one record per entry, in the order of the
    list: none has postings or a change, and the balance stays empty. *)
Theorem iterate_direct_listing (es : list Entry) :
  iterate_with_balance (IEntry <$> es)
    = ((fun e => mkRecord e None None Inventory_new) <$> es, None).
Proof.
  unfold iterate_with_balance.
  destruct (run_direct es initial_state []) as (records & st' & bucket' & -> & Hb & Hdes & Hrec);
    [done|].
  rewrite Hdes, Hb, flush_direct. cbn in Hrec |- *. by rewrite Hrec.
Qed.

(** The Balance column is the running sum of the Change column: the balance
    of a record is the balance of the record before it plus the positions of
    its own postings, and it is the sum of the positions of all the postings
    yielded up to and including it. *)
Theorem running_balance_prefix_sum entries i r :
  (iterate_with_balance entries).1 !! i = Some r ->
  rec_balance r =
    add_positions (position <$> default [] (rec_postings r))
      (balance_before (iterate_with_balance entries).1 i) /\
  rec_balance r =
    sum_positions (emitted_positions (take (S i) (iterate_with_balance entries).1)).
Proof.
  intros Hi. pose proof (iterate_chained entries) as Hc.
  destruct (chained_lookup _ _ _ _ Hc Hi) as [_ Hb]. split.
  - by rewrite Hb, flush_one_balance, balance_before_last.
  - rewrite <- (take_drop (S i) (iterate_with_balance entries).1) in Hc.
    apply chained_app in Hc as [Hc _].
    unfold sum_positions. rewrite <- (chained_last_balance _ _ Hc).
    rewrite (take_S_r _ _ _ Hi). unfold last_balance. by rewrite last_snoc.
Qed.

(** ** The postings of a record *)

Lemma buffered_owned it des des' :
  buffered des (resolve it).1 (resolve it).2 des' ->
  Forall owned des -> Forall owned des'.
Proof.
  intros Hb Hok. destruct it as [e|p]; cbn in Hb; inversion Hb; subst.
  - apply Forall_app. split; [done|]. by apply Forall_singleton.
  - apply Forall_app. split; [done|]. apply Forall_singleton.
    split; [done|]. by apply Forall_singleton.
  - apply Forall_app in Hok as [Hpre Hpost]. apply Forall_app. split; [done|].
    apply Forall_cons in Hpost as [[Hne Hown] Hpost]. apply Forall_cons. split; [|done].
    split; [by intros [? _]%app_eq_nil|]. apply Forall_app. split; [done|].
    by apply Forall_singleton.
Qed.

Lemma step_owned st it :
  Forall owned (date_entries st) ->
  Forall owned (rec_pair <$> (step st it).1) /\
  forall st', (step st it).2 = inr st' -> Forall owned (date_entries st').
Proof.
  intros Hok. split.
  - rewrite step_records. case_decide; [by apply Forall_nil|].
    by rewrite flush_pairs.
  - intros st' Hs. destruct (step st it) as [recs res] eqn:Hstep. cbn in Hs. subst res.
    apply step_spec in Hstep as (des & Hdes & Hb & _).
    apply (buffered_owned _ _ _ Hb). rewrite <- Hdes in Hok.
    by apply Forall_app in Hok as [_ ?].
Qed.

Lemma run_owned st entries :
  Forall owned (date_entries st) ->
  Forall owned (rec_pair <$> (run st entries).1) /\
  forall st', (run st entries).2 = inr st' -> Forall owned (date_entries st').
Proof.
  revert st. induction entries as [|it rest IH]; intros st Hok; cbn.
  - split; [by apply Forall_nil | by intros st' [= <-]].
  - destruct (step_owned st it Hok) as [H1 H2].
    destruct (step st it) as [r1 [exn|st1]]; cbn in *; [done|].
    destruct (IH st1 (H2 _ eq_refl)) as [H3 H4].
    destruct (run st1 rest) as [r2 res]. cbn in *. split; [|done].
    rewrite fmap_app. by apply Forall_app.
Qed.

(** Every record the generator yields with a posting list is the record of
    a transaction, the list is not empty, it holds postings of this
    transaction only, and the change of the record is the sum of their
    positions.  This holds of the records yielded before an exception as
    well. *)
Theorem record_postings_owned entries r postings :
  r ∈ (iterate_with_balance entries).1 ->
  rec_postings r = Some postings ->
  postings ≠ [] /\
  Forall (fun p => rec_entry r = Txn (entry p)) postings /\
  rec_change r = Some (sum_positions (position <$> postings)).
Proof.
  intros Hr Hp.
  assert (Hown : Forall owned (rec_pair <$> (iterate_with_balance entries).1)).
  { unfold iterate_with_balance.
    destruct (run_owned initial_state entries) as [H1 H2]; [by apply Forall_nil|].
    destruct (run initial_state entries) as [r1 [exn|st]]; cbn in *; [done|].
    rewrite fmap_app, flush_pairs. apply Forall_app. split; [done|]. by apply H2. }
  rewrite Forall_fmap, Forall_forall in Hown. specialize (Hown _ Hr).
  unfold owned in Hown. cbn in Hown. rewrite Hp in Hown. destruct Hown as [Hne Hall].
  split; [done|]. split.
  - eapply Forall_impl; [exact Hall|]. by intros p ->.
  - apply list_elem_of_lookup in Hr as [i Hi].
    destruct (chained_lookup _ _ _ _ (iterate_chained entries) Hi) as [Hc _].
    rewrite Hc, Hp. by destruct postings.
Qed.


(** ** The tables of entries *)

Section EntriesTableFacts.

Variable data : data_flags.

Lemma posting_rows_Some postings t legs :
  exists rows,
    posting_rows data (Some postings) t legs = (rows, None) /\
    omap row_balance rows = [] /\ omap row_entry rows = [].
Proof.
  induction legs as [|leg legs (rows & IH & Hb & He)]; [by exists []|].
  cbn [posting_rows]. rewrite IH. eexists. split; [done|]. by cbn.
Qed.

Lemma posting_rows_error leg_postings t legs rows err :
  posting_rows data leg_postings t legs = (rows, Some err) -> err = TypeError.
Proof.
  revert rows. induction legs as [|leg legs IH]; intros rows; [done|]. cbn.
  destruct leg_postings as [postings|]; [|by intros [= _ <-]].
  destruct (posting_rows data (Some postings) t legs) as [rows' err'] eqn:Hrows.
  intros [= _ ->]. by eapply IH.
Qed.

Lemma record_rows_error render_postings r rows err :
  record_rows data render_postings r = (rows, Some err) -> err = TypeError.
Proof.
  unfold record_rows. destruct (rec_entry r) as [| | | |t| | |]; try done.
  destruct render_postings; [|done].
  destruct (posting_rows data (rec_postings r) t (txn_postings t)) as [rows' err'] eqn:Hrows.
  intros [= _ ->]. by eapply posting_rows_error.
Qed.

Lemma record_rows_ok render_postings r :
  renderable r ->
  exists rows,
    record_rows data render_postings r = (rows, None) /\
    omap row_balance rows = [rec_balance r] /\ omap row_entry rows = [rec_entry r].
Proof.
  intros Hok. unfold record_rows, renderable in *.
  destruct (rec_entry r) as [| | | |t| | |] eqn:He; try (by eexists).
  destruct render_postings; [|by eexists].
  destruct (txn_postings t) as [|leg legs] eqn:Hlegs; [by eexists|].
  destruct (Hok t eq_refl) as [postings Hp]; [by rewrite Hlegs|]. rewrite Hp.
  destruct (posting_rows_Some postings t (leg :: legs)) as (rows & -> & Hb & Hent).
  eexists. split; [done|]. cbn. by rewrite Hb, Hent.
Qed.

Lemma table_rows_error render_postings records rows err :
  table_rows (record_rows data render_postings) records = (rows, Some err) -> err = TypeError.
Proof.
  revert rows. induction records as [|r records IH]; intros rows; [done|]. cbn.
  destruct (record_rows data render_postings r) as [rows1 [err1|]] eqn:Hr.
  - intros [= _ <-]. by eapply record_rows_error.
  - destruct (table_rows _ records) as [rows2 err2]. intros [= _ ->]. by eapply IH.
Qed.

Lemma table_rows_ok render_postings records :
  Forall renderable records ->
  exists rows,
    table_rows (record_rows data render_postings) records = (rows, None) /\
    omap row_balance rows = rec_balance <$> records /\
    omap row_entry rows = rec_entry <$> records.
Proof.
  induction 1 as [|r records Hr _ (rows & IH & Hb & He)]; [by exists []|].
  destruct (record_rows_ok render_postings r Hr) as (rows1 & Hrows1 & Hb1 & He1).
  cbn. rewrite Hrows1, IH. eexists. split; [done|].
  by rewrite !omap_app, Hb, He, Hb1, He1.
Qed.

(** A record that cannot be written ends the loop with TypeError. *)
Lemma table_rows_stuck records r t :
  r ∈ records -> rec_entry r = Txn t -> txn_postings t ≠ [] -> rec_postings r = None ->
  (table_rows (record_rows data true) records).2 = Some TypeError.
Proof.
  intros Hin He Hlegs Hnone.
  destruct (table_rows (record_rows data true) records) as [rows [err|]] eqn:Hrows.
  { cbn. f_equal. by eapply table_rows_error. }
  exfalso. revert rows Hrows.
  induction records as [|r' records IH]; intros rows; [by apply elem_of_nil in Hin|].
  cbn. destruct (record_rows data true r') as [rows1 [err1|]] eqn:Hr'; [done|].
  destruct (table_rows _ records) as [rows2 err2] eqn:Hrest. intros [= _ ->].
  apply elem_of_cons in Hin as [<-|Hin]; [|by eapply IH].
  unfold record_rows in Hr'. rewrite He, Hnone in Hr'.
  destruct (txn_postings t); [done|]. by cbn in Hr'.
Qed.

Lemma iterate_last_balance entries records :
  iterate_with_balance entries = (records, None) ->
  last_balance Inventory_new records = sum_positions (item_positions entries).
Proof.
  intros Hit. pose proof (iterate_chained entries) as Hc. rewrite Hit in Hc. cbn in Hc.
  rewrite (chained_last_balance _ _ Hc). apply add_positions_perm.
  destruct (iterate_completes_inv _ _ Hit) as (r1 & st & Hr & ->).
  unfold emitted_positions. rewrite fmap_app, flush_pairs.
  by rewrite (run_positions _ _ _ _ Hr).
Qed.

(** The records of a completed walk that have no posting list are those of
    the directly listed entries. *)
Lemma iterate_null_records entries records r :
  iterate_with_balance entries = (records, None) ->
  r ∈ records -> rec_postings r = None -> rec_entry r ∈ direct_entries entries.
Proof.
  intros Hit Hr Hnone.
  destruct (iterate_completes_inv _ _ Hit) as (r1 & st & Hrun & ->).
  pose proof (run_null _ _ _ _ Hrun) as Hnull. cbn in Hnull.
  rewrite <- (flush_pairs (balance st) (date_entries st)), <- fmap_app in Hnull.
  assert (Hin : rec_pair r ∈ filter null_pair
                  (rec_pair <$> r1 ++ (flush (balance st) (date_entries st)).1)).
  { apply list_elem_of_filter. split; [done|]. by apply list_elem_of_fmap_2. }
  rewrite Hnull in Hin. apply list_elem_of_fmap in Hin as (e & [= -> _] & He). done.
Qed.

Lemma direct_entries_elem entries e :
  e ∈ direct_entries entries <-> IEntry e ∈ entries.
Proof.
  unfold direct_entries. rewrite list_elem_of_omap. split.
  - by intros ([e'|p] & Hin & [= <-]).
  - intros Hin. by exists (IEntry e).
Qed.

(** The journal of an account is written to its last row.  The table has
    one entry row per record of the walk, in order, and the Balance cell of
    its last entry row holds the sum, merged by lot, of the positions of all
    the postings listed. *)
Theorem account_journal_rendered entries render_postings :
  journal_like entries ->
  exists rows,
    entries_table_with_balance data entries render_postings = (rows, None) /\
    omap row_entry rows = rec_entry <$> (iterate_with_balance entries).1 /\
    omap row_balance rows = rec_balance <$> (iterate_with_balance entries).1 /\
    forall b, last (omap row_balance rows) = Some b ->
      b = sum_positions (item_positions entries).
Proof.
  intros Hj.
  assert (Hnone : (iterate_with_balance entries).2 = None).
  { unfold iterate_with_balance.
    by destruct (run_journal initial_state entries (Forall_nil_2 _) Hj) as (r & st & ->). }
  unfold entries_table_with_balance.
  destruct (iterate_with_balance entries) as [records exn] eqn:Hit. cbn in Hnone. subst exn.
  destruct (table_rows_ok render_postings records) as (rows & -> & Hb & He).
  { apply Forall_forall. intros r Hr t Ht Hlegs.
    destruct (rec_postings r) as [l|] eqn:Hp; [by eexists|]. exfalso.
    pose proof (iterate_null_records _ _ _ Hit Hr Hp) as Hin.
    apply direct_entries_elem in Hin. unfold journal_like in Hj.
    rewrite Forall_forall in Hj. specialize (Hj _ Hin). cbn in Hj. by rewrite Ht in Hj. }
  exists rows. split; [done|]. split; [done|]. split; [done|].
  intros b Hlast. rewrite Hb, fmap_last in Hlast.
  rewrite <- (iterate_last_balance _ _ Hit). unfold last_balance.
  destruct (last records) as [r|]; [|done]. cbn in Hlast |- *. congruence.
Qed.

(** The table with balance cannot be written for a list that names a
    transaction with legs directly: the record of this transaction has no
    posting list, and [posting in leg_postings] raises TypeError at its
    first leg, unless the generator has raised before. *)
Theorem direct_transaction_not_rendered pre t post :
  txn_postings t ≠ [] ->
  is_Some (entries_table_with_balance data (pre ++ IEntry (Txn t) :: post) true).2 /\
  ((iterate_with_balance (pre ++ IEntry (Txn t) :: post)).2 = None ->
   (entries_table_with_balance data (pre ++ IEntry (Txn t) :: post) true).2 = Some TypeError).
Proof.
  intros Hlegs. unfold entries_table_with_balance.
  destruct (iterate_with_balance (pre ++ IEntry (Txn t) :: post)) as [records exn] eqn:Hit.
  destruct exn as [exn|].
  - split; [|done].
    destruct (table_rows (record_rows data true) records) as [rows [err|]]; by eexists.
  - assert (Hstuck : (table_rows (record_rows data true) records).2 = Some TypeError).
    { assert (Hin : (Txn t, None) ∈ filter null_pair (rec_pair <$> records)).
      { destruct (iterate_completes_inv _ _ Hit) as (r1 & st & Hr & ->).
        rewrite fmap_app, flush_pairs, (run_null _ _ _ _ Hr). cbn.
        apply list_elem_of_fmap. exists (Txn t). split; [done|].
        apply direct_entries_elem. set_solver. }
      apply list_elem_of_filter in Hin as [_ Hin].
      apply list_elem_of_fmap in Hin as (r & [= He Hp] & Hin).
      by eapply table_rows_stuck. }
    destruct (table_rows (record_rows data true) records) as [rows err]. cbn in Hstuck.
    subst err. split; [by eexists | done].
Qed.

Lemma table_rows_plain render_postings records :
  table_rows (plain_record_rows data render_postings) records
    = (records ≫= (fun r => (plain_record_rows data render_postings r).1), None).
Proof.
  induction records as [|r records IH]; [done|]. cbn [table_rows]. rewrite IH, bind_cons.
  unfold plain_record_rows.
  destruct (rec_entry r) as [| | | |t| | |]; try done. by destruct render_postings.
Qed.

(** [entries_table data] never raises of its own: it ends with an exception only
    when the generator does. *)
Lemma entries_table_error account_postings render_postings :
  (entries_table data account_postings render_postings).2
    = Raised <$> (iterate_with_balance account_postings).2.
Proof.
  unfold entries_table. destruct (iterate_with_balance account_postings) as [records exn].
  by rewrite table_rows_plain.
Qed.

Variable transaction_has_conversion : Transaction -> bool.

(** The table of the conversions page is always written to its end.  It
    shows the transactions of the view that have a conversion, each once for
    every time the view lists it, in the order of the view, each followed
    by one row per leg. *)
Theorem conversions_rendered (entries : list Entry) :
  conversions data transaction_has_conversion entries =
    (filter (fun t => transaction_has_conversion t = true) (filter_type_Transaction entries)
       ≫= (fun t =>
             EntryRow (rowtype data (Txn t)) (extra_class data (Txn t))
               (Some (txn_flag t)) (Txn t) None
             :: ((fun leg => PostingRow (posting_classes data leg) t leg)
                   <$> txn_postings t)),
     None).
Proof.
  unfold conversions, entries_table, get_conversion_entries, iterate_with_balance.
  destruct (run_direct
              (Txn <$> filter (fun t => transaction_has_conversion t = true)
                         (filter_type_Transaction entries)) initial_state [])
    as (records & st' & bucket' & -> & Hb & Hdes & Hrec); [done|].
  rewrite Hdes, Hb, flush_direct. cbn [fst]. cbn [app] in Hrec.
  rewrite Hrec, table_rows_plain. clear Hrec. f_equal.
  induction (filter _ (filter_type_Transaction entries)) as [|t ts IH]; [done|].
  rewrite !fmap_cons, !bind_cons, IH. done.
Qed.

End EntriesTableFacts.

(** ** Operating currencies listed twice, and the order of the rows *)

Lemma currency_cells_ValueError balance_cost currencies positions exn :
  currency_cells balance_cost currencies positions = inl exn -> exn = ValueError.
Proof.
  revert positions. induction currencies as [|c cs IH]; intros positions; [done|].
  cbn [currency_cells].
  destruct (get_position balance_cost (mkLot c None None)) as [p|].
  - destruct (list_remove_first p positions) as [positions1|]; [|by intros [= <-]].
    destruct (currency_cells balance_cost cs positions1) as [exn'|[cells rest]] eqn:Hcs;
      [|done].
    intros [= <-]. by eapply IH.
  - destruct (currency_cells balance_cost cs positions) as [exn'|[cells rest]] eqn:Hcs;
      [|done].
    intros [= <-]. by eapply IH.
Qed.

Lemma currency_cells_repeated balance_cost cs1 c cs2 positions p :
  NoDup positions -> c ∈ cs2 ->
  get_position balance_cost (mkLot c None None) = Some p ->
  currency_cells balance_cost (cs1 ++ c :: cs2) positions = inl ValueError.
Proof.
  intros Hnd Hc Hp.
  destruct (currency_cells balance_cost (cs1 ++ c :: cs2) positions)
    as [exn|[cells rest]] eqn:Hcells.
  { by rewrite (currency_cells_ValueError _ _ _ _ Hcells). }
  exfalso. apply currency_cells_spec in Hcells as [_ Hperm].
  rewrite <- Hperm in Hnd. apply NoDup_app in Hnd as [Hnd _].
  apply list_elem_of_split in Hc as (cs3 & cs4 & ->).
  unfold matched_positions in Hnd.
  rewrite omap_app in Hnd. cbn in Hnd. rewrite Hp in Hnd.
  rewrite omap_app in Hnd. cbn in Hnd. rewrite Hp in Hnd.
  apply NoDup_app in Hnd as (_ & _ & Hnd). apply NoDup_cons in Hnd as [Hnotin _].
  apply Hnotin. apply elem_of_app. right. apply list_elem_of_here.
Qed.

Lemma tree_table_rows_raises fill lines ra exn :
  (forall ra' exn', fill ra' = inl exn' -> exn' = exn) ->
  ra ∈ lines -> fill ra = inl exn -> tree_table_rows fill lines = inl exn.
Proof.
  intros Honly Hra Hfill.
  destruct (tree_table_rows fill lines) as [exn'|rows] eqn:Hrows.
  - f_equal. clear Hra Hfill. revert exn' Hrows.
    induction lines as [|ra' lines IH]; intros exn'; [done|]. cbn.
    destruct (fill ra') as [exn1|[cells classes]] eqn:Hf.
    + intros [= <-]. by eapply Honly.
    + destruct (tree_table_rows fill lines) as [exn2|rows]; [|done].
      intros [= <-]. by apply IH.
  - apply tree_table_rows_spec in Hrows as (Hall & _).
    destruct (Hall _ Hra) as (cells & classes & Hok). congruence.
Qed.

Lemma active_in_set tree ra :
  ra ∈ nodes tree -> active ra ->
  ra_name ra ∈ ra_name <$> mark_from_leaves is_account_active tree.
Proof.
  intros Hra Hact. apply list_elem_of_fmap_2. unfold mark_from_leaves.
  apply list_elem_of_filter. split; [by apply marked_spec | done].
Qed.

Section TableOfBalancesMore.

Variable get_cost : Inventory -> Inventory.

Lemma balance_cells_ValueError active_set currencies ra exn :
  balance_cells get_cost active_set currencies ra = inl exn -> exn = ValueError.
Proof.
  unfold balance_cells. destruct (bool_decide _ && negb _); [done|].
  destruct (currency_cells _ _ _) as [exn'|[cells rest]] eqn:Hcells; [|done].
  intros [= <-]. by eapply currency_cells_ValueError.
Qed.

Lemma balance_cells_rendered active_set currencies ra cells classes :
  balance_cells get_cost active_set currencies ra = inr (cells, classes) ->
  (cells ≠ [] <-> rendered active_set ra).
Proof.
  intros Hfill. pose proof (balance_cells_skip _ _ _ _ _ _ Hfill) as Hskip.
  unfold rendered. split.
  - intros Hne. destruct (decide (ra_name ra ∈ active_set)); [by left|]. right.
    destruct (is_account_root (ra_name ra)); [done|]. exfalso. by apply Hne, Hskip.
  - intros Hshown Hnil. apply Hskip in Hnil as [H1 H2].
    destruct Hshown; [done | congruence].
Qed.

(** An operating currency listed twice makes the table fail as soon as one
    of the nodes to be written has a position in that currency: the second
    [positions.remove(position)] raises ValueError. *)
Theorem repeated_currency_ValueError tree start_node_name cs1 c cs2 ra p :
  c ∈ cs2 ->
  ra ∈ render_lines tree start_node_name ->
  active ra \/ is_account_root (ra_name ra) = true ->
  get_position (get_cost (ra_balance ra)) (mkLot c None None) = Some p ->
  table_of_balances get_cost tree start_node_name (cs1 ++ c :: cs2) = inl ValueError.
Proof.
  intros Hc Hline Hshown Hp. unfold table_of_balances, tree_table.
  destruct (find_node tree start_node_name) as [start|] eqn:Hfind.
  2:{ unfold render_lines in Hline. rewrite Hfind in Hline. by apply elem_of_nil in Hline. }
  apply (tree_table_rows_raises _ _ ra); [|done|].
  - intros ra' exn'. apply balance_cells_ValueError.
  - unfold balance_cells.
    assert (bool_decide (ra_name ra ∉ ra_name <$> mark_from_leaves is_account_active tree)
            && negb (is_account_root (ra_name ra)) = false) as ->.
    { apply andb_false_iff. destruct Hshown as [Hact|Hroot].
      - left. apply bool_decide_eq_false. intros Hnot. apply Hnot.
        apply active_in_set; [|done]. by eapply render_lines_nodes.
      - right. by rewrite Hroot. }
    rewrite (currency_cells_repeated _ cs1 c cs2 _ p); [done | | done | done].
    apply get_positions_NoDup.
Qed.

Lemma tree_table_rows_filter active_set currencies lines rows :
  tree_table_rows (balance_cells get_cost active_set currencies) lines = inr rows ->
  row_account <$> rows = filter (rendered active_set) lines.
Proof.
  revert rows. induction lines as [|ra lines IH]; intros rows; cbn [tree_table_rows].
  - by intros [= <-].
  - destruct (balance_cells get_cost active_set currencies ra) as [exn|[cells classes]] eqn:Hfill;
      [done|].
    destruct (tree_table_rows _ lines) as [exn|rows'] eqn:Hrest; [done|].
    pose proof (balance_cells_rendered _ _ _ _ _ Hfill) as Hshown.
    intros [= <-]. destruct cells as [|cell cells].
    + rewrite filter_cons_False; [by apply IH|]. intros H. by apply Hshown in H.
    + rewrite filter_cons_True by (by apply Hshown). rewrite fmap_cons. cbn.
      f_equal. by apply IH.
Qed.

(** The rows of a table that is written follow the lines of the subtree:
    the nodes of the rows are, in the order of the lines and with nothing
    left out or repeated, the nodes whose name is in the active set or names
    a category root.  A node that shares its name with an active node is
    written as well. *)
Theorem rows_follow_lines tree start_node_name currencies rows :
  table_of_balances get_cost tree start_node_name currencies = inr rows ->
  row_account <$> rows =
    filter (rendered (ra_name <$> mark_from_leaves is_account_active tree))
      (render_lines tree start_node_name).
Proof.
  intros Htab. unfold table_of_balances in Htab. apply tree_table_spec in Htab.
  by eapply tree_table_rows_filter.
Qed.

End TableOfBalancesMore.

(** ** When the table of balances is written *)



Section TableOfBalancesWritten.

Variable get_cost : Inventory -> Inventory.




End TableOfBalancesWritten.

(** ** The keys of the cache and what it holds *)

Lemma str_split_nonempty sep s : str_split sep s ≠ [].
Proof.
  destruct s as [|c rest]; cbn; [done|].
  destruct (decide (c = sep)); [done|]. by destruct (str_split sep rest).
Qed.

Lemma str_split_free sep s :
  Forall (fun component => str_contains sep component = false) (str_split sep s).
Proof.
  induction s as [|c rest IH]; cbn.
  - by apply Forall_singleton.
  - destruct (decide (c = sep)) as [->|Hne].
    + by apply Forall_cons.
    + destruct (str_split sep rest) as [|component components].
      * apply Forall_singleton. cbn. by rewrite bool_decide_eq_false_2.
      * apply Forall_cons in IH as [Hc Hcs]. apply Forall_cons. split; [|done].
        cbn. by rewrite bool_decide_eq_false_2.
Qed.

Lemma str_split_free_string sep s :
  str_contains sep s = false -> str_split sep s = [s].
Proof.
  induction s as [|c rest IH]; cbn; [done|].
  intros [Hc Hrest]%orb_false_iff. apply bool_decide_eq_false in Hc.
  destruct (decide (c = sep)); [done|]. by rewrite (IH Hrest).
Qed.

Lemma str_split_append sep s rest :
  str_contains sep s = false ->
  str_split sep (s +:+ String sep rest) = s :: str_split sep rest.
Proof.
  induction s as [|c s IH].
  - intros _. change (EmptyString +:+ String sep rest) with (String sep rest).
    cbn [str_split]. by rewrite decide_True.
  - cbn [str_contains]. intros [Hc Hs]%orb_false_iff. apply bool_decide_eq_false in Hc.
    change (String c s +:+ String sep rest) with (String c (s +:+ String sep rest)).
    cbn [str_split]. rewrite decide_False by done. by rewrite (IH Hs).
Qed.

(** Splitting what was joined gives the components back. *)
Lemma str_split_concat sep components :
  components ≠ [] ->
  Forall (fun component => str_contains sep component = false) components ->
  str_split sep (String.concat (String sep EmptyString) components) = components.
Proof.
  induction components as [|c1 [|c2 components] IH]; intros Hne Hfree; [done| |].
  - rewrite Forall_singleton in Hfree.
    change (String.concat (String sep EmptyString) [c1]) with c1.
    by apply str_split_free_string.
  - apply Forall_cons in Hfree as [H1 Hfree].
    change (String.concat (String sep EmptyString) (c1 :: c2 :: components))
      with (c1 +:+ String sep (String.concat (String sep EmptyString) (c2 :: components))).
    rewrite str_split_append by done. f_equal. by apply IH.
Qed.

(** Two requests share an entry of the cache exactly when their paths agree
    on their first [path_depth + 1] components: joining the components with
    slashes loses nothing, as no component holds a slash. *)
Theorem view_id_components path_depth path1 path2 :
  request_view_id path_depth path1 = request_view_id path_depth path2 <->
  take (path_depth + 1) (str_split "/" path1) = take (path_depth + 1) (str_split "/" path2).
Proof.
  split; [|unfold request_view_id, view_id; by intros ->].
  unfold request_view_id, view_id. intros Heq.
  assert (Hsplit : forall path,
            str_split "/" (String.concat "/" (take (path_depth + 1) (str_split "/" path)))
              = take (path_depth + 1) (str_split "/" path)).
  { intros path. apply str_split_concat.
    - rewrite Nat.add_1_r. pose proof (str_split_nonempty "/" path).
      by destruct (str_split "/" path).
    - apply Forall_take, str_split_free. }
  by rewrite <- (Hsplit path1), <- (Hsplit path2), Heq.
Qed.

(** The keys of the routes.  The view of all the transactions is kept
    under [/view/all] and the view of a year under [/view/year/] followed by
    the year, whatever page of the view is asked for. *)
Theorem route_view_ids year rest :
  str_contains "/" year = false ->
  request_view_id 2 ("/view/all/" +:+ rest) = "/view/all" /\
  request_view_id 3 ("/view/year/" +:+ year +:+ String "/" rest) = "/view/year/" +:+ year.
Proof.
  intros Hyear. unfold request_view_id, view_id. split.
  - change ("/view/all/" +:+ rest)
      with ("" +:+ String "/" ("view" +:+ String "/" ("all" +:+ String "/" rest))).
    by rewrite !str_split_append by done.
  - change ("/view/year/" +:+ year +:+ String "/" rest)
      with ("" +:+ String "/" ("view" +:+ String "/" ("year" +:+ String "/"
              (year +:+ String "/" rest)))).
    by rewrite !str_split_append by done.
Qed.

Section ViewCacheContents.

Context {View : Type}.
Variable callback : nat -> list string -> exception + View.

Lemma wrapper_new_entry path_depth components (a : @application View) key view :
  views (wrapper callback path_depth components a).1 !! key = Some view ->
  views a !! key = Some view \/
  view_id path_depth components = key /\
  (wrapper callback path_depth components a).2 = inr view.
Proof.
  unfold wrapper. destruct (views a !! view_id path_depth components) as [v|] eqn:Hv.
  - cbn. by left.
  - destruct (callback _ _) as [exn|v]; cbn; [by left|].
    destruct (decide (view_id path_depth components = key)) as [<-|Hne].
    + rewrite lookup_insert_eq. intros [= <-]. by right.
    + rewrite lookup_insert_ne by done. by left.
Qed.

Lemma serve_contents path_depth requests (a : @application View) :
  (forall j cj view,
     requests !! j = Some cj ->
     (serve callback path_depth requests a).2 !! j = Some (inr view) ->
     views (serve callback path_depth requests a).1 !! view_id path_depth cj = Some view) /\
  (forall key view,
     views (serve callback path_depth requests a).1 !! key = Some view ->
     views a !! key = Some view \/
     exists j cj,
       requests !! j = Some cj /\ view_id path_depth cj = key /\
       (serve callback path_depth requests a).2 !! j = Some (inr view)).
Proof.
  revert a. induction requests as [|c rest IH]; intros a.
  - split; [by intros j cj view [=] | by left].
  - rewrite serve_cons. cbn [fst snd].
    destruct (IH (wrapper callback path_depth c a).1) as [IH1 IH2]. split.
    + intros [|j] cj view Hj Hres; cbn in Hj, Hres.
      * injection Hj as ->. injection Hres as Hres.
        apply wrapper_returns_stored in Hres. by apply serve_hit.
      * by eapply IH1.
    + intros key view Hkey. destruct (IH2 _ _ Hkey) as [Hw|(j & cj & Hj & Hid & Hres)].
      * apply wrapper_new_entry in Hw as [?|[Hid Hres]]; [by left|].
        right. exists 0, c. cbn. by rewrite Hres.
      * right. by exists (S j), cj.
Qed.

(** Requests served one after the other from an empty cache leave in it
    exactly the views they were handed: the view a request got is the one
    stored under the key of the request, entries are neither replaced nor
    removed, and nothing else is stored. *)
Theorem cache_holds_served_views path_depth requests :
  (forall j cj view,
     requests !! j = Some cj ->
     (serve callback path_depth requests initial_app).2 !! j = Some (inr view) ->
     views (serve callback path_depth requests initial_app).1 !! view_id path_depth cj
       = Some view) /\
  (forall key view,
     views (serve callback path_depth requests initial_app).1 !! key = Some view ->
     exists j cj,
       requests !! j = Some cj /\ view_id path_depth cj = key /\
       (serve callback path_depth requests initial_app).2 !! j = Some (inr view)) /\
  (forall more key view,
     views (serve callback path_depth requests initial_app).1 !! key = Some view ->
     views (serve callback path_depth more
              (serve callback path_depth requests initial_app).1).1 !! key = Some view).
Proof.
  destruct (serve_contents path_depth requests initial_app) as [H1 H2].
  split; [done|]. split.
  - intros key view Hkey. destruct (H2 _ _ Hkey) as [Hinit|?]; [|done].
    cbn in Hinit. by rewrite lookup_empty in Hinit.
  - intros more key view Hkey. by apply serve_hit.
Qed.

End ViewCacheContents.

(** ** Links to accounts *)

Section AccountLinkFacts.

Variable get_url : bottle -> string -> exception + string.
Variable account_leaf_name : string -> string.

Lemma account_link_miss request_app account_name leafonly st :
  only_names st ->
  only_names (account_link get_url account_leaf_name request_app account_name leafonly st).1 /\
  urls_built (account_link get_url account_leaf_name request_app account_name leafonly st).1
    = urls_built st ++ [str_replace ":" "/" account_name] /\
  (account_link get_url account_leaf_name request_app account_name leafonly st).2
    = built_link get_url account_leaf_name request_app account_name leafonly.
Proof.
  intros Hnames. unfold account_link, built_link. rewrite Hnames.
  destruct (get_url request_app (str_replace ":" "/" account_name)) as [exn|url]; cbn.
  - done.
  - split; [|done]. intros app' name'. cbn. by rewrite lookup_insert_ne.
Qed.

Lemma account_links_cons call calls st :
  account_links get_url account_leaf_name (call :: calls) st =
    ((account_links get_url account_leaf_name calls
        (account_link get_url account_leaf_name call.1.1 call.1.2 call.2 st).1).1,
     (account_link get_url account_leaf_name call.1.1 call.1.2 call.2 st).2
       :: (account_links get_url account_leaf_name calls
             (account_link get_url account_leaf_name call.1.1 call.1.2 call.2 st).1).2).
Proof.
  destruct call as [[request_app account_name] leafonly]. cbn.
  destruct (account_link _ _ _ _ _ _) as [st1 link]. cbn.
  by destruct (account_links _ _ _ _).
Qed.

Lemma account_links_miss calls st :
  only_names st ->
  only_names (account_links get_url account_leaf_name calls st).1 /\
  urls_built (account_links get_url account_leaf_name calls st).1
    = urls_built st
        ++ ((fun call : bottle * string * bool => str_replace ":" "/" call.1.2) <$> calls) /\
  (account_links get_url account_leaf_name calls st).2
    = (fun call : bottle * string * bool =>
         built_link get_url account_leaf_name call.1.1 call.1.2 call.2) <$> calls.
Proof.
  revert st. induction calls as [|call calls IH]; intros st Hnames.
  - cbn. by rewrite app_nil_r.
  - rewrite account_links_cons. cbn [fst snd].
    destruct (account_link_miss call.1.1 call.1.2 call.2 st Hnames) as (Hn1 & Hu1 & Hl1).
    destruct (IH _ Hn1) as (Hn2 & Hu2 & Hl2).
    split; [done|]. split.
    + by rewrite Hu2, Hu1, <- app_assoc.
    + by rewrite Hl1, Hl2.
Qed.

(** The cache of links is written but never read: the lookup asks for the
    pair of the application and the account name, the store files the link
    under the name alone.  From the empty cache the module starts with,
    every call builds the URL again, also for an account linked before, and
    no call is answered from the cache. *)
Theorem account_link_cache_never_hit calls :
  urls_built (account_links get_url account_leaf_name calls no_links).1
    = (fun call : bottle * string * bool => str_replace ":" "/" call.1.2) <$> calls /\
  (account_links get_url account_leaf_name calls no_links).2
    = (fun call : bottle * string * bool =>
         built_link get_url account_leaf_name call.1.1 call.1.2 call.2) <$> calls /\
  forall request_app account_name,
    _account_link_cache (account_links get_url account_leaf_name calls no_links).1
      !! AppAndName request_app account_name = None.
Proof.
  destruct (account_links_miss calls no_links) as (Hn & Hu & Hl); [done|].
  split; [done|]. split; [done|]. apply Hn.
Qed.

End AccountLinkFacts.

(** ** From the link back to the account *)

Lemma str_replace_contains old new s :
  old ≠ new -> str_contains old (str_replace old new s) = false.
Proof.
  intros Hne. induction s as [|c s IH]; [done|]. cbn.
  rewrite IH, orb_false_r. apply bool_decide_eq_false.
  destruct (decide (c = old)); congruence.
Qed.

Lemma str_replace_back a b s :
  str_contains b s = false -> str_replace b a (str_replace a b s) = s.
Proof.
  induction s as [|c s IH]; [done|]. cbn.
  intros [Hc Hs]%orb_false_iff. apply bool_decide_eq_false in Hc.
  rewrite (IH Hs). f_equal.
  destruct (decide (c = a)) as [->|Hca].
  - by rewrite decide_True.
  - by rewrite decide_False.
Qed.

Lemma str_lstrip_replace a b s :
  str_contains b s = false ->
  str_lstrip b (str_replace a b s) = str_replace a b (str_lstrip a s).
Proof.
  induction s as [|c s IH]; [done|]. cbn.
  intros [Hc Hs]%orb_false_iff. apply bool_decide_eq_false in Hc.
  destruct (decide (c = a)) as [->|Hca].
  - rewrite decide_True by done. by apply IH.
  - rewrite decide_False by done. cbn. by rewrite (decide_False (P := c = a)).
Qed.

Lemma str_replace_empty a b s : str_replace a b s = EmptyString <-> s = EmptyString.
Proof. by destruct s. Qed.

Lemma str_rstrip_replace a b s :
  str_contains b s = false ->
  str_rstrip b (str_replace a b s) = str_replace a b (str_rstrip a s).
Proof.
  induction s as [|c s IH]; [done|]. cbn.
  intros [Hc Hs]%orb_false_iff. apply bool_decide_eq_false in Hc.
  rewrite (IH Hs).
  destruct (str_rstrip a s) as [|c' s'] eqn:Hstrip; cbn.
  - destruct (decide (c = a)) as [->|Hca].
    + by rewrite decide_True.
    + rewrite decide_False by done. cbn. by rewrite decide_False.
  - done.
Qed.

Lemma str_lstrip_contains c d s :
  str_contains c s = false -> str_contains c (str_lstrip d s) = false.
Proof.
  induction s as [|c' s IH]; [done|]. cbn.
  intros [Hc Hs]%orb_false_iff. destruct (decide (c' = d)); [by apply IH|].
  cbn. by rewrite Hc, Hs.
Qed.

Lemma str_rstrip_contains c d s :
  str_contains c s = false -> str_contains c (str_rstrip d s) = false.
Proof.
  induction s as [|c' s IH]; [done|]. cbn.
  intros [Hc Hs]%orb_false_iff. specialize (IH Hs).
  destruct (str_rstrip d s) as [|c'' s'].
  - destruct (decide (c' = d)); [done|]. cbn. by rewrite Hc.
  - cbn in IH |- *. by rewrite Hc, IH.
Qed.

(** The account page recovers, from the slashed name [account_link] puts in
    the address, the account name with the colons at its ends taken off,
    provided the name holds no slash; so the page is that of the account
    linked exactly when the name holds no slash and neither begins nor ends
    with a colon.  The slashed name never holds a colon, as the route of the
    page requires. *)
Theorem account_page_of_link account_name :
  str_contains ":" (str_replace ":" "/" account_name) = false /\
  (str_contains "/" account_name = false ->
   page_account_name (str_replace ":" "/" account_name) = str_strip ":" account_name) /\
  (page_account_name (str_replace ":" "/" account_name) = account_name <->
   (str_contains "/" account_name = false /\ str_strip ":" account_name = account_name)).
Proof.
  assert (Hback : str_contains "/" account_name = false ->
            page_account_name (str_replace ":" "/" account_name) = str_strip ":" account_name).
  { intros Hfree. unfold page_account_name, str_strip.
    rewrite str_lstrip_replace by done.
    rewrite str_rstrip_replace by (by apply str_lstrip_contains).
    apply str_replace_back. by apply str_rstrip_contains, str_lstrip_contains. }
  split; [by apply str_replace_contains|]. split; [done|]. split.
  - intros Hpage. assert (Hfree : str_contains "/" account_name = false).
    { rewrite <- Hpage. unfold page_account_name. by apply str_replace_contains. }
    split; [done|]. by rewrite <- (Hback Hfree).
  - intros [Hfree Hstrip]. by rewrite (Hback Hfree).
Qed.

(** ** Views, tags and payees *)

Lemma filter_type_Transaction_elem entries t :
  t ∈ filter_type_Transaction entries <-> Txn t ∈ entries.
Proof.
  unfold filter_type_Transaction. rewrite list_elem_of_omap. split.
  - intros (e & He & Ht). destruct e; try done. by injection Ht as ->.
  - intros Hin. by exists (Txn t).
Qed.

Lemma foldl_union_elem {A B} `{Countable B} (f : A -> gset B) (l : list A) (acc : gset B) x :
  x ∈ foldl (fun acc a => acc ∪ f a) acc l <-> x ∈ acc \/ exists a, a ∈ l /\ x ∈ f a.
Proof.
  revert acc. induction l as [|a l IH]; intros acc; cbn.
  - split; [by left|]. intros [?|(a & Ha & _)]; [done|]. by apply elem_of_nil in Ha.
  - rewrite IH, elem_of_union. split.
    + intros [[?|?]|(a' & Ha' & Hx)]; [by left| |].
      * right. exists a. split; [apply list_elem_of_here | done].
      * right. exists a'. split; [by apply list_elem_of_further | done].
    + intros [?|(a' & Ha' & Hx)]; [by left; left|].
      apply elem_of_cons in Ha' as [->|Ha']; [by left; right|].
      right. by exists a'.
Qed.

Lemma get_all_tags_elem entries tag :
  tag ∈ get_all_tags entries <-> exists t, Txn t ∈ entries /\ tag ∈ txn_tags t.
Proof.
  unfold get_all_tags. rewrite foldl_union_elem. split.
  - intros [Hempty|(t & Ht & Htag)]; [by apply elem_of_empty in Hempty|].
    exists t. split; [by apply filter_type_Transaction_elem|].
    by apply elem_of_list_to_set in Htag.
  - intros (t & Ht & Htag). right. exists t.
    split; [by apply filter_type_Transaction_elem | by apply elem_of_list_to_set].
Qed.

Lemma get_all_payees_elem entries payee :
  payee ∈ get_all_payees entries <->
  payee ≠ None /\ exists t, Txn t ∈ entries /\ txn_payee t = payee.
Proof.
  unfold get_all_payees. rewrite elem_of_difference, foldl_union_elem, elem_of_singleton.
  split.
  - intros [[Hempty|(t & Ht & Hp)] Hne]; [by apply elem_of_empty in Hempty|].
    split; [done|]. exists t. split; [by apply filter_type_Transaction_elem|].
    by apply elem_of_singleton in Hp.
  - intros [Hne (t & Ht & Hp)]. split; [|done]. right. exists t.
    split; [by apply filter_type_Transaction_elem | by apply elem_of_singleton].
Qed.

Lemma filter_nonempty {A} (P : A -> Prop) `{forall x, Decision (P x)} (l : list A) :
  filter P l ≠ [] <-> exists x, x ∈ l /\ P x.
Proof.
  split.
  - intros Hne. destruct (filter P l) as [|x l'] eqn:Hf; [done|].
    assert (Hx : x ∈ filter P l) by (rewrite Hf; apply list_elem_of_here).
    apply list_elem_of_filter in Hx as [? ?]. by exists x.
  - intros (x & Hx & HP) Hnil.
    assert (Hin : x ∈ filter P l) by (by apply list_elem_of_filter).
    rewrite Hnil in Hin. by apply elem_of_nil in Hin.
Qed.

Lemma filter_filter_comm {A} (P Q : A -> Prop)
    `{forall x, Decision (P x)} `{forall x, Decision (Q x)} (l : list A) :
  filter P (filter Q l) = filter Q (filter P l).
Proof.
  induction l as [|x l IH]; [done|].
  destruct (decide (P x)) as [HP|HP], (decide (Q x)) as [HQ|HQ];
    repeat first [ rewrite (filter_cons_True P) by done
                 | rewrite (filter_cons_False P) by done
                 | rewrite (filter_cons_True Q) by done
                 | rewrite (filter_cons_False Q) by done ];
    by rewrite IH.
Qed.

Lemma filter_idemp {A} (P : A -> Prop) `{forall x, Decision (P x)} (l : list A) :
  filter P (filter P l) = filter P l.
Proof.
  induction l as [|x l IH]; [done|]. destruct (decide (P x)).
  - repeat rewrite (filter_cons_True P) by done. by rewrite IH.
  - by rewrite !filter_cons_False by done.
Qed.

Section ViewFacts.

Variable realize : list Entry -> exception + RealAccount.
Variable clamp : list Entry -> date -> date -> list Entry * option nat.
Variable transfer : list Entry -> list Entry.
Variable get_cost : Inventory -> Inventory.

(** What a view is made of, whatever its class. *)
Lemma View_realize_inv self all_entries view :
  View_realize realize clamp transfer self all_entries = inr view ->
  view_all_entries view = all_entries /\
  (view_entries view, view_begin_index view) = apply_filter clamp self all_entries /\
  view_opening_entries view
    = (fun index => take index (view_entries view)) <$> view_begin_index view /\
  view_closing_entries view = transfer (view_entries view) /\
  realize (view_entries view) = inr (view_real_accounts view) /\
  realize (view_closing_entries view) = inr (view_closing_real_accounts view) /\
  match view_opening_entries view with
  | Some ((_ :: _) as opening_entries) =>
      exists real_accounts,
        realize opening_entries = inr real_accounts /\
        view_opening_real_accounts view = Some real_accounts
  | _ => view_opening_real_accounts view = None
  end.
Proof.
  unfold View_realize.
  destruct (apply_filter clamp self all_entries) as [entries begin_index]. cbv zeta.
  destruct ((fun index => take index entries) <$> begin_index) as [[|e l]|] eqn:Hopen.
  - destruct (realize entries) as [|ra] eqn:H1; [done|].
    destruct (realize (transfer entries)) as [|rc] eqn:H2; [done|].
    intros [= <-]. cbn. by rewrite Hopen.
  - destruct (realize (e :: l)) as [|ro] eqn:H0; [done|].
    destruct (realize entries) as [|ra] eqn:H1; [done|].
    destruct (realize (transfer entries)) as [|rc] eqn:H2; [done|].
    intros [= <-]. cbn. rewrite Hopen. repeat split; try done. by exists ro.
  - destruct (realize entries) as [|ra] eqn:H1; [done|].
    destruct (realize (transfer entries)) as [|rc] eqn:H2; [done|].
    intros [= <-]. cbn. by rewrite Hopen.
Qed.

(** The page of the opening balances shows N/A exactly for the views that
    were built without opening entries: always for the view of all
    transactions and for the views of a tag or of a payee, whose filters
    give no boundary, and for a view of a year when nothing comes before
    its boundary. *)
Theorem opening_balances_not_available self all_entries view options :
  View_realize realize clamp transfer self all_entries = inr view ->
  (openbal get_cost view options = inr NotAvailable <->
   default [] (view_opening_entries view) = []) /\
  ((forall year, self ≠ YearView year) -> view_opening_entries view = None).
Proof.
  intros Hview.
  destruct (View_realize_inv _ _ _ Hview) as (_ & Hfilter & Hopen & _ & _ & _ & Hreal).
  split.
  - unfold openbal. destruct (view_opening_entries view) as [[|e l]|]; cbn.
    + by rewrite Hreal.
    + destruct Hreal as (ro & _ & ->). split; [|done].
      unfold balance_sheet_table.
      destruct (table_of_balances _ _ (name_assets options) _); [done|].
      destruct (table_of_balances _ _ (name_liabilities options) _); [done|].
      by destruct (table_of_balances _ _ (name_equity options) _).
    + by rewrite Hreal.
  - intros Hclass. rewrite Hopen.
    destruct self as [|year|tags|payee]; cbn in Hfilter;
      try (by injection Hfilter as _ ->).
    by destruct (Hclass year).
Qed.

(** The entries of the view of a set of tags or of a payee are entries of
    the ledger, in the order of the ledger, all of them transactions;
    filtering them again changes nothing, and the two filters can be applied
    in either order. *)
Theorem filtered_views_entries tags payee (all_entries : list Entry) :
  (apply_filter clamp (TagView tags) all_entries).1 `sublist_of` all_entries /\
  (apply_filter clamp (PayeeView payee) all_entries).1 `sublist_of` all_entries /\
  Forall (fun e => is_Transaction e = true)
    ((apply_filter clamp (TagView tags) all_entries).1
       ++ (apply_filter clamp (PayeeView payee) all_entries).1) /\
  (apply_filter clamp (TagView tags) (apply_filter clamp (TagView tags) all_entries).1).1
    = (apply_filter clamp (TagView tags) all_entries).1 /\
  (apply_filter clamp (PayeeView payee)
     (apply_filter clamp (PayeeView payee) all_entries).1).1
    = (apply_filter clamp (PayeeView payee) all_entries).1 /\
  (apply_filter clamp (TagView tags) (apply_filter clamp (PayeeView payee) all_entries).1).1
    = (apply_filter clamp (PayeeView payee)
         (apply_filter clamp (TagView tags) all_entries).1).1.
Proof.
  cbn. split; [apply sublist_filter|]. split; [apply sublist_filter|]. split; [|split; [|split]].
  - apply Forall_app. split; apply Forall_forall; intros e [He _]%list_elem_of_filter;
      by destruct e.
  - apply filter_idemp.
  - apply filter_idemp.
  - apply filter_filter_comm.
Qed.

(** The tags found by [get_all_tags] are those whose view is not empty, and
    a transaction is in the view of each of its tags. *)
Theorem tag_views_nonempty (all_entries : list Entry) tag :
  (tag ∈ get_all_tags all_entries <->
   (apply_filter clamp (TagView {[tag]}) all_entries).1 ≠ []) /\
  (forall t, Txn t ∈ all_entries -> tag ∈ txn_tags t ->
     Txn t ∈ (apply_filter clamp (TagView {[tag]}) all_entries).1).
Proof.
  cbn. split.
  - rewrite get_all_tags_elem, filter_nonempty. split.
    + intros (t & Ht & Htag). exists (Txn t). split; [done|]. cbn.
      apply Exists_exists. exists tag. split; [done | by apply elem_of_singleton].
    + intros (e & He & Htagged). destruct e as [| | | |t| | |]; try done.
      cbn in Htagged. apply Exists_exists in Htagged as (tag' & Hin & ->%elem_of_singleton).
      by exists t.
  - intros t Ht Htag. apply list_elem_of_filter. split; [|done]. cbn.
    apply Exists_exists. exists tag. split; [done | by apply elem_of_singleton].
Qed.

(** The payees found by [get_all_payees] are those whose view is not empty;
    None is never among them.  The views of the payees share no entry, and
    a transaction with a payee is in the view of this payee. *)
Theorem payee_views_partition (all_entries : list Entry) :
  (None ∉ get_all_payees all_entries) /\
  (forall payee,
     Some payee ∈ get_all_payees all_entries <->
     (apply_filter clamp (PayeeView payee) all_entries).1 ≠ []) /\
  (forall payee1 payee2 e,
     e ∈ (apply_filter clamp (PayeeView payee1) all_entries).1 ->
     e ∈ (apply_filter clamp (PayeeView payee2) all_entries).1 -> payee1 = payee2) /\
  (forall t payee, Txn t ∈ all_entries -> txn_payee t = Some payee ->
     Txn t ∈ (apply_filter clamp (PayeeView payee) all_entries).1).
Proof.
  cbn. split; [|split; [|split]].
  - rewrite get_all_payees_elem. by intros [? _].
  - intros payee. rewrite get_all_payees_elem, filter_nonempty. split.
    + intros [_ (t & Ht & Hp)]. by exists (Txn t).
    + intros (e & He & Hp). destruct e as [| | | |t| | |]; try done.
      split; [done|]. by exists t.
  - intros payee1 payee2 e [H1 _]%list_elem_of_filter [H2 _]%list_elem_of_filter.
    destruct e as [| | | |t| | |]; try done. cbn in H1, H2. congruence.
  - intros t payee Ht Hp. by apply list_elem_of_filter.
Qed.

End ViewFacts.

(** ** The characters of the identifiers *)

Lemma re_sub_cons keep replacement c s :
  re_sub keep replacement (String c s) =
    if keep c then String c (re_sub keep replacement s)
    else replacement +:+ re_sub keep replacement s.
Proof. done. Qed.

Lemma sub_simple_id_chars s : str_all is_id_char (sub_simple s) = true.
Proof.
  unfold sub_simple. induction s as [|c s IH]; [done|]. rewrite re_sub_cons.
  destruct (is_simple c) eqn:Hc.
  - cbn. unfold is_id_char at 1. by rewrite Hc, IH.
  - change ("_" +:+ re_sub is_simple "_" s) with (String "_" (re_sub is_simple "_" s)).
    cbn. by rewrite IH.
Qed.

Lemma sub_strict_alnum s : str_all is_alnum (sub_strict s) = true.
Proof.
  unfold sub_strict. induction s as [|c s IH]; [done|]. rewrite re_sub_cons.
  destruct (is_alnum c) eqn:Hc.
  - cbn. by rewrite Hc, IH.
  - by change ("" +:+ re_sub is_alnum "" s) with (re_sub is_alnum "" s).
Qed.

Lemma str_all_impl (keep1 keep2 : ascii -> bool) s :
  (forall c, keep1 c = true -> keep2 c = true) ->
  str_all keep1 s = true -> str_all keep2 s = true.
Proof.
  intros Himpl. induction s as [|c s IH]; [done|]. cbn.
  intros [Hc Hs]%andb_true_iff. by rewrite (Himpl _ Hc), (IH Hs).
Qed.

Lemma sub_strict_id_chars s : str_all is_id_char (sub_strict s) = true.
Proof.
  apply (str_all_impl is_alnum); [|apply sub_strict_alnum].
  intros c Hc. unfold is_id_char, is_simple. by rewrite Hc.
Qed.

(** A string made of id characters is left as it is by the simple
    substitution: the underscore gives way to an underscore. *)
Lemma sub_simple_fixed s : str_all is_id_char s = true -> sub_simple s = s.
Proof.
  unfold sub_simple. induction s as [|c s IH]; [done|]. cbn [str_all].
  intros [Hc Hs]%andb_true_iff. rewrite re_sub_cons, (IH Hs).
  destruct (is_simple c) eqn:Hsimple; [done|].
  unfold is_id_char in Hc. rewrite Hsimple in Hc. cbn in Hc.
  apply bool_decide_eq_true in Hc. by subst c.
Qed.

(** The ids are made of letters, digits, hyphens, dots and underscores
    only, whichever of the two substitutions gave them. *)
Theorem ids_are_id_safe strings result id s :
  compute_ids strings = inr result -> (id, s) ∈ result ->
  str_all is_id_char id = true /\ s ∈ strings.
Proof.
  pose proof (iteration_order_elements strings) as Hel.
  unfold compute_ids, compute_ids_over, methods. cbn [try_methods].
  destruct (no_collision (build_idmap sub_simple _)) eqn:H1.
  - destruct (result_spec _ _ _ Hel H1) as (_ & _ & _ & _ & R5).
    intros [= <-] Hin. apply R5 in Hin as [Hs ->]. split; [apply sub_simple_id_chars | done].
  - destruct (no_collision (build_idmap sub_strict _)) eqn:H2; [|done].
    destruct (result_spec _ _ _ Hel H2) as (_ & _ & _ & _ & R5).
    intros [= <-] Hin. apply R5 in Hin as [Hs ->]. split; [apply sub_strict_id_chars | done].
Qed.

(** Strings that are made of id characters already are their own ids: the
    allocation succeeds and pairs every string with itself.  So the ids
    that [compute_ids] returns are left as they are when ids are computed
    for them again. *)
Theorem id_safe_strings_kept strings :
  Forall (fun s => str_all is_id_char s = true) strings ->
  exists result,
    compute_ids strings = inr result /\
    forall id s, (id, s) ∈ result <-> (s ∈ strings /\ id = s).
Proof.
  intros Hsafe. pose proof (iteration_order_elements strings) as Hel.
  rewrite Forall_forall in Hsafe.
  assert (H1 : no_collision
                 (build_idmap sub_simple (elements (list_to_set strings : gset string)))
               = true).
  { destruct Hel as [Hnd Hset]. apply no_collision_inj; [done|].
    intros s1 s2 Hs1%Hset Hs2%Hset.
    by rewrite (sub_simple_fixed _ (Hsafe _ Hs1)), (sub_simple_fixed _ (Hsafe _ Hs2)). }
  unfold compute_ids, compute_ids_over, methods. cbn [try_methods]. rewrite H1.
  destruct (result_spec _ _ _ Hel H1) as (_ & _ & _ & _ & R5).
  eexists. split; [done|]. intros id s. rewrite R5. split.
  - intros [Hs ->]. by rewrite (sub_simple_fixed _ (Hsafe _ Hs)).
  - intros [Hs ->]. by rewrite (sub_simple_fixed _ (Hsafe _ Hs)).
Qed.

(* ====================================================================== *)
(** * The definitions at work *)
(* ====================================================================== *)

(** A posting that follows the direct listing of its own transaction at the
    same date ends the generator with AttributeError, before anything is
    yielded. *)
Example posting_after_direct_listing_raises :
  iterate_with_balance [IEntry (Txn salary); IPosting salary_usd] = ([], Some AttributeError).
Proof. vm_compute. reflexivity. Qed.

(** An operating currency listed twice makes the second removal fail. *)
Example repeated_currency_raises :
  table_of_balances (fun inv => inv) ledger_tree "Assets" ["USD"; "USD"] = inl ValueError.
Proof. vm_compute. reflexivity. Qed.

(** The journal of the bank account, with the postings of the salary split
    by another transaction: same total, the salary yielded once. *)
Lemma balance_accumulation_witness :
  balance_after bank_journal_split = sum_positions (item_positions bank_journal_split) /\
  sum_positions (item_positions bank_journal) =
    sum_positions (item_positions bank_journal_split).
Proof.
  assert (H : iterate_with_balance bank_journal_split
              = ((iterate_with_balance bank_journal_split).1, None))
    by (vm_compute; reflexivity).
  destruct (balance_accumulation _ _ H) as (H1 & _ & _ & _ & H5).
  split; [exact H1|]. apply H5. unfold bank_journal, bank_journal_split.
  do 2 apply Permutation_skip. apply Permutation_swap.
Defined.

Lemma dedup_property_witness :
  exists r,
    filter (fun r => rec_entry r = Txn salary) (iterate_with_balance bank_journal).1 = [r] /\
    rec_postings r = Some [salary_usd; salary_cad] /\
    rec_change r = Some (sum_positions [mkPosition USD 100; mkPosition CAD 20]).
Proof.
  apply (dedup_property [IEntry (Open jan1 "Assets:Bank")] [salary_usd; salary_cad]
           [IPosting groceries_usd] salary).
  - done.
  - by repeat constructor.
  - by repeat constructor.
  - vm_compute. reflexivity.
Defined.

Lemma null_change_invariant_witness :
  rec_change (mkRecord (Open jan1 "Assets:Bank") None None Inventory_new) = None /\
  rec_balance (mkRecord (Open jan1 "Assets:Bank") None None Inventory_new)
    = balance_before (iterate_with_balance bank_journal).1 0.
Proof.
  apply (null_change_invariant bank_journal 0); [vm_compute; reflexivity | reflexivity].
Defined.

Lemma flush_order_witness :
  rec_entry <$> (iterate_with_balance bank_journal_split).1
    = first_seen_order bank_journal_split.
Proof.
  destruct flush_order as (_ & _ & _ & H). apply H. vm_compute. reflexivity.
Defined.

Lemma direct_transaction_null_change_witness :
  exists i r,
    (iterate_with_balance direct_listing).1 !! i = Some r /\ rec_entry r = Txn salary /\
    rec_postings r = None /\ rec_change r = None /\
    rec_balance r = balance_before (iterate_with_balance direct_listing).1 i.
Proof.
  assert (H : iterate_with_balance ([IEntry (Txn groceries)] ++ IEntry (Txn salary) :: [])
              = ((iterate_with_balance direct_listing).1, None))
    by (vm_compute; reflexivity).
  destruct (direct_transaction_null_change _ _ _ _ H) as (_ & _ & H3). exact H3.
Defined.

Lemma assets_table :
  table_of_balances (fun inv => inv) ledger_tree "Assets" ["USD"] = inr assets_rows.
Proof. vm_compute. reflexivity. Defined.

Lemma pruning_rule_witness :
  cash_account ∈ row_account <$> assets_rows
  <-> active cash_account \/ is_account_root (ra_name cash_account) = true.
Proof.
  refine (pruning_rule (fun inv => inv) ledger_tree "Assets" ["USD"] assets_rows
            cash_account assets_table _ _).
  - apply (bool_decide_unpack (NoDup (ra_name <$> nodes ledger_tree))). vm_compute. exact I.
  - assert (render_lines ledger_tree "Assets" = [assets_account; bank_account; cash_account])
      as -> by (vm_compute; reflexivity).
    do 2 apply list_elem_of_further. apply list_elem_of_here.
Defined.

Lemma currency_split_witness :
  exists rest,
    row_cells bank_row = (currency_cell (ra_balance bank_account) <$> ["USD"])
                           ++ [RestCell rest] /\
    length (row_cells bank_row) = 2 /\
    matched_positions (ra_balance bank_account) ["USD"] ++ rest
      ≡ₚ get_positions (ra_balance bank_account) /\
    NoDup (matched_positions (ra_balance bank_account) ["USD"] ++ rest).
Proof.
  refine (currency_split (fun inv => inv) ledger_tree "Assets" ["USD"] assets_rows
            bank_row assets_table _).
  apply list_elem_of_further, list_elem_of_here.
Defined.

(** Two lookups for the same key whose stages alternate both miss, both
    invoke the factory and get two different views; and a factory that
    raised is invoked again by the next lookup. *)
Lemma racing_lookups_construct_twice :
  ~ (forall schedule,
       constructions "/view/all"
         (interleave fresh_view 2 schedule initial_app
            [(trial_request, Started); (trial_request, Started)]).1 ≤ 1) /\
  (interleave fresh_view 2 [0; 1; 0; 1; 0; 1] initial_app
     [(trial_request, Started); (trial_request, Started)]).2.*2
    = [Finished (inr 0); Finished (inr 1)] /\
  length (invocations (serve flaky_view 2 [trial_request; trial_request] initial_app).1) = 2.
Proof.
  split; [|split].
  - intros H. specialize (H [0; 1; 0; 1; 0; 1]). vm_compute in H. lia.
  - vm_compute. reflexivity.
  - vm_compute. reflexivity.
Qed.

Lemma sequential_single_construction_witness :
  (serve flaky_view 2 [trial_request; trial_request; trial_request] initial_app).2 !! 2
    = Some (inr 1).
Proof.
  destruct (sequential_single_construction flaky_view 2
              [trial_request; trial_request; trial_request] "/view/all") as [_ H].
  apply (H 1 2 trial_request trial_request 1); try reflexivity. lia.
Defined.

Lemma failed_construction_not_memoized_witness :
  (wrapper flaky_view 2 trial_request initial_app).2 = inl ViewError /\
  views (wrapper flaky_view 2 trial_request initial_app).1 = views initial_app /\
  views (wrapper flaky_view 2 trial_request initial_app).1 !! view_id 2 trial_request = None /\
  (wrapper flaky_view 2 trial_request (wrapper flaky_view 2 trial_request initial_app).1).2
    = flaky_view 1 trial_request /\
  length (invocations (wrapper flaky_view 2 trial_request
                         (wrapper flaky_view 2 trial_request initial_app).1).1) = 0 + 2.
Proof.
  apply (failed_construction_not_memoized flaky_view 2 trial_request initial_app ViewError);
    reflexivity.
Defined.

Lemma id_uniqueness_witness :
  compute_ids_over ["a.b"; "a b"; "a_b"] = compute_ids ["a b"; "a.b"; "a b"; "a_b"].
Proof.
  refine (proj1 (id_uniqueness ["a b"; "a.b"; "a b"; "a_b"] ["a.b"; "a b"; "a_b"] _)).
  split.
  - apply (bool_decide_unpack (NoDup ["a.b"; "a b"; "a_b"])). vm_compute. exact I.
  - intros s. rewrite !elem_of_cons, !elem_of_nil. tauto.
Defined.

(** The simple substitution sends "a b" and "a_b" to the same id; the strict
    one tells them apart from "a.b" no better, and the whole allocation
    fails once all three are present with "ab". *)
Example compute_ids_strict :
  compute_ids ["a b"; "a_c"; "a c"] = inr [("ab", "a b"); ("ac", "a c"); ("ac", "a_c")]
  \/ compute_ids ["a b"; "a_c"; "a c"] = inl RuntimeError.
Proof. right. vm_compute. reflexivity. Qed.

Lemma journal_iteration_completes_witness :
  (iterate_with_balance bank_journal).2 = None.
Proof.
  apply journal_iteration_completes. unfold journal_like, bank_journal.
  by repeat constructor.
Defined.

Lemma table_of_balances_total_witness :
  exists rows,
    table_of_balances (fun inv => inv) ledger_tree "Assets" ["USD"; "CAD"] = inr rows.
Proof.
  apply table_of_balances_total.
  apply (bool_decide_unpack (NoDup ["USD"; "CAD"])). vm_compute. exact I.
Defined.

Lemma posting_after_direct_listing_witness :
  (iterate_with_balance
     ([IEntry (Open jan1 "Assets:Bank")]
        ++ IEntry (Txn salary) :: [IPosting groceries_usd] ++ IPosting salary_usd :: [])).2
    = Some AttributeError.
Proof.
  apply (posting_after_direct_listing [IEntry (Open jan1 "Assets:Bank")] salary
           [IPosting groceries_usd] salary_usd []).
  - reflexivity.
  - by repeat constructor.
  - by repeat constructor.
Defined.

Lemma bank_account_line : bank_account ∈ render_lines ledger_tree "Assets".
Proof.
  assert (render_lines ledger_tree "Assets" = [assets_account; bank_account; cash_account])
    as -> by (vm_compute; reflexivity).
  apply list_elem_of_further, list_elem_of_here.
Defined.

Lemma repeated_currency_ValueError_witness :
  table_of_balances (fun inv => inv) ledger_tree "Assets" ([] ++ "USD" :: ["USD"])
    = inl ValueError.
Proof.
  refine (repeated_currency_ValueError (fun inv => inv) ledger_tree "Assets" [] "USD" ["USD"]
            bank_account (mkPosition USD 70) _ bank_account_line _ _).
  - apply list_elem_of_here.
  - left. exists bank_account. split; [apply list_elem_of_here|].
    exists (IPosting salary_usd). split; [|reflexivity].
    apply list_elem_of_further, list_elem_of_here.
  - vm_compute. reflexivity.
Defined.

Lemma running_balance_prefix_sum_witness :
  rec_balance salary_record =
    add_positions (position <$> default [] (rec_postings salary_record))
      (balance_before (iterate_with_balance bank_journal).1 1) /\
  rec_balance salary_record =
    sum_positions (emitted_positions (take 2 (iterate_with_balance bank_journal).1)).
Proof.
  apply (running_balance_prefix_sum bank_journal 1 salary_record).
  vm_compute. reflexivity.
Defined.

Lemma record_postings_owned_witness :
  [salary_usd; salary_cad] ≠ [] /\
  Forall (fun p => rec_entry salary_record = Txn (entry p)) [salary_usd; salary_cad] /\
  rec_change salary_record
    = Some (sum_positions (position <$> [salary_usd; salary_cad])).
Proof.
  apply (record_postings_owned bank_journal salary_record [salary_usd; salary_cad]);
    [|reflexivity].
  apply list_elem_of_lookup. exists 1. vm_compute. reflexivity.
Defined.

Lemma account_journal_rendered_witness :
  exists rows,
    entries_table_with_balance example_flags bank_journal true = (rows, None) /\
    omap row_entry rows = rec_entry <$> (iterate_with_balance bank_journal).1 /\
    omap row_balance rows = rec_balance <$> (iterate_with_balance bank_journal).1 /\
    forall b, last (omap row_balance rows) = Some b ->
      b = sum_positions (item_positions bank_journal).
Proof.
  apply (account_journal_rendered example_flags bank_journal true).
  unfold journal_like, bank_journal. by repeat constructor.
Defined.

Lemma direct_transaction_not_rendered_witness :
  is_Some (entries_table_with_balance example_flags ([] ++ IEntry (Txn salary) :: []) true).2 /\
  ((iterate_with_balance ([] ++ IEntry (Txn salary) :: [])).2 = None ->
   (entries_table_with_balance example_flags ([] ++ IEntry (Txn salary) :: []) true).2
     = Some TypeError).
Proof.
  apply (direct_transaction_not_rendered example_flags [] salary []). discriminate.
Defined.

Lemma rows_follow_lines_witness :
  row_account <$> assets_rows =
    filter (rendered (ra_name <$> mark_from_leaves is_account_active ledger_tree))
      (render_lines ledger_tree "Assets").
Proof.
  exact (rows_follow_lines (fun inv => inv) ledger_tree "Assets" ["USD"] assets_rows
           assets_table).
Defined.

Lemma route_view_ids_witness :
  request_view_id 2 ("/view/all/" +:+ "trial") = "/view/all" /\
  request_view_id 3 ("/view/year/" +:+ "2013" +:+ String "/" "balsheet")
    = "/view/year/" +:+ "2013".
Proof. apply (route_view_ids "2013" "balsheet"). reflexivity. Defined.

Lemma opening_balances_not_available_witness :
  (openbal (fun inv => inv) all_view (mkOptions ["USD"] "Assets" "Liabilities" "Equity"
                                        "Income" "Expenses") = inr NotAvailable <->
   default [] (view_opening_entries all_view) = []) /\
  ((forall year, AllView ≠ YearView year) -> view_opening_entries all_view = None).
Proof.
  apply (opening_balances_not_available realize_ledger clamp_nothing (fun entries => entries)
           (fun inv => inv) AllView small_ledger all_view).
  reflexivity.
Defined.

Lemma ids_are_id_safe_witness :
  str_all is_id_char "a_b" = true /\ "a b" ∈ ["a b"; "a.b"].
Proof.
  apply (ids_are_id_safe ["a b"; "a.b"] [("a.b", "a.b"); ("a_b", "a b")] "a_b" "a b").
  - vm_compute. reflexivity.
  - apply list_elem_of_further, list_elem_of_here.
Defined.

Lemma id_safe_strings_kept_witness :
  exists result,
    compute_ids ["2013"; "trip-2013.a_b"] = inr result /\
    forall id s, (id, s) ∈ result <-> (s ∈ ["2013"; "trip-2013.a_b"] /\ id = s).
Proof.
  apply (id_safe_strings_kept ["2013"; "trip-2013.a_b"]). by repeat constructor.
Defined.
